(** * Euler's method CLI (euler.cpp): stepping engine and direction field

    A shallow embedding of euler.cpp: [roundToPrecision], [eulersMethod],
    [slope] and [printDField], the printers of the table ([printTable],
    [printLatex], [printCsv], [printCsvSegments]) and [main], with the
    properties of the stepper, the projector, the field sampler, the curve
    overlay, the printed texts and the command line.

    The C++ code computes on [double].  The program is written once over
    an interface [Arith] of the operations it uses, and read at two
    instances:
    - [float_arith]: IEEE 754 binary64 (Rocq's primitive floats), the
      arithmetic the program runs; what is stated of the program is stated
      for every instance or for this one, through the specification of
      the binary64 operations ([SpecFloat]) where a proof needs it;
    - [real_arith]: exact real numbers, without rounding, overflow or NaN.
      It is not the arithmetic of the program and is used for remarks only:
      what the formulas of the rounder, of the projector and of the field
      segment would give in exact arithmetic. *)

From Stdlib Require Import ZArith List String Ascii Bool Lia.
From Stdlib Require Import Floats.
From Stdlib Require Import Reals Lra.
From Stdlib Require Import DecimalString.
From Stdlib Require DecimalFacts.
Import ListNotations.

Set Implicit Arguments.

(** ** The arithmetic of [double] used by the program *)

Declare Scope dbl_scope.
Delimit Scope dbl_scope with D.

Class Arith (D : Type) : Type := {
  dadd : D -> D -> D;
  dsub : D -> D -> D;
  dmul : D -> D -> D;
  ddiv : D -> D -> D;
  dsqrt : D -> D;                (* std::sqrt *)
  dlt : D -> D -> bool;          (* a < b *)
  dle : D -> D -> bool;          (* a <= b *)
  deq : D -> D -> bool;          (* a == b *)
  std_round : D -> D;            (* std::round: nearest integer, halves away from zero *)
  std_pow10 : Z -> D;            (* std::pow(10.0, n) *)
  dlit : Z -> Z -> D             (* the decimal literal m * 10^e *)
}.

Infix "+" := dadd : dbl_scope.
Infix "-" := dsub : dbl_scope.
Infix "*" := dmul : dbl_scope.
Infix "/" := ddiv : dbl_scope.
Infix "<?" := dlt : dbl_scope.
Infix "<=?" := dle : dbl_scope.
Infix "=?" := deq : dbl_scope.

(** *** Binary64 *)

Module F64.

(** The double nearest to the integer [n] (ties to even). *)
Definition of_Z (n : Z) : float :=
  SF2Prim (binary_normalize prec emax n 0 false).

(** The double nearest to [m * 10^e], as [strtod] and a correctly rounded
    [pow] give it. *)
Definition of_dec (m e : Z) : float :=
  if (0 <=? e)%Z then of_Z (m * 10 ^ e)
  else
    match m with
    | Z0 => PrimFloat.zero
    | Zpos p =>
        let '(q, e', l) :=
          SFdiv_core_binary prec emax (Zpos p) 0 (10 ^ (- e)) 0 in
        SF2Prim (binary_round_aux prec emax false q e' l)
    | Zneg p =>
        let '(q, e', l) :=
          SFdiv_core_binary prec emax (Zpos p) 0 (10 ^ (- e)) 0 in
        SF2Prim (binary_round_aux prec emax true q e' l)
    end.

(** [std::round]: the value [m * 2^e] with [e < 0] has integer part
    [m / 2^-e]; a fractional part of one half or more rounds away from
    zero.  The sign is kept, also on a zero result. *)
Definition round (v : float) : float :=
  match Prim2SF v with
  | S754_finite s m e =>
      if (0 <=? e)%Z then v
      else
        let d := (2 ^ (- e))%Z in
        let q := (Zpos m / d)%Z in
        let r := (Zpos m mod d)%Z in
        let n := if (d <=? 2 * r)%Z then (q + 1)%Z else q in
        let a := of_Z n in
        if s then PrimFloat.opp a else a
  | _ => v
  end.

(** [std::isfinite]: a zero or a finite number, neither infinite nor NaN. *)
Definition isfinite (v : float) : bool :=
  match Prim2SF v with
  | S754_zero _ | S754_finite _ _ _ => true
  | _ => false
  end.

End F64.

#[export] Instance float_arith : Arith float := {
  dadd := PrimFloat.add;
  dsub := PrimFloat.sub;
  dmul := PrimFloat.mul;
  ddiv := PrimFloat.div;
  dsqrt := PrimFloat.sqrt;
  dlt := PrimFloat.ltb;
  dle := PrimFloat.leb;
  deq := PrimFloat.eqb;
  std_round := F64.round;
  std_pow10 := F64.of_dec 1;
  dlit := F64.of_dec
}.

(** *** Exact reals *)

Module Exact.

Definition ltb (a b : R) : bool := if Rlt_dec a b then true else false.

Definition leb (a b : R) : bool := if Rle_dec a b then true else false.

Definition eqb (a b : R) : bool := if Req_dec_T a b then true else false.

Definition round (v : R) : R :=
  if Rle_dec 0 v then IZR (Int_part (v + / 2))
  else (- IZR (Int_part (- v + / 2)))%R.

Definition pow10 (n : Z) : R := powerRZ 10 n.

Definition of_dec (m e : Z) : R := (IZR m * powerRZ 10 e)%R.

End Exact.

#[export] Instance real_arith : Arith R := {
  dadd := Rplus;
  dsub := Rminus;
  dmul := Rmult;
  ddiv := Rdiv;
  dsqrt := R_sqrt.sqrt;
  dlt := Exact.ltb;
  dle := Exact.leb;
  deq := Exact.eqb;
  std_round := Exact.round;
  std_pow10 := Exact.pow10;
  dlit := Exact.of_dec
}.

(** ** Outcomes of a call *)

(** Every failure of the program is a [std::runtime_error] carrying a
    message, or the [std::format_error] of [std::format] on a negative
    precision. *)
Inductive exn : Type :=
| runtime_error (what : string)
| format_error.

(** A call returns, throws, or has not left its loops when the bound on
    the number of iterations is used up. *)
Inductive outcome (A : Type) : Type :=
| Returned (a : A)
| Threw (e : exn)
| Diverged.

Arguments Returned {A} a.
Arguments Threw {A} e.
Arguments Diverged {A}.

(** The arguments of the constructor [stepValues(x_, y_, yp_, dy_,
    precision)]; the four strings of the struct are their renderings
    ([Text.x] to [Text.dy] below). *)
Record stepValues (D : Type) : Type := mkStepValues {
  x_ : D;
  y_ : D;
  yp_ : D;
  dy_ : D;
  sv_precision : Z
}.

(** What [printDField] appends to its buffer, one constructor for each
    [buffer << ...] of the source ([Text.item] below renders them). *)
Inductive tikz (D : Type) : Type :=
| Preamble
| Axes (x0 y0 xe yTop : D)
| FieldSegment (xL yL xR yR : D)
| CurveDraw
| PlotOpen
| CurvePoint (x y : D)
| PlotClose
| Postamble.

Arguments Preamble {D}.
Arguments CurveDraw {D}.
Arguments PlotOpen {D}.
Arguments PlotClose {D}.
Arguments Postamble {D}.

(** ** The program *)

Section Program.

Context {D : Type} {AD : Arith D}.

Local Open Scope dbl_scope.

(** Modelled from the spec: the expression evaluator (tinyexpr's
    [te_parser], whose sources are not part of the program files).  A
    formula over the variables x and y is evaluated at the bound values:
    [tep_evaluate fn x y] is the value [evaluate] returns and
    [tep_success fn x y] the flag [success()] reports after it. *)
Variable tep_success : string -> D -> D -> bool.
Variable tep_evaluate : string -> D -> D -> D.

(** Each loop of the program may run [fuel] iterations. *)
Variable fuel : nat.

Definition roundToPrecision (value : D) (precision : Z) : D :=
  let scale := std_pow10 precision in
  std_round (value * scale) / scale.

(** *** eulersMethod *)

Section EulersMethod.

Variable fn : string.
Variables step end_ : D.
Variable precision : Z.

(** The loop [while (!(x > end))] on the state [x], [y], [values]. *)
Fixpoint euler_loop (n : nat) (x y : D) (values : list (stepValues D))
  : outcome (list (stepValues D)) :=
  if end_ <? x then Returned values
  else
    match n with
    | O => Diverged
    | S n' =>
        let yp := roundToPrecision (tep_evaluate fn x y) precision in
        let dy := roundToPrecision (yp * step) precision in
        let values := values ++ [mkStepValues x y yp dy precision] in
        let x := roundToPrecision (x + step) precision in
        let y := roundToPrecision (y + dy) precision in
        euler_loop n' x y values
    end.

End EulersMethod.

(** The vector [values] that [eulersMethod] hands to the printer chosen
    by its output flags. *)
Definition eulersMethod (fn : string) (step x0 y0 end_ : D) (precision : Z)
  : outcome (list (stepValues D)) :=
  let x := roundToPrecision x0 precision in
  let y := roundToPrecision y0 precision in
  let step := roundToPrecision step precision in
  if negb (tep_success fn x y)
  then Threw (runtime_error ("error parsing expr" ++ fn))
  else euler_loop fn step end_ precision fuel x y [].

(** *** slope *)

Definition slope (fn : string) (x y : D) : outcome D :=
  if negb (tep_success fn x y)
  then Threw (runtime_error ("error parsing expr" ++ fn))
  else Returned (tep_evaluate fn x y).

(** *** printDField *)

Section PrintDField.

Variable expr : string.
Variables x0 y0 xe ye xstep ystep : D.
Variable precision : Z.
Variable plotCurve : bool.
Variables curveStep curveX0 curveY0 : D.

Definition segLen : D := dlit 2 0.
Definition xrange : D := xe - x0.
Definition yrange : D := ye - y0.
Definition yScale : D := xrange / yrange.
Definition yTop : D := y0 + xrange.
Definition ySampleStep : D := ystep / yScale.
Definition mapY (y : D) : D := y0 + (y - y0) * yScale.

(** The body of the inner loop after [slope] has returned [m]. *)
Definition fieldSegment (x y m : D) : tikz D :=
  let mScaled := m * yScale in
  let dx := segLen / dsqrt (dlit 1 0 + mScaled * mScaled) in
  let dy := mScaled * dx in
  let yCenter := mapY y in
  let xL := x - dx / dlit 2 0 in
  let yL := yCenter - dy / dlit 2 0 in
  let xR := x + dx / dlit 2 0 in
  let yR := yCenter + dy / dlit 2 0 in
  FieldSegment xL yL xR yR.

(** [for (double y = y0; y <= ye + 1e-12; y += ySampleStep)] *)
Fixpoint field_y (n : nat) (x y : D) (buffer : list (tikz D))
  : outcome (list (tikz D)) :=
  if y <=? ye + dlit 1 (-12) then
    match n with
    | O => Diverged
    | S n' =>
        match slope expr x y with
        | Returned m =>
            field_y n' x (y + ySampleStep) (buffer ++ [fieldSegment x y m])
        | Threw e => Threw e
        | Diverged => Diverged
        end
    end
  else Returned buffer.

(** [for (double x = x0; x <= xe + 1e-12; x += xstep)] *)
Fixpoint field_x (n : nat) (x : D) (buffer : list (tikz D))
  : outcome (list (tikz D)) :=
  if x <=? xe + dlit 1 (-12) then
    match n with
    | O => Diverged
    | S n' =>
        match field_y fuel x y0 buffer with
        | Returned buffer => field_x n' (x + xstep) buffer
        | Threw e => Threw e
        | Diverged => Diverged
        end
    end
  else Returned buffer.

(** [for (; x <= xe + 1e-12; x = roundToPrecision(x + step, precision))]
    with its [break]; the state is [x], [y], [first] and the buffer. *)
Fixpoint curve_loop (n : nat) (step x y : D) (first : bool)
  (buffer : list (tikz D)) : outcome (bool * list (tikz D)) :=
  if x <=? xe + dlit 1 (-12) then
    if (y <? y0 - dlit 1 (-12)) || (ye + dlit 1 (-12) <? y)
    then Returned (first, buffer)
    else
      match n with
      | O => Diverged
      | S n' =>
          let buffer := if first then buffer ++ [PlotOpen] else buffer in
          let buffer := buffer ++ [CurvePoint x (mapY y)] in
          match slope expr x y with
          | Returned s =>
              let m := roundToPrecision s precision in
              let dy := roundToPrecision (m * step) precision in
              let y := roundToPrecision (y + dy) precision in
              curve_loop n' step (roundToPrecision (x + step) precision) y
                false buffer
          | Threw e => Threw e
          | Diverged => Diverged
          end
      end
  else Returned (first, buffer).

(** The four checks at the head of [printDField]: the exception thrown,
    if any. *)
Definition printDField_checks : option exn :=
  if (xstep <=? dlit 0 0) || (ystep <=? dlit 0 0)
  then Some (runtime_error "direction field steps must be positive")
  else if plotCurve && (curveStep <=? dlit 0 0)
  then Some (runtime_error "curve step must be positive")
  else if (xe <? x0) || (ye <? y0)
  then Some (runtime_error "direction field range must be increasing")
  else if ye =? y0
  then Some (runtime_error "direction field y range must be non-zero")
  else None.

(** The buffer that [printDField] writes to [std::cout] when it reaches
    its last statement. *)
Definition printDField : outcome (list (tikz D)) :=
  match printDField_checks with
  | Some e => Threw e
  | None =>
      let buffer := [Preamble] in
      if (precision <? 0)%Z then Threw format_error
      else
        let buffer := buffer ++ [Axes x0 y0 xe yTop] in
        match field_x fuel x0 buffer with
        | Returned buffer =>
            if plotCurve then
              let x := roundToPrecision curveX0 precision in
              let y := roundToPrecision curveY0 precision in
              let step := roundToPrecision curveStep precision in
              let buffer := buffer ++ [CurveDraw] in
              match curve_loop fuel step x y true buffer with
              | Returned (first, buffer) =>
                  let buffer :=
                    if first then buffer else buffer ++ [PlotClose] in
                  Returned (buffer ++ [Postamble])
              | Threw e => Threw e
              | Diverged => Diverged
              end
            else Returned (buffer ++ [Postamble])
        | Threw e => Threw e
        | Diverged => Diverged
        end
  end.

End PrintDField.

End Program.

(** ** The text the program prints (binary64) *)

Module Text.

Local Open Scope string_scope.

Definition nl : string := String "010"%char EmptyString.

Definition zeros (n : nat) : string := concat "" (repeat "0" n).

(** The decimal digits of [n >= 0] with the point [p] places from the
    right, and at least one digit before it. *)
Definition decimal (p : nat) (n : Z) : string :=
  let ds := NilZero.string_of_uint (N.to_uint (Z.to_N n)) in
  let ds := zeros (S p - String.length ds) ++ ds in
  let k := (String.length ds - p)%nat in
  if Nat.eqb p 0 then ds
  else substring 0 k ds ++ "." ++ substring k p ds.

(** The nearest integer to [num / den], ties to even. *)
Definition round_half_even (num den : Z) : Z :=
  let q := (num / den)%Z in
  let r := (num mod den)%Z in
  match (2 * r ?= den)%Z with
  | Lt => q
  | Gt => (q + 1)%Z
  | Eq => if Z.even q then q else (q + 1)%Z
  end.

(** [std::fixed] with [p] digits after the point: the exact value of the
    double, correctly rounded to [p] decimals. *)
Definition fixed (p : nat) (v : float) : string :=
  match Prim2SF v with
  | S754_nan => "nan"
  | S754_infinity s => (if s then "-" else "") ++ "inf"
  | S754_zero s => (if s then "-" else "") ++ decimal p 0
  | S754_finite s m e =>
      let n :=
        if (0 <=? e)%Z then (Zpos m * 2 ^ e * 10 ^ Z.of_nat p)%Z
        else round_half_even (Zpos m * 10 ^ Z.of_nat p) (2 ^ (- e)) in
      (if s then "-" else "") ++ decimal p n
  end.

(** [stream << std::fixed << std::setprecision(precision) << v]: a negative
    precision of a stream counts as the default 6. *)
Definition stream_fixed (precision : Z) (v : float) : string :=
  fixed (Z.to_nat (if (precision <? 0)%Z then 6%Z else precision)) v.

(** The strings [x], [y], [yp] and [dy] of the struct [stepValues]. *)
Definition x (sv : stepValues float) : string :=
  " " ++ stream_fixed (sv_precision sv) (x_ sv) ++ " ".

Definition y (sv : stepValues float) : string :=
  " " ++ stream_fixed (sv_precision sv) (y_ sv) ++ " ".

Definition yp (sv : stepValues float) : string :=
  " " ++ stream_fixed (sv_precision sv) (yp_ sv) ++ " ".

Definition dy (sv : stepValues float) : string :=
  " " ++ stream_fixed (sv_precision sv) (dy_ sv) ++ " ".

(** [std::format("({:.{}f},{:.{}f})", a, precision, b, precision)] *)
Definition point (precision : Z) (a b : float) : string :=
  "(" ++ fixed (Z.to_nat precision) a ++ "," ++
  fixed (Z.to_nat precision) b ++ ")".

(** One [buffer << ...] of [printDField]. *)
Definition item (precision : Z) (t : tikz float) : string :=
  match t with
  | Preamble =>
      "\begin{center}" ++ nl ++ "\resizebox{\linewidth}{!}{%" ++ nl
  | Axes x0 y0 xe yTop =>
      "\begin{tikzpicture}[scale=0.12]" ++ nl ++
      "  \draw[->] " ++ point precision x0 y0 ++ " -- " ++
      point precision xe y0 ++ " node[right] {$t$};" ++ nl ++
      "  \draw[->] " ++ point precision x0 y0 ++ " -- " ++
      point precision x0 yTop ++ " node[above] {$y$};" ++ nl
  | FieldSegment xL yL xR yR =>
      "  \draw[blue!70] " ++ point precision xL yL ++ " -- " ++
      point precision xR yR ++ ";" ++ nl
  | CurveDraw => "  \draw[red, thick] "
  | PlotOpen => "plot coordinates {"
  | CurvePoint a b => " " ++ point precision a b
  | PlotClose => " };" ++ nl
  | Postamble => "\end{tikzpicture}%" ++ nl ++ "}" ++ nl ++ "\end{center}" ++ nl
  end.

(** [buffer.str()] *)
Definition str (precision : Z) (buffer : list (tikz float)) : string :=
  concat "" (map (item precision) buffer).

End Text.

(** ** What the specification says, for comparison with the program *)

Section Reference.

Context {D : Type} {AD : Arith D}.

Local Open Scope dbl_scope.

Variable tep_evaluate : string -> D -> D -> D.

(** *** The precision rounder *)

(** round(value, precision) =
    round_half_away_from_zero(value * 10^precision) / 10^precision *)
Definition spec_round (value : D) (precision : Z) : D :=
  std_round (value * std_pow10 precision) / std_pow10 precision.

(** *** The reference iteration of the Euler stepper *)

Section Iteration.

Variable fn : string.
Variables step x0 y0 : D.
Variable precision : Z.

(** advance x = round(x + step), y = round(y + dy), with
    yp = round(f(x,y)) and dy = round(yp * step), step being rounded *)
Definition euler_next (s : D * D) : D * D :=
  let h := spec_round step precision in
  let yp := spec_round (tep_evaluate fn (fst s) (snd s)) precision in
  let dy := spec_round (yp * h) precision in
  (spec_round (fst s + h) precision, spec_round (snd s + dy) precision).

(** the state after [k] steps from x = round(x0), y = round(y0) *)
Definition euler_state (k : nat) : D * D :=
  Nat.iter k euler_next (spec_round x0 precision, spec_round y0 precision).

(** the record {x, y, yp, dy} emitted in the state [s] *)
Definition euler_emit (s : D * D) : stepValues D :=
  let h := spec_round step precision in
  let yp := spec_round (tep_evaluate fn (fst s) (snd s)) precision in
  mkStepValues (fst s) (snd s) yp (spec_round (yp * h) precision) precision.

(** the record of step [k] *)
Definition euler_record (k : nat) : stepValues D :=
  euler_emit (euler_state k).

(** while x <= x_end, written as not greater than: the iteration leaves
    the loop at step [N], the first whose x is greater than [x_end] *)
Definition euler_stops (x_end : D) (N : nat) : Prop :=
  (forall k, (k < N)%nat -> (x_end <? fst (euler_state k)) = false) /\
  (x_end <? fst (euler_state N)) = true.

End Iteration.

(** *** The projector *)

Section Projector.

Variables x_min y_min x_max y_max : D.

(** y_scale = x_range / y_range, with x_range = x_max - x_min and
    y_range = y_max - y_min *)
Definition y_scale : D := (x_max - x_min) / (y_max - y_min).

(** project_y(y) = y_min + (y - y_min) * y_scale *)
Definition project_y (y : D) : D := y_min + (y - y_min) * y_scale.

(** project_x(x) = x *)
Definition project (p : D * D) : D * D := (fst p, project_y (snd p)).

(** *** The segment of a grid point *)


End Projector.

(** *** The grid of the field sampler *)

(** Walk from [lo] in increments of [inc] while the position is at most
    [hi] plus the tolerance; [None] when [n] positions do not reach the
    end of the walk. *)
Fixpoint walk (n : nat) (lo hi inc : D) : option (list D) :=
  if lo <=? hi + dlit 1 (-12) then
    match n with
    | O => None
    | S n' => option_map (cons lo) (walk n' (lo + inc) hi inc)
    end
  else Some [].

(** x outer, y inner; the y walk uses the adjusted step
    grid.y_step / y_scale. *)
Definition grid (n : nat) (x_min y_min x_max y_max x_step y_step : D)
  : option (list (D * D)) :=
  match walk n x_min x_max x_step,
        walk n y_min y_max (y_step / y_scale x_min y_min x_max y_max) with
  | Some xs, Some ys => Some (list_prod xs ys)
  | _, _ => None
  end.

(** *** Reading a buffer *)

Definition field_segments (buffer : list (tikz D)) : list (tikz D) :=
  filter (fun t => match t with FieldSegment _ _ _ _ => true | _ => false end)
    buffer.

Definition curve_points (buffer : list (tikz D)) : list (D * D) :=
  flat_map (fun t => match t with CurvePoint x y => [(x, y)] | _ => [] end)
    buffer.

End Reference.

(** ** The test of the overlay's loop *)

(** The states that the loop of the overlay keeps, by the comparisons of
    the code as it evaluates them: [x <= xe + 1e-12] holds and neither
    [y < y0 - 1e-12] nor [y > ye + 1e-12] does.  The bounds are the
    rounded sums of the arithmetic, and a [y] that is no number is kept,
    both comparisons being false of it. *)
Definition retained {D : Type} {AD : Arith D} (y_min x_max y_max : D)
  (s : D * D) : Prop :=
  dle (fst s) (dadd x_max (dlit 1 (-12))) = true /\
  dlt (snd s) (dsub y_min (dlit 1 (-12))) = false /\
  dlt (dadd y_max (dlit 1 (-12))) (snd s) = false.

(** ** Formulas used in the scenarios *)

Module Formula.

Local Open Scope float_scope.

(** Modelled from the spec: what tinyexpr computes for the formulas of
    the scenarios and of the README, in double arithmetic; any other text
    fails to parse and evaluates to NaN. *)
Definition compile (fn : string) : option (float -> float -> float) :=
  if String.eqb fn "0.3*(300-y)" then
    Some (fun x y => F64.of_dec 3 (-1) * (F64.of_Z 300 - y))
  else if String.eqb fn "-y/(500+x)" then
    Some (fun x y => - y / (F64.of_Z 500 + x))
  else if String.eqb fn "x" then Some (fun x y => x)
  else if String.eqb fn "1" then Some (fun x y => F64.of_Z 1)
  else None.

Definition success (fn : string) (x y : float) : bool :=
  match compile fn with Some _ => true | None => false end.

Definition evaluate (fn : string) (x y : float) : float :=
  match compile fn with Some f => f x y | None => nan end.

End Formula.

(** ** Binary64 numbers through their specification *)

(** The notions in which the rounding of binary64 operations is followed
    on [SpecFloat]: shifted mantissas, normal mantissas, signed values and
    the scales [10^p]. *)
Section Binary64Notions.

Local Open Scope Z_scope.

(** The record after [k] shifts of the mantissa [M]. *)
Definition shr_inv (M : Z) (k : nat) (mrs : shr_record) : Prop :=
  shr_m mrs = M / 2 ^ Z.of_nat k /\
  match k with
  | O => shr_r mrs = false /\ shr_s mrs = false
  | S k' =>
      shr_r mrs = Z.odd (M / 2 ^ Z.of_nat k') /\
      (shr_s mrs = true <-> M mod 2 ^ Z.of_nat k' <> 0)
  end.

(** Mantissas of normal numbers. *)
Definition normal53 (m : positive) : Prop := 2 ^ 52 <= Zpos m < 2 ^ 53.

Definition signed (sg : bool) (a : float) : float :=
  if sg then PrimFloat.opp a else a.

(** The scales 10^0 .. 10^22 are normal numbers. *)
Definition normal_scale (f : spec_float) : bool :=
  match f with
  | S754_finite false m e =>
      (2 ^ 52 <=? Zpos m) && (Zpos m <? 2 ^ 53) && (-52 <=? e) && (e <=? 21)
  | _ => false
  end.

End Binary64Notions.

(** ** The printers of the table (binary64) *)

(** What [std::format] and [std::to_string] do with the arguments the
    program gives them. *)
Module Fmt.

Local Open Scope string_scope.

(** [std::to_string(n)] and [std::format("{}", n)] of an [n >= 0]. *)
Definition to_string (n : nat) : string :=
  NilZero.string_of_uint (Nat.to_uint n).

(** A byte that continues a UTF-8 code point (10xxxxxx). *)
Definition continuation (c : ascii) : bool :=
  let n := nat_of_ascii c in (128 <=? n)%nat && (n <? 192)%nat.

(** The width [std::format] counts for a text without wide or combining
    characters: its code points. *)
Fixpoint width (s : string) : nat :=
  match s with
  | EmptyString => 0
  | String c s' => if continuation c then width s' else S (width s')
  end.

Definition spaces (n : nat) : string := concat "" (repeat " " n).

(** [std::format("{:>{}}", s, w)]: [s] moved to the right of a field of
    [w] columns; a longer [s] is left as it is. *)
Definition right (w : nat) (s : string) : string :=
  spaces (w - width s) ++ s.

(** The UTF-8 bytes of the letter Delta. *)
Definition Delta : string := String "206" (String "148" EmptyString).

(** How often the character [c] occurs in [s]. *)
Fixpoint count (c : ascii) (s : string) : nat :=
  match s with
  | EmptyString => 0
  | String d s' => (if Ascii.eqb c d then 1 else 0) + count c s'
  end.

End Fmt.

(** [struct colwidth] *)
Record colwidth : Type := mkColwidth {
  col_ind : nat;
  col_dep : nat;
  col_der : nat;
  col_dy : nat
}.

(** [stepValues::getCols]: the lengths of the four strings. *)
Definition getCols (sv : stepValues float) : colwidth :=
  mkColwidth (String.length (Text.x sv)) (String.length (Text.y sv))
    (String.length (Text.yp sv)) (String.length (Text.dy sv)).

(** One turn of the loop [for (stepValues val : values)] of
    [eulersMethod] on [xm], [ym], [ypm], [dym]. *)
Definition widen (w : colwidth) (val : stepValues float) : colwidth :=
  let cur := getCols val in
  mkColwidth
    (if (col_ind w <? col_ind cur)%nat then col_ind cur else col_ind w)
    (if (col_dep w <? col_dep cur)%nat then col_dep cur else col_dep w)
    (if (col_der w <? col_der cur)%nat then col_der cur else col_der w)
    (if (col_dy w <? col_dy cur)%nat then col_dy cur else col_dy w).

(** [maxwidths] of [eulersMethod], from [xm = ym = ypm = dym = 0]. *)
Definition maxwidths (values : list (stepValues float)) : colwidth :=
  fold_left widen values (mkColwidth 0 0 0 0).

Section Printers.

Local Open Scope string_scope.

(** *** printCsv *)

Definition csv_line (value : stepValues float) : string :=
  Text.x value ++ "," ++ Text.y value ++ "," ++ Text.yp value ++ "," ++
  Text.dy value ++ Text.nl.

Definition printCsv (values : list (stepValues float)) (precision : Z)
  : string :=
  ("x,y,y'," ++ Fmt.Delta ++ "y" ++ Text.nl)
  ++ concat "" (map csv_line values).

(** *** printLatex *)

(** One row: three blanks, the counter and the four strings with " & "
    between them, two backslashes and the line of the rule. *)
Definition latex_row (n : nat) (value : stepValues float) : string :=
  "   " ++ Fmt.to_string n ++ " & " ++ Text.x value ++ " & " ++
  Text.y value ++ " & " ++ Text.yp value ++ " & " ++ Text.dy value ++
  "\\" ++ Text.nl ++ "    \hline" ++ Text.nl.

(** The loop over [values] with its counter [n]. *)
Fixpoint latex_rows (n : nat) (values : list (stepValues float)) : string :=
  match values with
  | [] => ""
  | value :: rest => latex_row n value ++ latex_rows (S n) rest
  end.

(** The text before the rows: the preamble, the opening of the table and
    the line of the column titles. *)
Definition latex_head : string :=
  ("\documentclass{article}" ++ Text.nl ++
   "\usepackage[margin=1in]{geometry}" ++ Text.nl ++
   "\usepackage{longtable}" ++ Text.nl ++ "\begin{document}" ++ Text.nl)
  ++ ("\begin{center} " ++ Text.nl ++
      "  \begin{longtable}{|c|c|c|c|c|}" ++ Text.nl ++
      "    \hline" ++ Text.nl)
  ++ ("    " ++ "n" ++ " & " ++ "x" ++ " & " ++ "y" ++ " & " ++ "y'" ++
      " & " ++ "$\Delta$y" ++ " \\" ++ Text.nl ++ "    \hline" ++ Text.nl).

(** The text after the rows. *)
Definition latex_foot : string :=
  "  \end{longtable} " ++ Text.nl ++ "\end{center}" ++ Text.nl ++
  "\end{document}".

Definition printLatex (values : list (stepValues float))
  (maxwidths : colwidth) (precision : Z) : string :=
  latex_head ++ latex_rows 0 values ++ latex_foot.

(** *** printTable *)

Section PrintTable.

Variable nm xm ym yp dy : nat.

Definition table_line (n x y yp' dy' : string) : string :=
  Fmt.right nm n ++ "|" ++ Fmt.right xm x ++ "|" ++ Fmt.right ym y ++ "|" ++
  Fmt.right yp yp' ++ "|" ++ Fmt.right dy dy'.

(** The loop over [values] with its counter [n]. *)
Fixpoint table_rows (n : nat) (values : list (stepValues float)) : string :=
  match values with
  | [] => ""
  | value :: rest =>
      (table_line (Fmt.to_string n) (Text.x value) (Text.y value)
         (Text.yp value) (Text.dy value) ++ Text.nl)
      ++ table_rows (S n) rest
  end.

End PrintTable.

Definition printTable (values : list (stepValues float))
  (maxwidths : colwidth) (precision : Z) : string :=
  let nc := "n " in
  let xc := "x " in
  let yc := "y " in
  let ypc := "y' " in
  let dyc := Fmt.Delta ++ "y " in
  let xm := col_ind maxwidths in
  let ym := col_dep maxwidths in
  let yp := col_der maxwidths in
  let dy := col_dy maxwidths in
  let nm :=
    Nat.max (String.length (Fmt.to_string (List.length values)))
      (String.length nc) in
  (table_line nm xm ym yp dy nc xc yc ypc dyc ++ Text.nl)
  ++ table_rows nm xm ym yp dy 0 values.

End Printers.

(** ** The program as a whole: what a run writes to [std::cout] *)

(** The exceptions that leave [main]: those the program throws itself, and
    those of [std::stod] and [std::stoi] on the arguments. *)
Inductive cli_exn : Type :=
| uncaught (e : exn)
| invalid_argument
| out_of_range.

(** A run writes its text and ends, is ended by an exception (nothing is
    written: every printer writes its buffer in its last statement), or
    has not ended within the bound on the iterations. *)
Inductive run (A : Type) : Type :=
| Done (a : A)
| Raised (e : cli_exn)
| Running.

Arguments Done {A} a.
Arguments Raised {A} e.
Arguments Running {A}.

Definition bind {A B : Type} (m : run A) (k : A -> run B) : run B :=
  match m with
  | Done a => k a
  | Raised e => Raised e
  | Running => Running
  end.

Definition of_outcome {A : Type} (o : outcome A) : run A :=
  match o with
  | Returned a => Done a
  | Threw e => Raised (uncaught e)
  | Diverged => Running
  end.

(** The flags that [main] sets from [argc] and the last argument. *)
Record flags : Type := mkFlags {
  latexout : bool;
  csvout : bool;
  csvsegmentsout : bool;
  dfieldout : bool;
  dfieldcurveout : bool
}.

Section Output.

Local Open Scope string_scope.

#[local] Notation "x <- m ;; k" := (bind m (fun x => k))
  (at level 61, m at next level, right associativity).

(** [std::stod] and [std::stoi]: the value, or [invalid_argument], or
    [out_of_range]. *)
Variable stod : string -> run float.
Variable stoi : string -> run Z.

(** Modelled from the spec: the expression evaluator, as in [Program]. *)
Variable tep_success : string -> float -> float -> bool.
Variable tep_evaluate : string -> float -> float -> float.

Variable fuel : nat.

(** *** printCsvSegments *)

(** [std::format("{:.{}f},{:.{}f},{:.{}f},{:.{}f}\n", ...)] *)
Definition segment_line (precision : Z) (x0 y0 x1 y1 : float) : run string :=
  if (precision <? 0)%Z then Raised (uncaught format_error)
  else
    let p := Z.to_nat precision in
    Done (Text.fixed p x0 ++ "," ++ Text.fixed p y0 ++ "," ++
          Text.fixed p x1 ++ "," ++ Text.fixed p y1 ++ Text.nl).

(** [for (size_t i = 0; i + 1 < values.size(); i++)] on [values[i]] and
    [values[i + 1]]. *)
Fixpoint segment_lines (precision : Z) (values : list (stepValues float))
  : run string :=
  match values with
  | a :: (b :: _) as rest =>
      x0 <- stod (Text.x a);;
      y0 <- stod (Text.y a);;
      x1 <- stod (Text.x b);;
      y1 <- stod (Text.y b);;
      line <- segment_line precision x0 y0 x1 y1;;
      lines <- segment_lines precision rest;;
      Done (line ++ lines)
  | _ => Done ""
  end.

Definition printCsvSegments (values : list (stepValues float))
  (precision : Z) : run string :=
  lines <- segment_lines precision values;;
  Done ("x0,y0,x1,y1" ++ Text.nl ++ lines).

(** *** eulersMethod, with the printer its flags choose *)

Definition eulersMethod_output (fn : string) (step x0 y0 end_ : float)
  (precision : Z) (latexout csvout csvsegmentsout : bool) : run string :=
  values <- of_outcome
              (eulersMethod tep_success tep_evaluate fuel fn step x0 y0 end_
                 precision);;
  let maxwidths := maxwidths values in
  if latexout then Done (printLatex values maxwidths precision)
  else if csvsegmentsout then printCsvSegments values precision
  else if csvout then Done (printCsv values precision)
  else Done (printTable values maxwidths precision).

(** *** printDField, with its [std::cout << buffer.str()] *)

Definition printDField_output (expr : string)
  (x0 y0 xe ye xstep ystep : float) (precision : Z) (plotCurve : bool)
  (curveStep curveX0 curveY0 : float) : run string :=
  buffer <- of_outcome
              (printDField tep_success tep_evaluate fuel expr x0 y0 xe ye
                 xstep ystep precision plotCurve curveStep curveX0 curveY0);;
  Done (Text.str precision buffer).

(** *** main *)

(** The first statements of [main]: the flags, or the exception of an
    eighth argument that is no output flag of the table. *)
Definition main_flags (argv : list string) : run flags :=
  let argc := List.length argv in
  let arg k := nth k argv "" in
  if (argc =? 8)%nat then
    if String.eqb "-l" (arg 7%nat) then
      Done (mkFlags true false false false false)
    else if String.eqb "-c" (arg 7%nat) then
      Done (mkFlags false true false false false)
    else if String.eqb "-cr" (arg 7%nat) then
      Done (mkFlags false false true false false)
    else
      Raised (uncaught (runtime_error
        "unknown output flag; use -l, -c, -cr, -df, or -dfc"))
  else if (argc =? 10)%nat && String.eqb "-df" (arg 9%nat) then
    Done (mkFlags false false false true false)
  else if ((argc =? 11)%nat || (argc =? 13)%nat)
          && String.eqb "-dfc" (arg (argc - 1)%nat) then
    Done (mkFlags false false false false true)
  else Done (mkFlags false false false false false).

Definition main (argv : list string) : run string :=
  let argc := List.length argv in
  let arg k := nth k argv "" in
  f <- main_flags argv;;
  if negb (dfieldout f || dfieldcurveout f)
     && ((argc <? 7)%nat || (8 <? argc)%nat)
  then
    Raised (uncaught (runtime_error
      "too many or too few arguments to eulers method"))
  else if dfieldout f || dfieldcurveout f then
    let fn := arg 1%nat in
    x0 <- stod (arg 2%nat);;
    y0 <- stod (arg 3%nat);;
    xe <- stod (arg 4%nat);;
    ye <- stod (arg 5%nat);;
    xgrid <- stod (arg 6%nat);;
    ygrid <- stod (arg 7%nat);;
    if dfieldcurveout f && (argc =? 13)%nat then
      curveStep <- stod (arg 8%nat);;
      curveX0 <- stod (arg 9%nat);;
      curveY0 <- stod (arg 10%nat);;
      prec <- stoi (arg 11%nat);;
      printDField_output fn x0 y0 xe ye xgrid ygrid prec (dfieldcurveout f)
        curveStep curveX0 curveY0
    else if dfieldcurveout f && (argc =? 11)%nat then
      curveStep <- stod (arg 8%nat);;
      prec <- stoi (arg 9%nat);;
      printDField_output fn x0 y0 xe ye xgrid ygrid prec (dfieldcurveout f)
        curveStep x0 y0
    else
      prec <- stoi (arg 8%nat);;
      printDField_output fn x0 y0 xe ye xgrid ygrid prec (dfieldcurveout f)
        xgrid x0 y0
  else
    let fn := arg 1%nat in
    step <- stod (arg 2%nat);;
    x <- stod (arg 3%nat);;
    y <- stod (arg 4%nat);;
    end_ <- stod (arg 5%nat);;
    prec <- stoi (arg 6%nat);;
    eulersMethod_output fn step x y end_ prec (latexout f) (csvout f)
      (csvsegmentsout f).

End Output.

(** ** The conversions of the arguments (binary64) *)

(** [std::stod] and [std::stoi] on decimal notation, which is what the
    program prints and what its examples pass: blanks, an optional sign,
    digits with an optional point and an optional exponent, or inf or nan.
    Hexadecimal notation is not covered and counts as no conversion. *)
Module Conv.

Local Open Scope string_scope.

(** [std::isspace] in the C locale *)
Definition isspace (c : ascii) : bool :=
  let n := nat_of_ascii c in
  (n =? 32)%nat || ((9 <=? n)%nat && (n <=? 13)%nat).

Fixpoint skip (s : string) : string :=
  match s with
  | String c s' => if isspace c then skip s' else s
  | EmptyString => s
  end.

Definition sign (s : string) : bool * string :=
  match s with
  | String "-" s' => (true, s')
  | String "+" s' => (false, s')
  | _ => (false, s)
  end.

Definition digit (c : ascii) : option Z :=
  let n := nat_of_ascii c in
  if (48 <=? n)%nat && (n <=? 57)%nat then Some (Z.of_nat n - 48)%Z
  else None.

(** The digits at the head of [s], after the digits [acc]: their value,
    their number and the rest of [s]. *)
Fixpoint digits (s : string) (acc : Z) (count : nat) : Z * nat * string :=
  match s with
  | String c s' =>
      match digit c with
      | Some d => digits s' (10 * acc + d)%Z (S count)
      | None => (acc, count, s)
      end
  | EmptyString => (acc, count, s)
  end.

Definition lower (c : ascii) : ascii :=
  let n := nat_of_ascii c in
  if (65 <=? n)%nat && (n <=? 90)%nat then ascii_of_nat (n + 32) else c.

Fixpoint lowercase (s : string) : string :=
  match s with
  | String c s' => String (lower c) (lowercase s')
  | EmptyString => s
  end.

(** The exponent part at the head of [s], or 0. *)
Definition exponent (s : string) : Z :=
  match s with
  | String c s' =>
      if Ascii.eqb (lower c) "e" then
        let '(neg, s'') := sign s' in
        let '(e, n, _) := digits s'' 0 0 in
        if (n =? 0)%nat then 0%Z else if neg then (- e)%Z else e
      else 0%Z
  | EmptyString => 0%Z
  end.

(** Whether the double [v] is the number [m * 10^e]. *)
Definition exact (v : float) (m e : Z) : bool :=
  match Prim2SF v with
  | S754_zero _ => (m =? 0)%Z
  | S754_finite _ M E =>
      (m * 10 ^ Z.max e 0 * 2 ^ Z.max (- E) 0
       =? Zpos M * 2 ^ Z.max E 0 * 10 ^ Z.max (- e) 0)%Z
  | _ => false
  end.

(** A result beyond the doubles, or a rounded result below the normal
    doubles: [strtod] reports a range error. *)
Definition range_error (v : float) (m e : Z) : bool :=
  match Prim2SF v with
  | S754_infinity _ => true
  | S754_zero _ => negb (m =? 0)%Z
  | S754_finite _ M E =>
      (Zpos M <? 2 ^ 52)%Z && negb (exact v m e)
  | S754_nan => false
  end.

Definition stod (s : string) : run float :=
  let '(neg, s) := sign (skip s) in
  let sg (v : float) := if neg then PrimFloat.opp v else v in
  if prefix "inf" (lowercase s) then Done (sg infinity)
  else if prefix "nan" (lowercase s) then Done nan
  else if prefix "0x" (lowercase s) then Raised invalid_argument
  else
    let '(m, ni, s1) := digits s 0 0 in
    let '(m, nf, s2) :=
      match s1 with
      | String "." s' => digits s' m 0
      | _ => (m, 0%nat, s1)
      end in
    if (ni + nf =? 0)%nat then Raised invalid_argument
    else
      let e := (exponent s2 - Z.of_nat nf)%Z in
      let v := F64.of_dec m e in
      if range_error v m e then Raised out_of_range else Done (sg v).

(** [std::stoi] in base 10; [int] has 32 bits. *)
Definition stoi (s : string) : run Z :=
  let '(neg, s) := sign (skip s) in
  let '(n, count, _) := digits s 0 0 in
  if (count =? 0)%nat then Raised invalid_argument
  else
    let v := if neg then (- n)%Z else n in
    if (v <? - 2 ^ 31)%Z || (2 ^ 31 - 1 <? v)%Z then Raised out_of_range
    else Done v.

End Conv.

(** ** Notions for the properties of the printers and of the walks *)

Section TextNotions.

Local Open Scope string_scope.

(** Every character of [s] satisfies [P]. *)
Definition all (P : ascii -> bool) (s : string) : bool :=
  forallb P (list_ascii_of_string s).

(** The characters of a number as the program prints it: digits, point,
    sign, and the letters of inf and nan. *)
Definition cell_char (c : ascii) : bool :=
  let n := nat_of_ascii c in
  ((48 <=? n)%nat && (n <=? 57)%nat)
  || Ascii.eqb c "." || Ascii.eqb c "-"
  || Ascii.eqb c "i" || Ascii.eqb c "n" || Ascii.eqb c "f" || Ascii.eqb c "a".

(** The four strings of a record. *)
Definition cells (v : stepValues float) : list string :=
  [Text.x v; Text.y v; Text.yp v; Text.dy v].

(** A character that no number holds. *)
Definition separator (c : ascii) : Prop :=
  cell_char c = false /\ c <> " "%char.

(** The text of the lines [ls], each ended by a newline. *)
Definition unlines (ls : list string) : string :=
  concat "" (map (fun l => (l ++ Text.nl)%string) ls).

(** The line of the segment from the point [(x0, y0)] to [(x1, y1)]. *)
Definition segment_text (p : nat) (x0 y0 x1 y1 : float) : string :=
  Text.fixed p x0 ++ "," ++ Text.fixed p y0 ++ "," ++
  Text.fixed p x1 ++ "," ++ Text.fixed p y1.

(** The table of the formula x from 0 to 1 by 0.5 at precision 1. *)
Definition table3 : list (stepValues float) :=
  [mkStepValues (F64.of_Z 0) (F64.of_Z 1) (F64.of_Z 0) (F64.of_Z 0) 1;
   mkStepValues (F64.of_dec 5 (-1)) (F64.of_Z 1) (F64.of_dec 5 (-1))
     (F64.of_dec 3 (-1)) 1;
   mkStepValues (F64.of_Z 1) (F64.of_dec 13 (-1)) (F64.of_Z 1)
     (F64.of_dec 5 (-1)) 1].

End TextNotions.

(** An item is the line of a field segment. *)
Definition is_segment {D : Type} (t : tikz D) : Prop :=
  match t with FieldSegment _ _ _ _ => True | _ => False end.

(** The states an overlay can be in when its step is a zero, [rx] and
    [ry] being the rounded start of the curve: x is [rx] or a zero like
    it, y is [ry], a zero like it or no number. *)
Definition stalled (rx ry x y : float) : Prop :=
  (x = rx \/
   exists s s', Prim2SF rx = S754_zero s /\ Prim2SF x = S754_zero s') /\
  (y = ry \/
   (exists s s', Prim2SF ry = S754_zero s /\ Prim2SF y = S754_zero s') \/
   Prim2SF y = S754_nan).

(** ** Laws of the comparisons *)

(** What the proofs use of [<], [<=] and [==]; both instances have them
    (on binary64 also in the presence of NaN). *)
Class ArithLaws (D : Type) {AD : Arith D} : Prop := {
  deq_not_dlt : forall a b : D, deq a b = true -> dlt b a = false;
  dle_inv : forall a b : D, dle a b = true -> dlt a b = true \/ deq a b = true;
  dlt_dle : forall a b : D, dlt a b = true -> dle a b = true;
  deq_dle : forall a b : D, deq a b = true -> dle a b = true
}.

Arguments ArithLaws D {AD}.

(** ** The precision rounder over the exact reals *)

Section RounderExact.

Local Open Scope R_scope.

Lemma Int_part_IZR_half (n : Z) : Int_part (IZR n + / 2) = n.
Proof.
  unfold Int_part.
  assert (H : (n + 1)%Z = up (IZR n + / 2)).
  { apply tech_up; rewrite plus_IZR; lra. }
  rewrite <- H. lia.
Qed.

Lemma round_IZR (n : Z) : Exact.round (IZR n) = IZR n.
Proof.
  unfold Exact.round. destruct (Rle_dec 0 (IZR n)) as [_ | _].
  - now rewrite Int_part_IZR_half.
  - rewrite <- (opp_IZR n), Int_part_IZR_half, opp_IZR. lra.
Qed.

Lemma round_is_IZR (v : R) : exists n : Z, Exact.round v = IZR n.
Proof.
  unfold Exact.round. destruct (Rle_dec 0 v).
  - eexists; reflexivity.
  - eexists; rewrite <- opp_IZR; reflexivity.
Qed.

Lemma pow10_neq_0 (p : Z) : Exact.pow10 p <> 0.
Proof. unfold Exact.pow10. apply powerRZ_NOR. lra. Qed.

(** A value with [p] decimals is left as it is. *)
Lemma roundToPrecision_decimal (n p : Z) :
  roundToPrecision (IZR n / Exact.pow10 p) p = IZR n / Exact.pow10 p.
Proof.
  unfold roundToPrecision; cbn.
  replace (IZR n / Exact.pow10 p * Exact.pow10 p) with (IZR n).
  - now rewrite round_IZR.
  - field. apply pow10_neq_0.
Qed.

Lemma roundToPrecision_is_decimal (v : R) (p : Z) :
  exists n : Z, roundToPrecision v p = IZR n / Exact.pow10 p.
Proof.
  unfold roundToPrecision; cbn.
  destruct (round_is_IZR (v * Exact.pow10 p)) as [n ->]. now exists n.
Qed.

(** Over the exact reals the rounder is idempotent, at every value and
    every precision. *)
Lemma roundToPrecision_idempotent_exact (v : R) (p : Z) :
  roundToPrecision (roundToPrecision v p) p = roundToPrecision v p.
Proof.
  destruct (roundToPrecision_is_decimal v p) as [n Hn].
  rewrite Hn. apply roundToPrecision_decimal.
Qed.

End RounderExact.

(** ** The comparisons of both instances *)

Lemma SFeqb_not_SFltb (a b : spec_float) :
  SFeqb a b = true -> SFltb b a = false.
Proof.
  unfold SFeqb, SFltb.
  destruct a as [sa | sa | | sa ma ea], b as [sb | sb | | sb mb eb]; cbn;
    try discriminate; try reflexivity;
    try (destruct sa; discriminate); try (destruct sb; discriminate);
    try (destruct sa, sb; (discriminate || reflexivity)).
  rewrite (Z.compare_antisym ea eb).
  pose proof (Pos.compare_cont_antisym ma mb Eq) as Hanti; cbn in Hanti.
  destruct sa, sb; try discriminate;
    destruct (ea ?= eb)%Z; cbn; try discriminate;
    rewrite <- Hanti;
    destruct (Pos.compare_cont Eq ma mb); cbn; (discriminate || reflexivity).
Qed.

Lemma SFleb_inv (a b : spec_float) :
  SFleb a b = true -> SFltb a b = true \/ SFeqb a b = true.
Proof.
  unfold SFleb, SFltb, SFeqb.
  destruct (SFcompare a b) as [[ | | ] | ]; auto; discriminate.
Qed.

Lemma SFltb_SFleb (a b : spec_float) : SFltb a b = true -> SFleb a b = true.
Proof.
  unfold SFleb, SFltb.
  destruct (SFcompare a b) as [[ | | ] | ]; auto; discriminate.
Qed.

Lemma SFeqb_SFleb (a b : spec_float) : SFeqb a b = true -> SFleb a b = true.
Proof.
  unfold SFleb, SFeqb.
  destruct (SFcompare a b) as [[ | | ] | ]; auto; discriminate.
Qed.

#[export] Instance float_laws : ArithLaws float.
Proof.
  split; cbn; intros a b.
  - rewrite eqb_spec, ltb_spec. apply SFeqb_not_SFltb.
  - rewrite leb_spec, ltb_spec, eqb_spec. apply SFleb_inv.
  - rewrite leb_spec, ltb_spec. apply SFltb_SFleb.
  - rewrite leb_spec, eqb_spec. apply SFeqb_SFleb.
Qed.

#[export] Instance real_laws : ArithLaws R.
Proof.
  split; cbn; intros a b; unfold Exact.eqb, Exact.ltb, Exact.leb.
  - destruct (Req_dec_T a b), (Rlt_dec b a); try reflexivity; try discriminate.
    lra.
  - destruct (Rle_dec a b), (Rlt_dec a b), (Req_dec_T a b); auto;
      try discriminate. lra.
  - destruct (Rlt_dec a b), (Rle_dec a b); try reflexivity; try discriminate.
    lra.
  - destruct (Req_dec_T a b), (Rle_dec a b); try reflexivity;
      try discriminate. lra.
Qed.

(** ** The precision rounder on binary64 *)

(** The operations of binary64 round their exact result to 53 bits.  The
    lemmas below follow [SpecFloat]'s rounding on normal numbers: the
    quotient [n / 10^p] and its product with [10^p] each carry a relative
    error of at most 2^-53, which leaves the product within half a unit of
    the integer [n] as long as [n] is at most 2^50. *)
Section Binary64.

Local Open Scope Z_scope.

Lemma digits2_pos_size p : digits2_pos p = Pos.size p.
Proof. induction p; cbn; congruence. Qed.

Lemma digits2_bounds p :
  2 ^ (Zpos (digits2_pos p) - 1) <= Zpos p < 2 ^ Zpos (digits2_pos p).
Proof.
  rewrite digits2_pos_size. split.
  - pose proof (Pos.size_le p) as H.
    assert (H' : (Zpos (2 ^ Pos.size p) <= Zpos p~0)) by exact H.
    rewrite Pos2Z.inj_pow in H'.
    replace (Zpos (Pos.size p)) with (Zpos (Pos.size p) - 1 + 1) in H' by lia.
    rewrite Z.pow_add_r in H' by lia. lia.
  - pose proof (Pos.size_gt p) as H.
    assert (H' : (Zpos p < Zpos (2 ^ Pos.size p))) by exact H.
    now rewrite Pos2Z.inj_pow in H'.
Qed.

Lemma digits2_unique p d :
  2 ^ (d - 1) <= Zpos p < 2 ^ d -> Zpos (digits2_pos p) = d.
Proof.
  intros [Hlo Hhi]. pose proof (digits2_bounds p) as [Hlo' Hhi'].
  assert (0 < d) by (destruct d; try lia; cbn in Hhi; lia).
  destruct (Z.lt_trichotomy (Zpos (digits2_pos p)) d) as [Hlt | [Heq | Hgt]];
    [| exact Heq |].
  - assert (2 ^ Zpos (digits2_pos p) <= 2 ^ (d - 1))
      by (apply Z.pow_le_mono_r; lia). lia.
  - assert (2 ^ d <= 2 ^ (Zpos (digits2_pos p) - 1))
      by (apply Z.pow_le_mono_r; lia). lia.
Qed.

(** shr_1 on a non-negative mantissa *)
Lemma shr_1_nonneg m r s :
  0 <= m ->
  shr_1 (Build_shr_record m r s) = Build_shr_record (m / 2) (Z.odd m) (r || s).
Proof.
  intros Hm. destruct m as [| p | p]; [reflexivity | | lia].
  destruct p as [p | p |]; cbn [shr_1].
  - f_equal. rewrite Pos2Z.inj_xI. symmetry.
    rewrite Z.add_comm, Z.mul_comm, Z.div_add by lia. reflexivity.
  - f_equal. rewrite Pos2Z.inj_xO. symmetry.
    rewrite Z.mul_comm, Z.div_mul by lia. reflexivity.
  - reflexivity.
Qed.

Lemma iter_pos_nat (A : Type) (f : A -> A) p x :
  SpecFloat.iter_pos f p x = Nat.iter (Pos.to_nat p) f x.
Proof.
  revert x. induction p as [p IH | p IH |]; intros x; cbn [SpecFloat.iter_pos].
  - rewrite !IH, Pos2Nat.inj_xI. cbn [Nat.iter].
    rewrite <- Nat.iter_add, Nat.iter_succ_r. f_equal. lia.
  - rewrite !IH, Pos2Nat.inj_xO, <- Nat.iter_add. f_equal. lia.
  - reflexivity.
Qed.

Lemma mod_pow2_succ M k :
  0 <= k ->
  M mod 2 ^ (k + 1) = M mod 2 ^ k + 2 ^ k * ((M / 2 ^ k) mod 2).
Proof.
  intros Hk. rewrite Z.pow_add_r, Z.pow_1_r by lia.
  apply Z.rem_mul_r; [apply Z.pow_nonzero; lia | lia].
Qed.

Lemma shr_iter M k :
  0 <= M ->
  shr_inv M k (Nat.iter k shr_1 (Build_shr_record M false false)).
Proof.
  intros HM. induction k as [| k IH].
  - unfold shr_inv. cbn [Nat.iter shr_m shr_r shr_s Z.of_nat].
    rewrite Z.pow_0_r, Z.div_1_r. auto.
  - rewrite Nat.iter_succ. destruct (Nat.iter k shr_1 _) as [m r s].
    destruct IH as [Hm Hrs]. cbn [shr_m shr_r shr_s] in *.
    assert (Hm0 : 0 <= m) by (subst m; apply Z.div_pos; lia).
    rewrite shr_1_nonneg by exact Hm0.
    unfold shr_inv. cbn [shr_m shr_r shr_s]. split; [| split].
    + subst m. rewrite Z.div_div by lia.
      f_equal. rewrite Nat2Z.inj_succ, Z.pow_succ_r by lia. lia.
    + now subst m.
    + destruct k as [| k'].
      * destruct Hrs as [-> ->]. cbn. rewrite Z.mod_1_r.
        split; [discriminate | congruence].
      * destruct Hrs as [Hr Hs].
        rewrite (Nat2Z.inj_succ k'), <- Z.add_1_r, mod_pow2_succ by lia.
        assert (Hp : 0 < 2 ^ Z.of_nat k') by (apply Z.pow_pos_nonneg; lia).
        pose proof (Z.mod_pos_bound M (2 ^ Z.of_nat k') Hp) as Hb.
        rewrite Zmod_odd, <- Hr.
        destruct (Z.eq_dec (M mod 2 ^ Z.of_nat k') 0) as [E | E].
        -- destruct r, s; cbn; split; intros H; try reflexivity;
             try discriminate; try lia;
             try (assert (Hs' : M mod 2 ^ Z.of_nat k' <> 0)
                    by (now apply Hs); lia).
        -- apply Hs in E. subst s.
           destruct r; cbn; split; intros H; try reflexivity; lia.
Qed.

(** Rounding the shifted mantissa to nearest: at most half a unit away. *)
Lemma round_nearest_inv M k mrs :
  0 <= M -> shr_inv M k mrs ->
  let m2 := round_nearest_even (shr_m mrs) (loc_of_shr_record mrs) in
  (m2 = M / 2 ^ Z.of_nat k \/ m2 = M / 2 ^ Z.of_nat k + 1) /\
  2 * Z.abs (m2 * 2 ^ Z.of_nat k - M) <= 2 ^ Z.of_nat k.
Proof.
  intros HM [Hm Hrs]. destruct mrs as [m r s]. cbn [shr_m shr_r shr_s] in *.
  destruct k as [| k'].
  - destruct Hrs as [-> ->]. cbn -[Z.mul Z.pow].
    rewrite Z.pow_0_r, Z.div_1_r in *. subst m. split; [auto | lia].
  - destruct Hrs as [Hr Hs].
    set (a := 2 ^ Z.of_nat k') in *.
    assert (Ha : 0 < a) by (apply Z.pow_pos_nonneg; lia).
    assert (H2a : 2 ^ Z.of_nat (S k') = 2 * a).
    { rewrite Nat2Z.inj_succ, Z.pow_succ_r by lia. reflexivity. }
    rewrite H2a in *.
    pose proof (Z.div_mod M (2 * a) ltac:(lia)) as Hdm.
    pose proof (Z.rem_mul_r M a 2 ltac:(lia) ltac:(lia)) as Hrem.
    rewrite (Z.mul_comm a 2) in Hrem.
    rewrite Zmod_odd, <- Hr in Hrem.
    pose proof (Z.mod_pos_bound M a Ha) as Hb.
    rewrite <- Hm in *.
    destruct (Z.eq_dec (M mod a) 0) as [E | E].
    + assert (s = false).
      { destruct s; [| reflexivity]. exfalso. now apply (proj1 Hs). }
      subst s. destruct r; cbn -[Z.mul].
      * destruct (Z.even m); split; auto; lia.
      * split; [auto | lia].
    + apply Hs in E as Es. subst s. destruct r; cbn -[Z.mul]; split; auto; lia.
Qed.

Lemma fexp64 x : fexp 53 1024 x = Z.max (x - 53) (-1074).
Proof. reflexivity. Qed.

Lemma shr_fexp_shift m e l j :
  Zdigits2 m = 53 + j -> 0 <= j -> -1074 <= e + j ->
  shr_fexp 53 1024 m e l =
  (Nat.iter (Z.to_nat j) shr_1 (shr_record_of_loc m l), e + j).
Proof.
  intros Hd Hj He. unfold shr_fexp, shr. rewrite Hd, fexp64.
  replace (Z.max (53 + j + e - 53) (-1074) - e) with j by lia.
  destruct j as [| p | p]; [| | lia].
  - cbn. f_equal. lia.
  - now rewrite iter_pos_nat.
Qed.

Lemma Zdigits2_pos_unique m d :
  2 ^ (d - 1) <= m < 2 ^ d -> 0 < d -> Zdigits2 m = d.
Proof.
  intros H Hd. destruct m as [| p | p].
  - assert (0 < 2 ^ (d - 1)) by (apply Z.pow_pos_nonneg; lia). lia.
  - cbn. now apply digits2_unique.
  - assert (0 < 2 ^ (d - 1)) by (apply Z.pow_pos_nonneg; lia). lia.
Qed.

(** The second phase: a rounded mantissa in [2^52, 2^53] is renormalised. *)
Lemma round_aux_finish (s : bool) m2 e' :
  2 ^ 52 <= m2 <= 2 ^ 53 -> -1074 <= e' -> e' + 1 <= 971 ->
  exists m3 e3,
    (let '(mrs'', e'') := shr_fexp 53 1024 m2 e' loc_Exact in
     match shr_m mrs'' with
     | Z0 => S754_zero s
     | Zpos m => if e'' <=? 1024 - 53 then S754_finite s m e''
                 else S754_infinity s
     | Zneg _ => S754_nan
     end) = S754_finite s m3 e3 /\
    2 ^ 52 <= Zpos m3 < 2 ^ 53 /\
    e' <= e3 <= e' + 1 /\
    Zpos m3 * 2 ^ (e3 - e') = m2.
Proof.
  intros Hm He Hov.
  destruct (Z.eq_dec m2 (2 ^ 53)) as [-> | Hne].
  - rewrite (@shr_fexp_shift _ _ _ 1) by (cbn; lia).
    change (Z.to_nat 1) with 1%nat. cbn [Nat.iter nat_rect shr_record_of_loc].
    rewrite shr_1_nonneg by lia. cbn [shr_m].
    change (2 ^ 53 / 2) with (Zpos 4503599627370496).
    change (1024 - 53) with 971.
    replace (e' + 1 <=? 971) with true by (symmetry; apply Z.leb_le; lia).
    do 2 eexists. split; [reflexivity |].
    replace (e' + 1 - e') with 1 by lia. cbn. lia.
  - assert (Hd : Zdigits2 m2 = 53 + 0)
      by (apply Zdigits2_pos_unique; cbn; lia).
    rewrite (@shr_fexp_shift _ _ _ 0 Hd) by lia.
    change (Z.to_nat 0) with 0%nat. cbn [Nat.iter nat_rect shr_record_of_loc shr_m].
    destruct m2 as [| p | p]; try (cbn in Hm; lia).
    change (1024 - 53) with 971.
    replace (e' + 0 <=? 971) with true by (symmetry; apply Z.leb_le; lia).
    do 2 eexists. split; [reflexivity |].
    replace (e' + 0 - e') with 0 by lia. cbn in *. lia.
Qed.

(** Rounding an exact mantissa of [53 + j] digits. *)
Lemma round_aux_exact (s : bool) (M : positive) e j :
  Zpos (digits2_pos M) = 53 + j -> 0 <= j ->
  -1074 <= e + j -> e + j + 1 <= 971 ->
  exists m3 e3,
    binary_round_aux 53 1024 s (Zpos M) e loc_Exact = S754_finite s m3 e3 /\
    2 ^ 52 <= Zpos m3 < 2 ^ 53 /\
    e + j <= e3 <= e + j + 1 /\
    2 * Z.abs (Zpos m3 * 2 ^ (e3 - e) - Zpos M) <= 2 ^ j.
Proof.
  intros Hd Hj He Hov.
  assert (Hshr := @shr_fexp_shift (Zpos M) e loc_Exact j Hd Hj He).
  pose proof (@shr_iter (Zpos M) (Z.to_nat j) ltac:(lia)) as Hinv.
  cbn [shr_record_of_loc] in Hshr.
  set (mrs := Nat.iter (Z.to_nat j) shr_1 _) in *.
  pose proof (@round_nearest_inv (Zpos M) (Z.to_nat j) mrs ltac:(lia) Hinv)
    as [Hm2 Herr].
  rewrite Z2Nat.id in * by lia.
  set (m2 := round_nearest_even (shr_m mrs) (loc_of_shr_record mrs)) in *.
  pose proof (digits2_bounds M) as [Hlo Hhi]. rewrite Hd in Hlo, Hhi.
  assert (Hpj : 0 < 2 ^ j) by (apply Z.pow_pos_nonneg; lia).
  assert (Hq : 2 ^ 52 <= Zpos M / 2 ^ j < 2 ^ 53).
  { replace (53 + j - 1) with (52 + j) in Hlo by lia.
    rewrite Z.pow_add_r in Hlo, Hhi by lia. split.
    - apply Z.div_le_lower_bound; lia.
    - apply Z.div_lt_upper_bound; lia. }
  destruct (@round_aux_finish s m2 (e + j))
    as (m3 & e3 & Hres & Hm3 & He3 & Hval); [lia | lia | lia |].
  exists m3, e3. split.
  { unfold binary_round_aux. rewrite Hshr. exact Hres. }
  split; [exact Hm3 |]. split; [exact He3 |].
  replace (e3 - e) with ((e3 - (e + j)) + j) by lia.
  rewrite Z.pow_add_r by lia. rewrite Z.mul_assoc, Hval. exact Herr.
Qed.

(** Location of a remainder of a division. *)
Lemma new_location_spec nb k :
  0 < nb -> 0 <= k < nb ->
  match new_location nb k with
  | loc_Exact => k = 0
  | loc_Inexact Lt => 0 < 2 * k < nb
  | loc_Inexact Eq => 2 * k = nb
  | loc_Inexact Gt => nb < 2 * k
  end.
Proof.
  intros Hnb Hk. unfold new_location, new_location_even, new_location_odd.
  destruct (Z.even nb) eqn:Ev.
  - destruct (Z.eqb_spec k 0) as [E | E]; [exact E |].
    destruct (Z.compare_spec (2 * k) nb); lia.
  - destruct (Z.eqb_spec k 0) as [E | E]; [exact E |].
    assert (Hodd : nb mod 2 = 1).
    { rewrite Zmod_odd, <- Z.negb_even, Ev. reflexivity. }
    pose proof (Z.div_mod nb 2 ltac:(lia)) as Hdm.
    destruct (Z.compare_spec (2 * k + 1) nb); lia.
Qed.

(** Rounding a quotient [q + r/d] with its location, [q] of 53 or 54
    digits. *)
Lemma round_aux_quotient (s : bool) q r d e :
  2 ^ 52 <= q < 2 ^ 54 -> 0 < d -> 0 <= r < d ->
  -1074 <= e -> e + 2 <= 971 ->
  exists m3 e3,
    binary_round_aux 53 1024 s q e (new_location d r) = S754_finite s m3 e3 /\
    2 ^ 52 <= Zpos m3 < 2 ^ 53 /\
    e <= e3 <= e + 2 /\
    2 * Z.abs (Zpos m3 * 2 ^ (e3 - e) * d - (q * d + r)) <= 2 ^ (e3 - e) * d.
Proof.
  intros Hq Hd Hr He Hov.
  pose proof (new_location_spec Hd Hr) as Hloc.
  destruct (Z_lt_le_dec q (2 ^ 53)) as [Hlt | Hge].
  - (* 53 digits: no shift *)
    assert (Hdig : Zdigits2 q = 53 + 0)
      by (apply Zdigits2_pos_unique; cbn; lia).
    assert (Hshr := @shr_fexp_shift q e (new_location d r) 0 Hdig
                      ltac:(lia) ltac:(lia)).
    change (Z.to_nat 0) with 0%nat in Hshr. cbn [Nat.iter nat_rect] in Hshr.
    set (m2 := round_nearest_even q (new_location d r)).
    assert (Hm2 : (m2 = q \/ m2 = q + 1) /\
                  2 * Z.abs (m2 * d - (q * d + r)) <= d).
    { unfold m2. destruct (new_location d r) as [| []]; cbn -[Z.mul];
        try (destruct (Z.even q)); split; auto; nia. }
    destruct Hm2 as [Hm2 Herr].
    destruct (@round_aux_finish s m2 (e + 0))
      as (m3 & e3 & Hres & Hm3 & He3 & Hval); [lia | lia | lia |].
    exists m3, e3. split.
    { unfold binary_round_aux. rewrite Hshr.
      replace (loc_of_shr_record (shr_record_of_loc q (new_location d r)))
        with (new_location d r) by (destruct (new_location d r) as [| []]; reflexivity).
      replace (shr_m (shr_record_of_loc q (new_location d r))) with q
        by (destruct (new_location d r) as [| []]; reflexivity).
      exact Hres. }
    split; [exact Hm3 |]. split; [lia |].
    replace (e3 - e) with (e3 - (e + 0)) by lia. rewrite Hval.
    assert (0 < 2 ^ (e3 - (e + 0))) by (apply Z.pow_pos_nonneg; lia).
    nia.
  - (* 54 digits: one shift *)
    assert (Hdig : Zdigits2 q = 53 + 1)
      by (apply Zdigits2_pos_unique; cbn; lia).
    assert (Hshr := @shr_fexp_shift q e (new_location d r) 1 Hdig
                      ltac:(lia) ltac:(lia)).
    change (Z.to_nat 1) with 1%nat in Hshr. cbn [Nat.iter nat_rect] in Hshr.
    set (mrs := shr_1 (shr_record_of_loc q (new_location d r))) in *.
    set (m2 := round_nearest_even (shr_m mrs) (loc_of_shr_record mrs)).
    pose proof (Z.div_mod q 2 ltac:(lia)) as Hdm.
    pose proof (Zmod_odd q) as Hodd.
    assert (Hm2 : (m2 = q / 2 \/ m2 = q / 2 + 1) /\
                  2 * Z.abs (m2 * 2 * d - (q * d + r)) <= 2 * d).
    { unfold m2, mrs. destruct (new_location d r) as [| []];
        cbn [shr_record_of_loc]; rewrite shr_1_nonneg by lia;
        cbn [shr_m loc_of_shr_record orb];
        destruct (Z.odd q); cbn -[Z.mul Z.div];
        try (destruct (Z.even (q / 2))); split; auto; nia. }
    destruct Hm2 as [Hm2 Herr].
    assert (Hq2 : 2 ^ 52 <= q / 2 < 2 ^ 53).
    { pose proof (Z.mod_pos_bound q 2 ltac:(lia)). lia. }
    destruct (@round_aux_finish s m2 (e + 1))
      as (m3 & e3 & Hres & Hm3 & He3 & Hval); [lia | lia | lia |].
    exists m3, e3. split.
    { unfold binary_round_aux. rewrite Hshr. exact Hres. }
    split; [exact Hm3 |]. split; [lia |].
    replace (e3 - e) with ((e3 - (e + 1)) + 1) by lia.
    rewrite Z.pow_add_r, Z.pow_1_r by lia.
    rewrite (Z.mul_assoc (Zpos m3)), Hval.
    assert (0 < 2 ^ (e3 - (e + 1))) by (apply Z.pow_pos_nonneg; lia).
    nia.
Qed.

Lemma normal53_digits m : normal53 m -> Zpos (digits2_pos m) = 53.
Proof. intros H. apply digits2_unique. exact H. Qed.

Lemma div_eucl_div_mod a b : Z.div_eucl a b = (a / b, a mod b).
Proof. unfold Z.div, Z.modulo. now destruct (Z.div_eucl a b). Qed.

Lemma SFdiv_finite sx mx ex sy my ey :
  normal53 mx -> normal53 my ->
  -1074 <= ex - ey - 53 -> ex - ey - 51 <= 971 ->
  exists m3 e3,
    SFdiv 53 1024 (S754_finite sx mx ex) (S754_finite sy my ey) =
      S754_finite (xorb sx sy) m3 e3 /\
    normal53 m3 /\
    ex - ey - 53 <= e3 <= ex - ey - 51 /\
    2 * Z.abs (Zpos m3 * 2 ^ (e3 - (ex - ey - 53)) * Zpos my
               - Zpos mx * 2 ^ 53)
    <= 2 ^ (e3 - (ex - ey - 53)) * Zpos my.
Proof.
  intros Hx Hy Hlo Hhi.
  assert (Hcore :
    SFdiv_core_binary 53 1024 (Zpos mx) ex (Zpos my) ey =
    (Zpos mx * 2 ^ 53 / Zpos my, ex - ey - 53,
     new_location (Zpos my) ((Zpos mx * 2 ^ 53) mod Zpos my))).
  { unfold SFdiv_core_binary. cbn [Zdigits2].
    rewrite (normal53_digits Hx), (normal53_digits Hy), fexp64.
    replace (Z.min (Z.max (53 + ex - (53 + ey) - 53) (-1074)) (ex - ey))
      with (ex - ey - 53) by lia.
    replace (ex - ey - (ex - ey - 53)) with 53 by lia.
    rewrite Z.shiftl_mul_pow2 by lia. now rewrite div_eucl_div_mod. }
  set (q := Zpos mx * 2 ^ 53 / Zpos my) in *.
  set (r := (Zpos mx * 2 ^ 53) mod Zpos my) in *.
  pose proof (Z.div_mod (Zpos mx * 2 ^ 53) (Zpos my) ltac:(lia)) as Hdm.
  fold q r in Hdm.
  pose proof (Z.mod_pos_bound (Zpos mx * 2 ^ 53) (Zpos my) ltac:(lia)) as Hr.
  fold r in Hr. unfold normal53 in Hx, Hy.
  assert (Hq : 2 ^ 52 <= q < 2 ^ 54).
  { split.
    - apply Z.div_le_lower_bound; [lia |]. nia.
    - apply Z.div_lt_upper_bound; [lia |]. nia. }
  destruct (@round_aux_quotient (xorb sx sy) q r (Zpos my) (ex - ey - 53))
    as (m3 & e3 & Hres & Hm3 & He3 & Herr); try lia.
  exists m3, e3. split.
  { unfold SFdiv. rewrite Hcore. exact Hres. }
  split; [exact Hm3 |]. split; [lia |].
  rewrite Hdm, (Z.mul_comm (Zpos my) q). exact Herr.
Qed.

Lemma SFmul_finite sx mx ex sy my ey :
  normal53 mx -> normal53 my ->
  -1074 <= ex + ey + 52 -> ex + ey + 54 <= 971 ->
  exists m3 e3,
    SFmul 53 1024 (S754_finite sx mx ex) (S754_finite sy my ey) =
      S754_finite (xorb sx sy) m3 e3 /\
    normal53 m3 /\
    ex + ey + 52 <= e3 <= ex + ey + 54 /\
    2 * Z.abs (Zpos m3 * 2 ^ (e3 - (ex + ey)) - Zpos mx * Zpos my)
    <= 2 ^ (e3 - (ex + ey)).
Proof.
  intros Hx Hy Hlo Hhi. unfold normal53 in Hx, Hy.
  assert (HM : 2 ^ 104 <= Zpos (mx * my) < 2 ^ 106).
  { rewrite Pos2Z.inj_mul.
    change (2 ^ 104) with (2 ^ 52 * 2 ^ 52).
    change (2 ^ 106) with (2 ^ 53 * 2 ^ 53). nia. }
  assert (Hj : exists j, (j = 52 \/ j = 53) /\
                         Zpos (digits2_pos (mx * my)) = 53 + j).
  { destruct (Z_lt_le_dec (Zpos (mx * my)) (2 ^ 105)).
    - exists 52. split; [auto |]. apply digits2_unique. cbn -[Z.pow]. lia.
    - exists 53. split; [auto |]. apply digits2_unique. cbn -[Z.pow]. lia. }
  destruct Hj as (j & Hj & Hd).
  destruct (@round_aux_exact (xorb sx sy) (mx * my) (ex + ey) j Hd)
    as (m3 & e3 & Hres & Hm3 & He3 & Herr); try lia.
  exists m3, e3. split; [exact Hres |]. split; [exact Hm3 |].
  split; [lia |]. rewrite <- Pos2Z.inj_mul.
  assert (2 ^ j <= 2 ^ (e3 - (ex + ey))) by (apply Z.pow_le_mono_r; lia).
  lia.
Qed.

Lemma Pos_iter_xO p k : Zpos (Pos.iter xO p k) = Zpos p * 2 ^ Zpos k.
Proof.
  induction k as [| k IH] using Pos.peano_ind.
  - cbn. lia.
  - rewrite Pos.iter_succ, Pos2Z.inj_xO, IH, Pos2Z.inj_succ.
    rewrite Z.pow_succ_r by lia. lia.
Qed.

(** A normal mantissa with an exponent in range is a valid binary64. *)
Lemma valid_normal s m e :
  normal53 m -> -1074 <= e <= 971 ->
  valid_binary (S754_finite s m e) = true.
Proof.
  intros Hm He.
  unfold SpecFloat.valid_binary, SpecFloat.bounded,
    SpecFloat.canonical_mantissa.
  change prec with 53. change emax with 1024.
  rewrite (normal53_digits Hm), fexp64.
  apply andb_true_intro. split.
  - apply Z.eqb_eq. lia.
  - apply Z.leb_le. cbn. lia.
Qed.

(** Integers below 2^53 are represented exactly. *)
Lemma normalize_int N :
  1 <= N < 2 ^ 53 ->
  exists m e,
    binary_normalize 53 1024 N 0 false = S754_finite false m e /\
    normal53 m /\ -52 <= e <= 0 /\ Zpos m = N * 2 ^ (- e).
Proof.
  intros HN. destruct N as [| p | p]; try lia.
  unfold binary_normalize, binary_round.
  pose proof (digits2_bounds p) as Hd.
  set (d := Zpos (digits2_pos p)) in *.
  assert (Hd53 : 1 <= d <= 53).
  { split; [unfold d; lia |].
    destruct (Z_le_gt_dec d 53) as [H | H]; [exact H |]. exfalso.
    assert (2 ^ 53 <= 2 ^ (d - 1)) by (apply Z.pow_le_mono_r; lia). lia. }
  rewrite fexp64. replace (Z.max (d + 0 - 53) (-1074)) with (d - 53) by lia.
  assert (Hal : exists mz,
    shl_align p 0 (d - 53) = (mz, d - 53) /\ Zpos mz = Zpos p * 2 ^ (53 - d)).
  { unfold shl_align. destruct (d - 53 - 0) as [| k | k] eqn:E; try lia.
    - exists p. replace (d - 53) with 0 by lia. split; [reflexivity |].
      replace (53 - d) with 0 by lia. lia.
    - exists (Pos.iter xO p k). split; [reflexivity |].
      rewrite Pos_iter_xO. f_equal. f_equal. lia. }
  destruct Hal as (mz & -> & Hmz).
  assert (Hnz : normal53 mz).
  { unfold normal53. rewrite Hmz.
    assert (Hp : 0 < 2 ^ (53 - d)) by (apply Z.pow_pos_nonneg; lia).
    assert (E52 : 2 ^ 52 = 2 ^ (d - 1) * 2 ^ (53 - d))
      by (rewrite <- Z.pow_add_r by lia; f_equal; lia).
    assert (E53 : 2 ^ 53 = 2 ^ d * 2 ^ (53 - d))
      by (rewrite <- Z.pow_add_r by lia; f_equal; lia).
    rewrite E52, E53. nia. }
  destruct (@round_aux_exact false mz (d - 53) 0 (normal53_digits Hnz))
    as (m3 & e3 & Hres & Hm3 & He3 & Herr); try lia.
  exists m3, e3. split; [exact Hres |]. split; [exact Hm3 |].
  unfold normal53 in *.
  assert (He : e3 = d - 53).
  { destruct (Z.eq_dec e3 (d - 53)) as [E | E]; [exact E |].
    assert (e3 = d - 53 + 1) by lia. subst e3.
    replace (d - 53 + 1 - (d - 53)) with 1 in Herr by lia.
    change (2 ^ 0) with 1 in Herr. change (2 ^ 1) with 2 in Herr. lia. }
  subst e3. replace (d - 53 - (d - 53)) with 0 in Herr by lia.
  change (2 ^ 0) with 1 in Herr.
  split; [lia |]. replace (- (d - 53)) with (53 - d) by lia. lia.
Qed.

(** The two roundings of [N / S * S] stay within half a unit of [N]. *)
Lemma idem_arith N g my mr mw t u :
  1 <= N <= 2 ^ 50 -> 0 <= g -> 0 < my ->
  2 ^ 52 <= mr -> 2 ^ 52 <= mw ->
  0 <= t -> 0 <= u ->
  2 * Z.abs (mr * 2 ^ t * my - N * 2 ^ g * 2 ^ 53) <= 2 ^ t * my ->
  2 * Z.abs (mw * 2 ^ u - mr * my) <= 2 ^ u ->
  t + u < g + 53 /\
  (2 * N - 1) * 2 ^ (g + 53 - t - u) <= 2 * mw
    < (2 * N + 1) * 2 ^ (g + 53 - t - u).
Proof.
  intros HN Hg Hmy Hmr Hmw Ht Hu HD HM.
  set (G := 2 ^ g * 2 ^ 53) in *.
  assert (HG : 0 < G) by (unfold G; apply Z.mul_pos_pos; apply Z.pow_pos_nonneg; lia).
  assert (HT : 0 < 2 ^ t) by (apply Z.pow_pos_nonneg; lia).
  assert (HU : 0 < 2 ^ u) by (apply Z.pow_pos_nonneg; lia).
  set (Wt := mw * (2 ^ u * 2 ^ t)).
  set (At := mr * 2 ^ t * my).
  set (Xt := N * G).
  assert (H1 : 2 ^ 53 * Z.abs (At - Xt) <= At).
  { unfold At, Xt. replace (N * G) with (N * 2 ^ g * 2 ^ 53) by (unfold G; ring).
    assert (2 ^ 52 * (2 ^ t * my) <= mr * 2 ^ t * my) by nia.
    change (2 ^ 53) with (2 * 2 ^ 52) at 1. lia. }
  assert (H2 : 2 ^ 53 * Z.abs (Wt - At) <= Wt).
  { unfold Wt, At.
    replace (mw * (2 ^ u * 2 ^ t) - mr * 2 ^ t * my)
      with ((mw * 2 ^ u - mr * my) * 2 ^ t) by ring.
    rewrite Z.abs_mul, (Z.abs_eq (2 ^ t)) by lia.
    assert (2 ^ 52 * (2 ^ u * 2 ^ t) <= mw * (2 ^ u * 2 ^ t)) by nia.
    change (2 ^ 53) with (2 * 2 ^ 52) at 1. nia. }
  assert (H3 : Xt <= 2 ^ 50 * G) by (unfold Xt; nia).
  assert (H3' : G <= Xt) by (unfold Xt; nia).
  assert (Hclose : 2 * Xt - G <= 2 * Wt < 2 * Xt + G) by lia.
  assert (Hlt : t + u < g + 53).
  { destruct (Z_lt_le_dec (t + u) (g + 53)) as [H | H]; [exact H | exfalso].
    assert (G <= 2 ^ u * 2 ^ t).
    { unfold G. rewrite <- !Z.pow_add_r by lia. apply Z.pow_le_mono_r; lia. }
    assert (2 ^ 52 * G <= Wt) by (unfold Wt; nia). lia. }
  split; [exact Hlt |].
  set (d := 2 ^ (g + 53 - t - u)).
  assert (Hd : G = d * (2 ^ u * 2 ^ t)).
  { unfold G, d. rewrite <- !Z.pow_add_r by lia. f_equal. lia. }
  assert (HK : 0 < 2 ^ u * 2 ^ t) by lia.
  unfold Xt, Wt in Hclose. rewrite Hd in Hclose.
  split; nia.
Qed.

(** Rounding half away from zero a mantissa within half a unit of [N]. *)
Lemma round_half_away_unique N mw d :
  0 < d -> 1 <= N ->
  (2 * N - 1) * d <= 2 * mw < (2 * N + 1) * d ->
  (if d <=? 2 * (mw mod d) then mw / d + 1 else mw / d) = N.
Proof.
  intros Hd HN H.
  pose proof (Z.div_mod mw d ltac:(lia)) as Hdm.
  pose proof (Z.mod_pos_bound mw d Hd) as Hr.
  destruct (Z.leb_spec d (2 * (mw mod d))); nia.
Qed.

(** *** Primitive floats through their specification *)

Lemma of_Z_finite N :
  1 <= N < 2 ^ 53 ->
  exists m e,
    Prim2SF (F64.of_Z N) = S754_finite false m e /\
    normal53 m /\ -52 <= e <= 0 /\ Zpos m = N * 2 ^ (- e).
Proof.
  intros HN. destruct (normalize_int HN) as (m & e & Hres & Hm & He & Hv).
  exists m, e. split; [| auto]. unfold F64.of_Z.
  change prec with 53. change emax with 1024. rewrite Hres.
  apply Prim2SF_SF2Prim. apply valid_normal; [exact Hm | lia].
Qed.

Lemma Prim2SF_signed sg a m e :
  Prim2SF a = S754_finite false m e ->
  Prim2SF (signed sg a) = S754_finite sg m e.
Proof.
  intros H. destruct sg; cbn; [| exact H]. now rewrite opp_spec, H.
Qed.

Lemma Prim2SF_signed_zero sg :
  Prim2SF (signed sg (F64.of_Z 0)) = S754_zero sg.
Proof. destruct sg; vm_compute; reflexivity. Qed.

Lemma scales_normal :
  forallb (fun k => normal_scale (Prim2SF (F64.of_dec 1 (Z.of_nat k))))
    (seq 0 23) = true.
Proof. vm_compute. reflexivity. Qed.

Lemma scale_finite p :
  0 <= p <= 22 ->
  exists m e,
    Prim2SF (F64.of_dec 1 p) = S754_finite false m e /\
    normal53 m /\ -52 <= e <= 21.
Proof.
  intros Hp. pose proof scales_normal as H.
  rewrite forallb_forall in H. specialize (H (Z.to_nat p)).
  rewrite Z2Nat.id in H by lia.
  assert (Hin : In (Z.to_nat p) (seq 0 23)) by (apply in_seq; lia).
  apply H in Hin. clear H.
  destruct (Prim2SF (F64.of_dec 1 p)) as [| | | [] m e]; try discriminate.
  cbn -[Z.pow] in Hin. apply andb_prop in Hin. destruct Hin as [Hin H4].
  apply andb_prop in Hin. destruct Hin as [Hin H3].
  apply andb_prop in Hin. destruct Hin as [H1 H2].
  exists m, e. split; [reflexivity |]. unfold normal53.
  apply Z.leb_le in H1, H3, H4. apply Z.ltb_lt in H2. lia.
Qed.

Lemma valid_mantissa_bound m e :
  SpecFloat.bounded prec emax m e = true ->
  Zpos m < 2 ^ 53 /\ (-1074 < e -> 2 ^ 52 <= Zpos m).
Proof.
  unfold SpecFloat.bounded, SpecFloat.canonical_mantissa.
  change prec with 53. change emax with 1024. rewrite fexp64.
  intros H. apply andb_prop in H. destruct H as [H _].
  apply Z.eqb_eq in H. pose proof (digits2_bounds m) as [Hlo Hhi].
  set (d := Zpos (digits2_pos m)) in *. split.
  - assert (2 ^ d <= 2 ^ 53) by (apply Z.pow_le_mono_r; lia). lia.
  - intros He. assert (d = 53) by lia. replace (d - 1) with 52 in Hlo by lia.
    exact Hlo.
Qed.

(** A value below 2^50 in magnitude rounds to an integer of at most
    2^50, with its sign. *)
Lemma round_small w :
  PrimFloat.ltb (PrimFloat.abs w) (F64.of_Z (2 ^ 50)) = true ->
  exists sg N, 0 <= N <= 2 ^ 50 /\ F64.round w = signed sg (F64.of_Z N).
Proof.
  intros H. rewrite ltb_spec, abs_spec in H.
  replace (Prim2SF (F64.of_Z (2 ^ 50)))
    with (S754_finite false 4503599627370496 (-2)) in H
    by (vm_compute; reflexivity).
  pose proof (Prim2SF_valid w) as Hv.
  unfold F64.round.
  destruct (Prim2SF w) as [sg | sg | | sg m e] eqn:E.
  - exists sg, 0. split; [cbn; lia |].
    apply Prim2SF_inj. now rewrite E, Prim2SF_signed_zero.
  - discriminate.
  - discriminate.
  - cbn in Hv. apply valid_mantissa_bound in Hv. destruct Hv as [Hm53 Hm52].
    assert (He : e <= -3).
    { unfold SFltb, SFcompare, SFabs in H.
      destruct (Z.compare_spec e (-2)) as [E2 | E2 | E2]; try discriminate;
        [| lia].
      exfalso. specialize (Hm52 ltac:(lia)).
      rewrite Pos.compare_cont_spec in H.
      destruct (Pos.compare_spec m 4503599627370496) as [C | C | C];
        try discriminate.
      apply Pos2Z.pos_lt_pos in C.
      change (2 ^ 52) with (Zpos 4503599627370496) in Hm52. lia. }
    assert (E0 : (0 <=? e) = false).
    { apply Z.leb_gt. lia. }
    rewrite E0.
    set (d := 2 ^ (- e)).
    assert (Hd : 8 <= d).
    { unfold d. change 8 with (2 ^ 3). apply Z.pow_le_mono_r; lia. }
    pose proof (Z.div_mod (Zpos m) d ltac:(lia)) as Hdm.
    pose proof (Z.mod_pos_bound (Zpos m) d ltac:(lia)) as Hr.
    assert (Hq : 0 <= Zpos m / d < 2 ^ 50).
    { split; [apply Z.div_pos; lia |].
      apply Z.div_lt_upper_bound; [lia |].
      change (2 ^ 53) with (8 * 2 ^ 50) in Hm53. nia. }
    exists sg, (if d <=? 2 * (Zpos m mod d) then Zpos m / d + 1 else Zpos m / d).
    split; [destruct (d <=? 2 * (Zpos m mod d)); lia | reflexivity].
Qed.

(** The second rounding gives back the integer of the first. *)
Lemma round_div_mul sg N s mS eS :
  0 <= N <= 2 ^ 50 ->
  Prim2SF s = S754_finite false mS eS -> normal53 mS -> -52 <= eS <= 21 ->
  F64.round
    (PrimFloat.mul (PrimFloat.div (signed sg (F64.of_Z N)) s) s)
  = signed sg (F64.of_Z N).
Proof.
  intros HN Hs HmS HeS.
  destruct (Z.eq_dec N 0) as [-> | Hnz].
  - (* zero *)
    assert (Hw : Prim2SF (PrimFloat.mul
                            (PrimFloat.div (signed sg (F64.of_Z 0)) s) s)
                 = S754_zero sg).
    { rewrite mul_spec, div_spec, Prim2SF_signed_zero, Hs. cbn.
      now rewrite !xorb_false_r. }
    unfold F64.round. rewrite Hw. apply Prim2SF_inj.
    now rewrite Hw, Prim2SF_signed_zero.
  - destruct (@of_Z_finite N) as (mx & ex & Hx & Hnx & Hex & Hvx).
    { change (2 ^ 53) with (8 * 2 ^ 50). lia. }
    pose proof (Prim2SF_signed sg _ Hx) as Hn.
    destruct (@SFdiv_finite sg mx ex false mS eS Hnx HmS)
      as (mr & er & Hdiv & Hnr & Her & Herr1); try lia.
    rewrite xorb_false_r in Hdiv.
    assert (Hr : Prim2SF (PrimFloat.div (signed sg (F64.of_Z N)) s)
                 = S754_finite sg mr er).
    { rewrite div_spec, Hn, Hs. exact Hdiv. }
    destruct (@SFmul_finite sg mr er false mS eS Hnr HmS)
      as (mw & ew & Hmul & Hnw & Hew & Herr2); try lia.
    rewrite xorb_false_r in Hmul.
    assert (Hw : Prim2SF (PrimFloat.mul
                            (PrimFloat.div (signed sg (F64.of_Z N)) s) s)
                 = S754_finite sg mw ew).
    { rewrite mul_spec, Hr, Hs. exact Hmul. }
    unfold normal53 in Hnr, Hnw, HmS.
    destruct (@idem_arith N (- ex) (Zpos mS) (Zpos mr) (Zpos mw)
                (er - (ex - eS - 53)) (ew - (er + eS)))
      as [Hlt Hin]; try lia.
    unfold F64.round. rewrite Hw.
    replace (0 <=? ew) with false by (symmetry; apply Z.leb_gt; lia).
    replace (- ex + 53 - (er - (ex - eS - 53)) - (ew - (er + eS)))
      with (- ew) in Hin by lia.
    rewrite (@round_half_away_unique N (Zpos mw) (2 ^ (- ew)));
      [reflexivity | apply Z.pow_pos_nonneg; lia | lia | exact Hin].
Qed.

(** The quotient of the first rounding is a number: it compares equal to
    itself. *)
Lemma round_div_number sg N s mS eS :
  0 <= N <= 2 ^ 50 ->
  Prim2SF s = S754_finite false mS eS -> normal53 mS -> -52 <= eS <= 21 ->
  let r := PrimFloat.div (signed sg (F64.of_Z N)) s in
  PrimFloat.eqb r r = true.
Proof.
  intros HN Hs HmS HeS r. unfold r. rewrite eqb_spec.
  destruct (Z.eq_dec N 0) as [-> | Hnz].
  - rewrite div_spec, Hs, Prim2SF_signed_zero. reflexivity.
  - destruct (@of_Z_finite N) as (mx & ex & Hx & Hnx & Hex & Hvx).
    { change (2 ^ 53) with (8 * 2 ^ 50). lia. }
    pose proof (Prim2SF_signed sg _ Hx) as Hn.
    destruct (@SFdiv_finite sg mx ex false mS eS Hnx HmS)
      as (mr & er & Hdiv & _); try lia.
    assert (Hr : Prim2SF (PrimFloat.div (signed sg (F64.of_Z N)) s)
                 = S754_finite (xorb sg false) mr er).
    { rewrite div_spec, Hn, Hs. exact Hdiv. }
    rewrite Hr. unfold SFeqb, SFcompare.
    rewrite Z.compare_refl, Pos.compare_cont_refl.
    now destruct (xorb sg false).
Qed.

(** In binary64 the rounder is idempotent on the values whose scaled
    magnitude is below 2^50, for the precisions 0..22. *)
Lemma roundToPrecision_idempotent_f64 (v : float) (p : Z) :
  0 <= p <= 22 ->
  PrimFloat.ltb (PrimFloat.abs (PrimFloat.mul v (F64.of_dec 1 p)))
    (F64.of_Z (2 ^ 50)) = true ->
  roundToPrecision (roundToPrecision v p) p = roundToPrecision v p /\
  PrimFloat.eqb (roundToPrecision v p) (roundToPrecision v p) = true.
Proof.
  intros Hp Hsmall. unfold roundToPrecision.
  cbn [dmul ddiv std_round std_pow10 float_arith].
  destruct (scale_finite Hp) as (mS & eS & Hs & HmS & HeS).
  destruct (round_small Hsmall) as (sg & N & HN & ->).
  rewrite (@round_div_mul sg N _ mS eS HN Hs HmS HeS).
  split; [reflexivity |].
  exact (@round_div_number sg N _ mS eS HN Hs HmS HeS).
Qed.

End Binary64.

(** C9, as amended.  The precision rounder
    [roundToPrecision v p = round_half_away (v * 10^p) / 10^p] is
    idempotent
    - on binary64, for the precisions 0 <= p <= 22 and the values [v] whose
      scaled magnitude |v * 10^p|, as the program computes it, is below
      2^50: the second rounding returns the very same double, and [==]
      holds between the two;
    - over the exact reals, for every value and every precision. *)
Theorem roundToPrecision_idempotent :
  (forall (v : float) (p : Z),
      (0 <= p <= 22)%Z ->
      (PrimFloat.abs (v * std_pow10 p) <? F64.of_Z (2 ^ 50))%D = true ->
      (roundToPrecision (roundToPrecision v p) p =? roundToPrecision v p)%D
        = true /\
      roundToPrecision (roundToPrecision v p) p = roundToPrecision v p) /\
  (forall (v : R) (p : Z),
      roundToPrecision (roundToPrecision v p) p = roundToPrecision v p).
Proof.
  split.
  - intros v p Hp Hsmall.
    destruct (@roundToPrecision_idempotent_f64 v p Hp Hsmall) as [Heq Hnum].
    split; [| exact Heq]. rewrite Heq. exact Hnum.
  - exact roundToPrecision_idempotent_exact.
Qed.

(** C9 on a value of the scenario: 348.5 at precision 6 is below the bound
    and is left as it is by a second rounding. *)
Lemma roundToPrecision_idempotent_run :
  let v := F64.of_dec 3485 (-1) in
  ((0 <= 6 <= 22)%Z /\
   (PrimFloat.abs (v * std_pow10 6) <? F64.of_Z (2 ^ 50))%D = true) /\
  (roundToPrecision (roundToPrecision v 6) 6 =? roundToPrecision v 6)%D
    = true /\
  roundToPrecision (roundToPrecision v 6) 6 = roundToPrecision v 6.
Proof.
  intros v. split.
  - split; [lia | vm_compute; reflexivity].
  - apply (proj1 roundToPrecision_idempotent v 6%Z);
      [lia | vm_compute; reflexivity].
Defined.

(** C9 as stated fails on binary64: at precision 4 the value
    321919893969.49567 is rounded to the double printed 321919893969.4957,
    and rounding that double again gives the next decimal,
    321919893969.4958.  The scaled value 3219198939694956.5 is above 2^50:
    the quotient 3219198939694957 / 10^4 is a double whose product with
    10^4 rounds to 3219198939694957.5, a half that [std::round] takes
    away from zero. *)
Lemma roundToPrecision_twice_differs :
  let v := F64.of_dec 32191989396949567 (-5) in
  let r := roundToPrecision v 4 in
  (roundToPrecision r 4 =? r)%D = false /\
  roundToPrecision r 4 <> r /\
  Text.fixed 4 r = "321919893969.4957"%string /\
  Text.fixed 4 (roundToPrecision r 4) = "321919893969.4958"%string /\
  Text.fixed 1 (v * std_pow10 4)%D = "3219198939694956.5"%string /\
  Text.fixed 1 (r * std_pow10 4)%D = "3219198939694957.5"%string.
Proof.
  intros v r. split; [vm_compute; reflexivity |].
  split.
  - intros H.
    assert (E : (roundToPrecision r 4 =? r)%D = false)
      by (vm_compute; reflexivity).
    rewrite H in E. vm_compute in E. discriminate E.
  - repeat split; vm_compute; reflexivity.
Qed.

(** ** The Euler stepper *)

Section Stepper.

Context {D : Type} {AD : Arith D}.

Local Open Scope dbl_scope.

Variable tep_success : string -> D -> D -> bool.
Variable tep_evaluate : string -> D -> D -> D.

Variable fn : string.
Variables step x0 y0 end_ : D.
Variable precision : Z.

Abbreviation h := (roundToPrecision step precision).
Abbreviation next := (euler_next tep_evaluate fn step precision).
Abbreviation emit := (euler_emit tep_evaluate fn step precision).
Abbreviation loop := (euler_loop tep_evaluate fn h end_ precision).

Lemma euler_loop_exit n x y values :
  (end_ <? x) = true -> loop n x y values = Returned values.
Proof. intros E. destruct n; cbn; now rewrite E. Qed.

Lemma euler_loop_step n s values :
  (end_ <? fst s) = false ->
  loop (S n) (fst s) (snd s) values =
  loop n (fst (next s)) (snd (next s)) (values ++ [emit s]).
Proof. intros E. cbn. now rewrite E. Qed.

Lemma iter_next_shift k s : Nat.iter k next (next s) = Nat.iter (S k) next s.
Proof. symmetry. apply Nat.iter_succ_r. Qed.

Lemma map_seq_shift (A : Type) (f : nat -> A) N :
  f 0%nat :: map (fun k => f (S k)) (seq 0 N) = map f (seq 0 (S N)).
Proof. cbn. f_equal. now rewrite <- seq_shift, map_map. Qed.

(** Enough iterations: the loop returns the records of the states before
    the first with x greater than end. *)
Lemma euler_loop_complete N : forall n s values,
  (forall k, (k < N)%nat -> (end_ <? fst (Nat.iter k next s)) = false) ->
  (end_ <? fst (Nat.iter N next s)) = true ->
  (N <= n)%nat ->
  loop n (fst s) (snd s) values =
  Returned (values ++ map (fun k => emit (Nat.iter k next s)) (seq 0 N)).
Proof.
  induction N as [| N IH]; intros n s values Hlt Hstop Hn.
  - cbn in Hstop. rewrite euler_loop_exit by assumption.
    cbn. now rewrite app_nil_r.
  - destruct n as [| n]; [lia |].
    rewrite euler_loop_step by (apply (Hlt 0%nat); lia).
    rewrite (IH n (next s)).
    + rewrite <- app_assoc. cbn [app]. do 2 f_equal.
      rewrite <- (map_seq_shift (fun k => emit (Nat.iter k next s))).
      f_equal. apply map_ext. intros k. now rewrite iter_next_shift.
    + intros k Hk. rewrite iter_next_shift. apply Hlt. lia.
    + now rewrite iter_next_shift.
    + lia.
Qed.

(** A loop that returns has run the reference iteration. *)
Lemma euler_loop_sound : forall n s values vs,
  loop n (fst s) (snd s) values = Returned vs ->
  exists N, (N <= n)%nat /\
    (forall k, (k < N)%nat -> (end_ <? fst (Nat.iter k next s)) = false) /\
    (end_ <? fst (Nat.iter N next s)) = true /\
    vs = values ++ map (fun k => emit (Nat.iter k next s)) (seq 0 N).
Proof.
  induction n as [| n IH]; intros s values vs Hrun.
  - cbn in Hrun. destruct (end_ <? fst s) eqn:E; [| discriminate].
    exists 0%nat. cbn. rewrite app_nil_r.
    repeat split; try lia; try assumption; congruence.
  - destruct (end_ <? fst s) eqn:E.
    + rewrite euler_loop_exit in Hrun by assumption.
      exists 0%nat. cbn. rewrite app_nil_r.
      repeat split; try lia; try assumption; congruence.
    + rewrite euler_loop_step in Hrun by assumption.
      destruct (IH _ _ _ Hrun) as (N & HN & Hlt & Hstop & ->).
      exists (S N). split; [lia |]. split; [| split].
      * intros [| k] Hk; [exact E |].
        rewrite <- iter_next_shift. apply Hlt. lia.
      * now rewrite <- iter_next_shift.
      * rewrite <- app_assoc. cbn [app]. do 2 f_equal.
        rewrite <- (map_seq_shift (fun k => emit (Nat.iter k next s))).
        f_equal. apply map_ext. intros k. now rewrite iter_next_shift.
Qed.

(** A state whose x is not beyond end and is not moved by the step is
    never left. *)
Lemma euler_loop_stationary x :
  (end_ <? x) = false ->
  roundToPrecision (x + h) precision = x ->
  forall n y values, loop n x y values = Diverged.
Proof.
  intros E Hx. induction n as [| n IH]; intros y values; cbn; rewrite E.
  - reflexivity.
  - rewrite Hx. apply IH.
Qed.

(** The loop throws nothing. *)
Lemma euler_loop_not_threw : forall n x y values e,
  loop n x y values <> Threw e.
Proof.
  induction n as [| n IH]; intros x y values e; cbn;
    destruct (end_ <? x); try discriminate. apply IH.
Qed.

(** The only failure of the stepper is that of the formula, before the
    loop. *)
Lemma eulersMethod_threw fuel e :
  eulersMethod tep_success tep_evaluate fuel fn step x0 y0 end_ precision =
    Threw e ->
  e = runtime_error ("error parsing expr" ++ fn) /\
  tep_success fn (roundToPrecision x0 precision)
    (roundToPrecision y0 precision) = false.
Proof.
  unfold eulersMethod.
  destruct (tep_success fn _ _); cbn.
  - intros H. now apply euler_loop_not_threw in H.
  - intros [= <-]. now split.
Qed.

Lemma eulersMethod_loop fuel :
  tep_success fn (roundToPrecision x0 precision)
    (roundToPrecision y0 precision) = true ->
  eulersMethod tep_success tep_evaluate fuel fn step x0 y0 end_ precision =
  loop fuel (roundToPrecision x0 precision) (roundToPrecision y0 precision) [].
Proof. intros E. unfold eulersMethod. now rewrite E. Qed.

Lemma eulersMethod_fuel_mono fuel fuel' vs :
  eulersMethod tep_success tep_evaluate fuel fn step x0 y0 end_ precision =
    Returned vs ->
  (fuel <= fuel')%nat ->
  eulersMethod tep_success tep_evaluate fuel' fn step x0 y0 end_ precision =
    Returned vs.
Proof.
  unfold eulersMethod.
  destruct (negb _); [easy |]. intros Hrun Hle.
  apply (@euler_loop_sound fuel (_, _)) in Hrun.
  destruct Hrun as (N & HN & Hlt & Hstop & ->).
  apply (@euler_loop_complete N fuel' (_, _)); auto. lia.
Qed.

(** C4, as amended.  With a formula evaluable at the start, the records of
    the stepper are those of the reference iteration, in which every
    rounding is round(v, p) = round_half_away_from_zero(v * 10^p) / 10^p:
    x = round(x0), y = round(y0), step = round(step); while x is not greater
    than x_end: yp = round(f(x,y)), dy = round(yp*step), emit {x,y,yp,dy},
    x = round(x+step), y = round(y+dy).  When the iteration leaves the loop
    at step N, the stepper returns the records 0..N-1 once it may run N
    iterations, and whatever it returns is of this form; the first record
    is at round(x0), round(y0). *)
Theorem eulersMethod_reference fuel :
  tep_success fn (spec_round x0 precision) (spec_round y0 precision) = true ->
  (forall N, (N <= fuel)%nat ->
     euler_stops tep_evaluate fn step x0 y0 precision end_ N ->
     eulersMethod tep_success tep_evaluate fuel fn step x0 y0 end_ precision =
     Returned (map (euler_record tep_evaluate fn step x0 y0 precision)
                 (seq 0 N))) /\
  (forall vs,
     eulersMethod tep_success tep_evaluate fuel fn step x0 y0 end_ precision =
       Returned vs ->
     exists N, (N <= fuel)%nat /\
       euler_stops tep_evaluate fn step x0 y0 precision end_ N /\
       vs = map (euler_record tep_evaluate fn step x0 y0 precision)
              (seq 0 N) /\
       (forall r, hd_error vs = Some r ->
          x_ r = spec_round x0 precision /\
          y_ r = spec_round y0 precision)).
Proof.
  intros Hok. rewrite eulersMethod_loop by exact Hok. split.
  - intros N HN [Hlt Hstop].
    now apply (@euler_loop_complete N fuel
                 (roundToPrecision x0 precision, roundToPrecision y0 precision)
                 []).
  - intros vs Hrun.
    apply (@euler_loop_sound fuel (_, _)) in Hrun.
    destruct Hrun as (N & HN & Hlt & Hstop & ->).
    exists N. split; [assumption |]. split; [now split |].
    split; [reflexivity |].
    destruct N as [| N]; cbn; [discriminate |].
    intros r [= <-]. now cbn.
Qed.

(** A stepper whose rounded start is beyond the end returns at once, with
    no record. *)
Lemma eulersMethod_beyond fuel :
  tep_success fn (roundToPrecision x0 precision)
    (roundToPrecision y0 precision) = true ->
  (end_ <? roundToPrecision x0 precision) = true ->
  eulersMethod tep_success tep_evaluate fuel fn step x0 y0 end_ precision =
  Returned [].
Proof.
  intros Hok Hgt. rewrite eulersMethod_loop by assumption.
  now apply euler_loop_exit.
Qed.

End Stepper.

(** ** Runs of the stepper on binary64 *)

Section StepperRuns.

Local Open Scope string_scope.

Abbreviation euler64 := (eulersMethod Formula.success Formula.evaluate).

(** C1. The stepper has no check of its step: the only exception it
    throws is the one of a formula that fails at the first evaluation.
    With step = 0, x0 = 0, y0 = 1, x_end = 1 (formula x, precision 3) it
    neither fails nor returns, whatever number of iterations it is given;
    with step = 0.1, x0 = 1, y0 = 0, x_end = 0 it returns the empty table
    without failing. *)
Theorem eulersMethod_no_step_check :
  (forall (D : Type) (AD : Arith D) tep_success tep_evaluate fuel fn
          (step x0 y0 end_ : D) precision e,
     eulersMethod tep_success tep_evaluate fuel fn step x0 y0 end_ precision
     = Threw e ->
     e = runtime_error ("error parsing expr" ++ fn)) /\
  (forall fuel,
     euler64 fuel "x" (F64.of_Z 0) (F64.of_Z 0) (F64.of_Z 1) (F64.of_Z 1) 3
     = Diverged) /\
  (forall fuel,
     euler64 fuel "x" (F64.of_dec 1 (-1)) (F64.of_Z 1) (F64.of_Z 0)
       (F64.of_Z 0) 3
     = Returned []).
Proof.
  split; [| split].
  - intros D AD tep_success tep_evaluate fuel fn step x0 y0 end_ precision e
      Hrun.
    now apply eulersMethod_threw in Hrun.
  - intros fuel. rewrite eulersMethod_loop by reflexivity.
    apply euler_loop_stationary; vm_compute; reflexivity.
  - intros fuel. rewrite eulersMethod_loop by reflexivity.
    apply euler_loop_exit. vm_compute. reflexivity.
Qed.

(** C4 at step 0.26 from x0 = 0.15 to x_end = 1 at precision 1: the step
    is rounded to 0.3 and the start to 0.2, the iteration visits 0.2, 0.5,
    0.8 and leaves the loop at step 3 with x = 1.1; the stepper returns
    the records 0, 1 and 2. *)
Lemma eulersMethod_reference_run :
  euler64 10 "x" (F64.of_dec 26 (-2)) (F64.of_dec 15 (-2)) (F64.of_Z 0)
    (F64.of_Z 1) 1
  = Returned
      (map (euler_record Formula.evaluate "x" (F64.of_dec 26 (-2))
              (F64.of_dec 15 (-2)) (F64.of_Z 0) 1) (seq 0 3)) /\
  map (fun r => Text.x r)
    (map (euler_record Formula.evaluate "x" (F64.of_dec 26 (-2))
            (F64.of_dec 15 (-2)) (F64.of_Z 0) 1) (seq 0 3))
  = [" 0.2 "; " 0.5 "; " 0.8 "].
Proof.
  split; [| vm_compute; reflexivity].
  apply (proj1 (@eulersMethod_reference float _ Formula.success
                  Formula.evaluate "x" (F64.of_dec 26 (-2))
                  (F64.of_dec 15 (-2)) (F64.of_Z 0) (F64.of_Z 1) 1 10
                  eq_refl)); [lia |].
  split.
  - intros [| [| [| k]]] Hk; [| | | lia]; vm_compute; reflexivity.
  - vm_compute. reflexivity.
Defined.

(** C4 as stated fails: the first record is not at x0 when x0 is not
    rounded to the precision.  With x0 = 0.15 at precision 1 (formula x,
    step 0.26, x_end = 1) the first record is at x = 0.2, printed 0.2. *)
Lemma eulersMethod_first_record :
  exists r rest,
    euler64 10 "x" (F64.of_dec 26 (-2)) (F64.of_dec 15 (-2)) (F64.of_Z 0)
      (F64.of_Z 1) 1 = Returned (r :: rest) /\
    x_ r = F64.of_dec 2 (-1) /\
    (x_ r =? F64.of_dec 15 (-2))%D = false /\
    x_ r <> F64.of_dec 15 (-2) /\
    Text.x r = " 0.2 " /\
    Text.fixed 2 (F64.of_dec 15 (-2)) = "0.15".
Proof.
  do 2 eexists. split; [vm_compute; reflexivity |].
  split; [vm_compute; reflexivity |].
  split; [vm_compute; reflexivity |].
  split; [| split; vm_compute; reflexivity].
  cbn [x_]. intros H.
  assert (E : (F64.of_dec 2 (-1) =? F64.of_dec 15 (-2))%D = false)
    by (vm_compute; reflexivity).
  rewrite <- H in E. vm_compute in E. discriminate E.
Qed.

(** C5. For f = 0.3*(300-y), step 0.1, x0 = 0, y0 = 350, x_end = 10 and
    precision 6 the stepper returns 101 records once it may run 101
    iterations; the first is (0, 350, -15, -1.5), printed 0.000000,
    350.000000, -15.000000, -1.500000 (each between two spaces), and the
    second has x = 0.1 and y = 348.5, printed 0.100000 and 348.500000. *)
Theorem eulersMethod_cooling fuel :
  (101 <= fuel)%nat ->
  exists r0 r1 rest,
    euler64 fuel "0.3*(300-y)" (F64.of_dec 1 (-1)) (F64.of_Z 0) (F64.of_Z 350)
      (F64.of_Z 10) 6 = Returned (r0 :: r1 :: rest) /\
    List.length rest = 99%nat /\
    r0 = mkStepValues (F64.of_Z 0) (F64.of_Z 350) (F64.of_Z (-15))
           (F64.of_dec (-15) (-1)) 6 /\
    (Text.x r0, Text.y r0, Text.yp r0, Text.dy r0) =
      (" 0.000000 ", " 350.000000 ", " -15.000000 ", " -1.500000 ") /\
    x_ r1 = F64.of_dec 1 (-1) /\ y_ r1 = F64.of_dec 3485 (-1) /\
    (Text.x r1, Text.y r1) = (" 0.100000 ", " 348.500000 ").
Proof.
  intros Hfuel.
  assert (H : exists r0 r1 rest,
    euler64 101 "0.3*(300-y)" (F64.of_dec 1 (-1)) (F64.of_Z 0) (F64.of_Z 350)
      (F64.of_Z 10) 6 = Returned (r0 :: r1 :: rest) /\
    List.length rest = 99%nat /\
    r0 = mkStepValues (F64.of_Z 0) (F64.of_Z 350) (F64.of_Z (-15))
           (F64.of_dec (-15) (-1)) 6 /\
    (Text.x r0, Text.y r0, Text.yp r0, Text.dy r0) =
      (" 0.000000 ", " 350.000000 ", " -15.000000 ", " -1.500000 ") /\
    x_ r1 = F64.of_dec 1 (-1) /\ y_ r1 = F64.of_dec 3485 (-1) /\
    (Text.x r1, Text.y r1) = (" 0.100000 ", " 348.500000 ")).
  { do 3 eexists. split; [vm_compute; reflexivity |].
    repeat split; vm_compute; reflexivity. }
  destruct H as (r0 & r1 & rest & Hrun & Hrest).
  exists r0, r1, rest. split; [| exact Hrest].
  exact (eulersMethod_fuel_mono _ _ _ _ _ _ _ _ Hrun Hfuel).
Qed.

Lemma eulersMethod_cooling_run :
  exists r0 r1 rest,
    euler64 200 "0.3*(300-y)" (F64.of_dec 1 (-1)) (F64.of_Z 0) (F64.of_Z 350)
      (F64.of_Z 10) 6 = Returned (r0 :: r1 :: rest) /\
    List.length rest = 99%nat /\
    r0 = mkStepValues (F64.of_Z 0) (F64.of_Z 350) (F64.of_Z (-15))
           (F64.of_dec (-15) (-1)) 6 /\
    (Text.x r0, Text.y r0, Text.yp r0, Text.dy r0) =
      (" 0.000000 ", " 350.000000 ", " -15.000000 ", " -1.500000 ") /\
    x_ r1 = F64.of_dec 1 (-1) /\ y_ r1 = F64.of_dec 3485 (-1) /\
    (Text.x r1, Text.y r1) = (" 0.100000 ", " 348.500000 ").
Proof. apply (@eulersMethod_cooling 200). lia. Defined.

End StepperRuns.

(** ** The field sampler and the curve overlay *)

Section Field.

Context {D : Type} {AD : Arith D}.

Local Open Scope dbl_scope.

Variable tep_success : string -> D -> D -> bool.
Variable tep_evaluate : string -> D -> D -> D.
Variable fuel : nat.

Variable expr : string.
Variables x0 y0 xe ye xstep ystep : D.
Variable precision : Z.
Variables curveStep curveX0 curveY0 : D.

Abbreviation tol := (dlit 1 (-12)).
Abbreviation parse_error := (runtime_error ("error parsing expr" ++ expr)).
Abbreviation ok := (fun p : D * D => tep_success expr (fst p) (snd p)).
Abbreviation seg :=
  (fun p : D * D =>
     fieldSegment x0 y0 xe ye (fst p) (snd p)
       (tep_evaluate expr (fst p) (snd p))).
Abbreviation ystep' := (ySampleStep x0 y0 xe ye ystep).
Abbreviation fy := (field_y tep_success tep_evaluate expr x0 y0 xe ye ystep).
Abbreviation fx :=
  (field_x tep_success tep_evaluate fuel expr x0 y0 xe ye xstep ystep).
Abbreviation cstep := (roundToPrecision curveStep precision).
Abbreviation cloop :=
  (curve_loop tep_success tep_evaluate expr x0 y0 xe ye precision).
Abbreviation cnext := (euler_next tep_evaluate expr curveStep precision).
Abbreviation cpoint :=
  (fun s : D * D => CurvePoint (fst s) (mapY x0 y0 xe ye (snd s))).

(** *** The two loops of the sampler *)

Lemma field_y_walk : forall n x y buffer ys,
  walk n y ye ystep' = Some ys ->
  fy n x y buffer =
  if forallb (fun y => tep_success expr x y) ys
  then Returned (buffer ++ map (fun y => seg (x, y)) ys)
  else Threw parse_error.
Proof.
  induction n as [| n IH]; intros x y buffer ys; cbn;
    destruct (y <=? ye + tol); try discriminate.
  - intros [= <-]. cbn. now rewrite app_nil_r.
  - destruct (walk n (y + ystep') ye ystep') as [ys' |] eqn:W;
      [| discriminate].
    intros [= <-]. unfold slope. cbn.
    destruct (tep_success expr x y); cbn; [| reflexivity].
    rewrite (IH _ _ _ _ W), <- app_assoc. reflexivity.
  - intros [= <-]. cbn. now rewrite app_nil_r.
Qed.

Lemma forallb_map_comp (A B : Type) (f : B -> bool) (g : A -> B) l :
  forallb f (map g l) = forallb (fun a => f (g a)) l.
Proof. induction l as [| a l IH]; cbn; [| rewrite IH]; reflexivity. Qed.

Lemma list_prod_cons (x : D) xs (ys : list D) :
  list_prod (x :: xs) ys = map (fun y => (x, y)) ys ++ list_prod xs ys.
Proof. reflexivity. Qed.

Lemma field_x_walk : forall n x buffer xs ys,
  walk n x xe xstep = Some xs ->
  walk fuel y0 ye ystep' = Some ys ->
  fx n x buffer =
  if forallb ok (list_prod xs ys)
  then Returned (buffer ++ map seg (list_prod xs ys))
  else Threw parse_error.
Proof.
  induction n as [| n IH]; intros x buffer xs ys; cbn -[list_prod];
    destruct (x <=? xe + tol); try discriminate.
  - intros [= <-] _. cbn. now rewrite app_nil_r.
  - destruct (walk n (x + xstep) xe xstep) as [xs' |] eqn:W;
      [| discriminate].
    intros [= <-] Wy. rewrite (field_y_walk _ _ _ _ Wy).
    rewrite list_prod_cons, forallb_app, map_app, forallb_map_comp, map_map.
    cbn [fst snd].
    destruct (forallb (fun y => tep_success expr x y) ys);
      cbn [andb]; [| reflexivity].
    rewrite (IH _ _ _ _ W Wy), <- app_assoc. reflexivity.
  - intros [= <-] _. cbn. now rewrite app_nil_r.
Qed.

Lemma field_x_grid buffer pts :
  grid fuel x0 y0 xe ye xstep ystep = Some pts ->
  fx fuel x0 buffer =
  if forallb ok pts then Returned (buffer ++ map seg pts)
  else Threw parse_error.
Proof.
  unfold grid. change (ystep / y_scale x0 y0 xe ye) with ystep'.
  destruct (walk fuel x0 xe xstep) as [xs |] eqn:Wx; [| discriminate].
  destruct (walk fuel y0 ye ystep') as [ys |] eqn:Wy; [| discriminate].
  intros [= <-]. now apply field_x_walk.
Qed.

(** *** What lies in a buffer *)

Lemma field_segments_app (b1 b2 : list (tikz D)) :
  field_segments (b1 ++ b2) = field_segments b1 ++ field_segments b2.
Proof. apply filter_app. Qed.

Lemma field_segments_seg pts : field_segments (map seg pts) = map seg pts.
Proof.
  unfold field_segments.
  induction pts as [| p pts IH]; cbn; [| rewrite IH]; reflexivity.
Qed.

Lemma field_segments_cpoint (l : list (D * D)) :
  field_segments (map cpoint l) = [].
Proof.
  unfold field_segments.
  induction l as [| p l IH]; cbn; [| rewrite IH]; reflexivity.
Qed.


Lemma curve_points_seg pts : curve_points (map seg pts) = [].
Proof.
  unfold curve_points.
  induction pts as [| p pts IH]; cbn; [| rewrite IH]; reflexivity.
Qed.


(** *** The loop of the overlay *)

(** A loop that returns has appended the points of the states 0..N-1 of
    the stepper's iteration, all retained, after "plot coordinates {" if
    it was still to be written. *)
Lemma curve_loop_trace : forall n s first buffer first' buffer',
  cloop n cstep (fst s) (snd s) first buffer = Returned (first', buffer') ->
  exists N, (N <= n)%nat /\
    (forall k, (k < N)%nat -> retained y0 xe ye (Nat.iter k cnext s)) /\
    ~ retained y0 xe ye (Nat.iter N cnext s) /\
    first' = (first && Nat.eqb N 0)%bool /\
    buffer' =
      buffer ++ (if (first && negb (Nat.eqb N 0))%bool then [PlotOpen] else [])
        ++ map (fun k => cpoint (Nat.iter k cnext s)) (seq 0 N).
Proof.
  induction n as [| n IH]; intros s first buffer first' buffer'; cbn.
  - destruct (fst s <=? xe + tol) eqn:Ex;
      [destruct ((snd s <? y0 - tol) || (ye + tol <? snd s))%bool eqn:Ey;
       [| discriminate] |];
      intros [= <- <-]; exists 0%nat; cbn;
      rewrite andb_true_r, andb_false_r, app_nil_r;
      (split; [lia |]); (split; [intros k Hk; lia |]);
      (split; [| split; reflexivity]);
      intros (Hx & Hlo & Hhi); cbn in *;
      try rewrite Hlo, Hhi in *; cbn in *; congruence.
  - destruct (fst s <=? xe + tol) eqn:Ex;
      [destruct ((snd s <? y0 - tol) || (ye + tol <? snd s))%bool eqn:Ey |].
    1, 3: intros [= <- <-]; exists 0%nat; cbn;
      rewrite andb_true_r, andb_false_r, app_nil_r;
      (split; [lia |]); (split; [intros k Hk; lia |]);
      (split; [| split; reflexivity]);
      intros (Hx & Hlo & Hhi); cbn in *;
      try rewrite Hlo, Hhi in *; cbn in *; congruence.
    unfold slope. destruct (tep_success expr (fst s) (snd s)); cbn;
      [| discriminate].
    intros Hrun. apply (IH (cnext s)) in Hrun.
    destruct Hrun as (N & HN & Hret & Hout & -> & ->).
    apply orb_false_elim in Ey. destruct Ey as [Elo Ehi].
    exists (S N). split; [lia |]. split; [| split; [| split]].
    + intros [| k] Hk; [now repeat split |].
      rewrite Nat.iter_succ_r. apply Hret. lia.
    + now rewrite Nat.iter_succ_r.
    + cbn. now rewrite andb_false_r.
    + assert (Hshift :
        map (fun k => cpoint (Nat.iter k cnext (cnext s))) (seq 0 N) =
        map (fun k => cpoint (Nat.iter (S k) cnext s)) (seq 0 N)).
      { apply map_ext. intros k. now rewrite Nat.iter_succ_r. }
      rewrite Hshift.
      rewrite <- (map_seq_shift (fun k => cpoint (Nat.iter k cnext s)) N).
      destruct first; cbn; rewrite <- !app_assoc; reflexivity.
Qed.

(** A first state that is not retained ends the loop at once, with
    nothing written, whatever the number of iterations allowed. *)
Lemma curve_loop_break n x y first buffer :
  ~ retained y0 xe ye (x, y) ->
  cloop n cstep x y first buffer = Returned (first, buffer).
Proof.
  unfold retained. cbn [fst snd]. intros Hout.
  destruct n; cbn; destruct (x <=? xe + tol); try reflexivity;
    destruct (y <? y0 - tol); cbn; try reflexivity;
    destruct (ye + tol <? y); cbn; try reflexivity;
    exfalso; apply Hout; auto.
Qed.



(** *** printDField *)

Abbreviation pdf plotCurve :=
  (printDField tep_success tep_evaluate fuel expr x0 y0 xe ye xstep ystep
     precision plotCurve curveStep curveX0 curveY0).
Abbreviation checks plotCurve :=
  (printDField_checks x0 y0 xe ye xstep ystep plotCurve curveStep).
Abbreviation head := ([Preamble; Axes x0 y0 xe (yTop x0 y0 xe)]).
Abbreviation cstate :=
  (euler_state tep_evaluate expr curveStep curveX0 curveY0 precision).

(** After the checks, on a grid whose walks end: what is left to run. *)
Lemma printDField_sampled plotCurve pts :
  checks plotCurve = None ->
  (0 <= precision)%Z ->
  grid fuel x0 y0 xe ye xstep ystep = Some pts ->
  pdf plotCurve =
  if forallb ok pts then
    if plotCurve then
      match cloop fuel cstep (roundToPrecision curveX0 precision)
              (roundToPrecision curveY0 precision) true
              ((head ++ map seg pts) ++ [CurveDraw]) with
      | Returned (first, buffer) =>
          Returned ((if first then buffer else buffer ++ [PlotClose])
                      ++ [Postamble])
      | Threw e => Threw e
      | Diverged => Diverged
      end
    else Returned ((head ++ map seg pts) ++ [Postamble])
  else Threw parse_error.
Proof.
  intros Hchk Hprec Hgrid. unfold printDField. rewrite Hchk.
  destruct (precision <? 0)%Z eqn:E; [apply Z.ltb_lt in E; lia |].
  cbn [app]. rewrite (field_x_grid _ Hgrid).
  destruct (forallb ok pts); reflexivity.
Qed.


(** What a returned buffer holds of the field and of the overlay. *)
Lemma printDField_returned plotCurve buf :
  pdf plotCurve = Returned buf ->
  exists b N,
    fx fuel x0 head = Returned b /\
    (forall k, (k < N)%nat -> retained y0 xe ye (cstate k)) /\
    (plotCurve = true -> ~ retained y0 xe ye (cstate N)) /\
    (plotCurve = false -> N = 0%nat) /\
    buf = b ++ (if plotCurve then [CurveDraw] else [])
            ++ (if negb (Nat.eqb N 0) then [PlotOpen] else [])
            ++ map (fun k => cpoint (cstate k)) (seq 0 N)
            ++ (if negb (Nat.eqb N 0) then [PlotClose] else [])
            ++ [Postamble].
Proof.
  unfold printDField.
  destruct (checks plotCurve); [discriminate |].
  destruct (precision <? 0)%Z; [discriminate |]. cbn [app].
  destruct (fx fuel x0 head) as [b | |]; try discriminate.
  destruct plotCurve.
  - destruct (cloop _ _ _ _ _ _) as [[first buffer] | |] eqn:C;
      try discriminate.
    apply (@curve_loop_trace fuel (_, _)) in C.
    destruct C as (N & HN & Hret & Hout & -> & ->).
    intros [= <-]. exists b, N. split; [reflexivity |].
    split; [exact Hret |]. split; [intros _; exact Hout |].
    split; [discriminate |].
    destruct N; cbn; rewrite <- ?app_assoc; reflexivity.
  - intros [= <-]. exists b, 0%nat. split; [reflexivity |].
    split; [intros k Hk; lia |]. split; [discriminate |].
    split; reflexivity.
Qed.

(** *** The checks on the domain *)

(** A domain of zero width passes the four checks: with positive steps,
    x_min == x_max and a y range that is not y_max <= y_min, no
    exception is thrown on the arguments. *)
Lemma printDField_checks_zero_width {L : ArithLaws D} plotCurve :
  ((xstep <=? dlit 0 0) || (ystep <=? dlit 0 0)
   || plotCurve && (curveStep <=? dlit 0 0))%bool = false ->
  (x0 =? xe) = true ->
  (ye <=? y0) = false ->
  checks plotCurve = None.
Proof.
  intros Hsteps Hx Hy. unfold printDField_checks.
  apply orb_false_elim in Hsteps. destruct Hsteps as [Hs Hc].
  rewrite Hs, Hc. rewrite (deq_not_dlt _ _ Hx). cbn [orb].
  destruct (ye <? y0) eqn:Elt.
  - apply dlt_dle in Elt. congruence.
  - destruct (ye =? y0) eqn:Eeq; [| reflexivity].
    apply deq_dle in Eeq. congruence.
Qed.

(** A domain with x_max < x_min or with y_max <= y_min makes printDField
    throw at its checks, whatever the formula and before any evaluation
    of it: nothing is written, no field segment is produced.  With valid
    steps the exception is one of the two on the domain. *)
Theorem printDField_rejects {L : ArithLaws D} plotCurve :
  (xe <? x0) = true \/ (ye <=? y0) = true ->
  exists what,
    checks plotCurve = Some (runtime_error what) /\
    pdf plotCurve = Threw (runtime_error what) /\
    (((xstep <=? dlit 0 0) || (ystep <=? dlit 0 0)
      || plotCurve && (curveStep <=? dlit 0 0))%bool = false ->
     what = "direction field range must be increasing"%string \/
     what = "direction field y range must be non-zero"%string).
Proof.
  intros Hdom. unfold printDField, printDField_checks.
  destruct ((xstep <=? dlit 0 0) || (ystep <=? dlit 0 0))%bool;
    [eexists; split; [| split]; [reflexivity .. | discriminate] |].
  destruct (plotCurve && (curveStep <=? dlit 0 0))%bool;
    [eexists; split; [| split]; [reflexivity .. | discriminate] |].
  destruct ((xe <? x0) || (ye <? y0))%bool eqn:Erange;
    [eexists; split; [| split]; [reflexivity .. | auto] |].
  apply orb_false_elim in Erange. destruct Erange as [Ex Ey].
  destruct Hdom as [Hx | Hy]; [congruence |].
  apply dle_inv in Hy. destruct Hy as [Hy | Hy]; [congruence |].
  rewrite Hy. eexists; split; [| split]; [reflexivity .. | auto].
Qed.

(** *** The overlay of a curve with no point or with one *)

(** A loop whose first state is kept and whose second is not writes
    "plot coordinates {" and the one point. *)
Lemma curve_loop_once n s buffer :
  retained y0 xe ye s ->
  tep_success expr (fst s) (snd s) = true ->
  ~ retained y0 xe ye (cnext s) ->
  cloop (S n) cstep (fst s) (snd s) true buffer =
  Returned (false, buffer ++ [PlotOpen] ++ [cpoint s]).
Proof.
  intros (Hx & Hlo & Hhi) Hok Hout. cbn -[roundToPrecision].
  rewrite Hx, Hlo, Hhi. cbn [orb]. unfold slope. rewrite Hok.
  cbn -[roundToPrecision].
  rewrite (@curve_loop_break n _ _ false _ Hout).
  now rewrite <- app_assoc.
Qed.

(** After the checks, on a grid whose walks end and where the formula is
    evaluable: a curve whose rounded start is not kept leaves the draw
    command of the overlay without a path. *)
Lemma printDField_no_point pts :
  checks true = None ->
  (0 <= precision)%Z ->
  grid fuel x0 y0 xe ye xstep ystep = Some pts ->
  forallb ok pts = true ->
  ~ retained y0 xe ye (cstate 0) ->
  pdf true = Returned (head ++ map seg pts ++ [CurveDraw; Postamble]).
Proof.
  intros Hchk Hprec Hgrid Hok Hout.
  rewrite (printDField_sampled _ Hchk Hprec Hgrid), Hok.
  rewrite curve_loop_break by exact Hout.
  now rewrite <- !app_assoc.
Qed.

(** A curve whose rounded start is kept and whose next state is not: the
    path of the overlay holds the start alone. *)
Lemma printDField_one_point pts :
  checks true = None ->
  (0 <= precision)%Z ->
  grid fuel x0 y0 xe ye xstep ystep = Some pts ->
  forallb ok pts = true ->
  (1 <= fuel)%nat ->
  retained y0 xe ye (cstate 0) ->
  ok (cstate 0) = true ->
  ~ retained y0 xe ye (cstate 1) ->
  pdf true =
  Returned (head ++ map seg pts
            ++ [CurveDraw; PlotOpen; cpoint (cstate 0); PlotClose;
                Postamble]).
Proof.
  intros Hchk Hprec Hgrid Hok Hfuel Hin Hok0 Hout.
  rewrite (printDField_sampled _ Hchk Hprec Hgrid), Hok.
  destruct fuel as [| n] eqn:Ef; [lia |].
  change (roundToPrecision curveX0 precision) with (fst (cstate 0)).
  change (roundToPrecision curveY0 precision) with (snd (cstate 0)).
  rewrite (@curve_loop_once n (cstate 0) _ Hin Hok0 Hout).
  now rewrite <- !app_assoc.
Qed.

(** C8.  On a grid whose walks end, after the checks: if the evaluator
    fails at one grid point, printDField throws the error of the formula
    and writes nothing; and a buffer that is written holds the segment of
    every grid point, the evaluator having succeeded at each. *)
Theorem printDField_all_or_nothing plotCurve pts :
  checks plotCurve = None ->
  (0 <= precision)%Z ->
  grid fuel x0 y0 xe ye xstep ystep = Some pts ->
  ((exists p, In p pts /\ ok p = false) ->
   pdf plotCurve = Threw parse_error) /\
  (forall buf,
     pdf plotCurve = Returned buf ->
     field_segments buf = map seg pts /\
     Forall (fun p => ok p = true) pts).
Proof.
  intros Hchk Hprec Hgrid. split.
  - intros (p & Hin & Hp).
    rewrite (printDField_sampled _ Hchk Hprec Hgrid).
    destruct (forallb ok pts) eqn:F; [| reflexivity].
    rewrite forallb_forall in F. specialize (F p Hin). cbn in *. congruence.
  - intros buf Hrun.
    assert (F : forallb ok pts = true).
    { rewrite (printDField_sampled _ Hchk Hprec Hgrid) in Hrun.
      destruct (forallb ok pts); [reflexivity | discriminate]. }
    split; [| now apply Forall_forall, forallb_forall].
    destruct (printDField_returned _ Hrun) as (b & N & Hb & _ & _ & _ & ->).
    rewrite (field_x_grid _ Hgrid), F in Hb. injection Hb as <-.
    change (Preamble :: Axes x0 y0 xe (yTop x0 y0 xe) :: map seg pts)
      with (head ++ map seg pts).
    rewrite !field_segments_app, field_segments_seg.
    rewrite <- (map_map cstate cpoint), field_segments_cpoint.
    destruct plotCurve, (negb (Nat.eqb N 0)); cbn; now rewrite app_nil_r.
Qed.

End Field.

(** ** The walks of the grid *)

Section Walk.

Context {D : Type} {AD : Arith D}.

Local Open Scope dbl_scope.


End Walk.

(** ** The segment of a grid point in exact arithmetic *)

Section Geometry.

Local Open Scope R_scope.


(** Evaluated without rounding, the projector takes the bottom of the
    domain to itself and its top to y_min + x_range. *)
Lemma project_exact (x_min y_min x_max y_max x : R) :
  y_min <> y_max ->
  project x_min y_min x_max y_max (x, y_min) = (x, y_min) /\
  project x_min y_min x_max y_max (x, y_max) = (x, y_min + (x_max - x_min)).
Proof.
  intros Hy. unfold project, project_y, y_scale. cbn [fst snd].
  cbn [dadd dsub dmul ddiv real_arith]. split; f_equal; field; lra.
Qed.


End Geometry.

(** On binary64 the bottom of the domain is projected to itself, exactly:
    y_min - y_min is zero, and so is its product with a finite scale. *)
Lemma mapY_bottom_f64 (x0 y0 xe ye : float) :
  F64.isfinite y0 = true -> F64.isfinite (yScale x0 y0 xe ye) = true ->
  (mapY x0 y0 xe ye y0 =? y0)%D = true.
Proof.
  unfold mapY, F64.isfinite. cbn [dadd dsub dmul deq float_arith].
  generalize (yScale x0 y0 xe ye). intros s Hy Hs.
  rewrite eqb_spec, add_spec, mul_spec, sub_spec.
  destruct (Prim2SF y0) as [sy | | | sy my ey]; try discriminate;
    destruct (Prim2SF s) as [ss | | | ss ms es]; try discriminate.
  - now destruct sy, ss.
  - now destruct sy, ss.
  - unfold SF64sub, SFsub. rewrite Z.sub_diag. cbn.
    rewrite Z.compare_refl, Pos.compare_cont_refl. now destruct sy.
  - unfold SF64sub, SFsub. rewrite Z.sub_diag. cbn.
    rewrite Z.compare_refl, Pos.compare_cont_refl. now destruct sy.
Qed.

(** C6, as amended.  The map of the program is the projector of the
    specification, evaluated in the arithmetic of the program: x is kept,
    y goes to y_min + (y - y_min) * y_scale and the scale is
    x_range / y_range.  On binary64 the bottom of the domain is projected
    to itself, project_y(y_min) == y_min, whenever y_min and the scale
    are finite doubles.  On the domain x_min = 0, y_min = 60, x_max = 210,
    y_max = 95 the scale is 6, 60 goes to 60 and 95 to 270, which is
    y_min + x_range, where the y axis is drawn to.  Evaluated without
    rounding, the projector takes y_min to y_min and y_max to
    y_min + x_range on every domain with y_min <> y_max. *)
Theorem mapY_projects :
  (forall (D : Type) (AD : Arith D) (x0 y0 xe ye : D) (p : D * D),
     (fst p, mapY x0 y0 xe ye (snd p)) = project x0 y0 xe ye p /\
     yScale x0 y0 xe ye = y_scale x0 y0 xe ye) /\
  (forall x0 y0 xe ye : float,
     F64.isfinite y0 = true -> F64.isfinite (yScale x0 y0 xe ye) = true ->
     (snd (project x0 y0 xe ye (x0, y0)) =? y0)%D = true) /\
  (y_scale (F64.of_Z 0) (F64.of_Z 60) (F64.of_Z 210) (F64.of_Z 95)
   = F64.of_Z 6 /\
   project (F64.of_Z 0) (F64.of_Z 60) (F64.of_Z 210) (F64.of_Z 95)
     (F64.of_Z 0, F64.of_Z 60) = (F64.of_Z 0, F64.of_Z 60) /\
   project (F64.of_Z 0) (F64.of_Z 60) (F64.of_Z 210) (F64.of_Z 95)
     (F64.of_Z 210, F64.of_Z 95) = (F64.of_Z 210, F64.of_Z 270) /\
   (F64.of_Z 60 + (F64.of_Z 210 - F64.of_Z 0))%D = F64.of_Z 270 /\
   yTop (F64.of_Z 0) (F64.of_Z 60) (F64.of_Z 210) = F64.of_Z 270) /\
  (forall x_min y_min x_max y_max x : R,
     y_min <> y_max ->
     project x_min y_min x_max y_max (x, y_min) = (x, y_min) /\
     project x_min y_min x_max y_max (x, y_max)
     = (x, (y_min + (x_max - x_min))%R)).
Proof.
  split; [split; reflexivity |]. split; [| split].
  - intros x0 y0 xe ye. exact (@mapY_bottom_f64 x0 y0 xe ye).
  - repeat split; vm_compute; reflexivity.
  - intros x_min y_min x_max y_max x Hy. apply project_exact, Hy.
Qed.

(** C6 on the domain of the scenario: y_min = 60 and the scale 6 are
    finite, and 60 is projected to itself. *)
Lemma mapY_projects_domain :
  (F64.isfinite (F64.of_Z 60) = true /\
   F64.isfinite
     (yScale (F64.of_Z 0) (F64.of_Z 60) (F64.of_Z 210) (F64.of_Z 95)) = true)
  /\ (snd (project (F64.of_Z 0) (F64.of_Z 60) (F64.of_Z 210) (F64.of_Z 95)
             (F64.of_Z 0, F64.of_Z 60)) =? F64.of_Z 60)%D = true.
Proof.
  split; [split; vm_compute; reflexivity |].
  apply (proj1 (proj2 mapY_projects)); vm_compute; reflexivity.
Defined.

(** C6 as stated fails on binary64.  The domain x_min = 0, y_min = 0,
    x_max = 1, y_max = 49 passes the checks of printDField, and y_max is
    projected to 0.99999999999999989, which is not y_min + x_range = 1:
    the quotient 1/49 and its product with 49 are rounded.  The domain
    x_min = 0, y_min = 0, x_max = 1e300, y_max = 1e-10 passes the checks
    too; its scale overflows to the infinity and y_min is projected to a
    NaN. *)
Lemma mapY_top_rounds :
  (printDField_checks (F64.of_Z 0) (F64.of_Z 0) (F64.of_Z 1) (F64.of_Z 49)
     (F64.of_Z 1) (F64.of_Z 1) false (F64.of_Z 1) = None /\
   (F64.of_Z 0 <? F64.of_Z 1)%D = true /\
   (F64.of_Z 0 <? F64.of_Z 49)%D = true /\
   (snd (project (F64.of_Z 0) (F64.of_Z 0) (F64.of_Z 1) (F64.of_Z 49)
           (F64.of_Z 1, F64.of_Z 49))
    =? F64.of_Z 0 + (F64.of_Z 1 - F64.of_Z 0))%D = false /\
   (mapY (F64.of_Z 0) (F64.of_Z 0) (F64.of_Z 1) (F64.of_Z 49) (F64.of_Z 49)
    =? yTop (F64.of_Z 0) (F64.of_Z 0) (F64.of_Z 1))%D = false /\
   Text.fixed 17
     (mapY (F64.of_Z 0) (F64.of_Z 0) (F64.of_Z 1) (F64.of_Z 49) (F64.of_Z 49))
   = "0.99999999999999989"%string /\
   yTop (F64.of_Z 0) (F64.of_Z 0) (F64.of_Z 1) = F64.of_Z 1) /\
  (printDField_checks (F64.of_Z 0) (F64.of_Z 0) (F64.of_dec 1 300)
     (F64.of_dec 1 (-10)) (F64.of_Z 1) (F64.of_Z 1) false (F64.of_Z 1) = None /\
   yScale (F64.of_Z 0) (F64.of_Z 0) (F64.of_dec 1 300) (F64.of_dec 1 (-10))
   = infinity /\
   (mapY (F64.of_Z 0) (F64.of_Z 0) (F64.of_dec 1 300) (F64.of_dec 1 (-10))
      (F64.of_Z 0) =? F64.of_Z 0)%D = false /\
   (mapY (F64.of_Z 0) (F64.of_Z 0) (F64.of_dec 1 300) (F64.of_dec 1 (-10))
      (F64.of_Z 0) =?
    mapY (F64.of_Z 0) (F64.of_Z 0) (F64.of_dec 1 300) (F64.of_dec 1 (-10))
      (F64.of_Z 0))%D = false).
Proof. repeat split; vm_compute; reflexivity. Qed.


(** ** Runs of printDField on binary64 *)

Section FieldRuns.

Local Open Scope string_scope.

Abbreviation field64 := (printDField Formula.success Formula.evaluate).

(** C2.  printDField does not reject the domain of zero width.  Its check
    of the x range is [xe < x0], where that of the y range is [ye < y0]
    followed by [ye == y0]: with x_max == x_min, a y range that is not
    y_max <= y_min and positive steps, the four checks throw nothing,
    in any arithmetic.  On binary64 the domain x_min = x_max = 0,
    y_min = 0, y_max = 1 (formula 1, steps 1 and 1, precision 2) has
    x_max <= x_min and is given a picture: the scale is 0, the sampling
    step of y is the infinity, both axes are drawn from (0,0) to (0,0),
    and one field segment is written. *)
Theorem printDField_accepts_zero_width :
  (forall (D : Type) (AD : Arith D) (L : ArithLaws D)
          (x0 y0 xe ye xstep ystep : D) plotCurve (curveStep : D),
     (dle xstep (dlit 0 0) || dle ystep (dlit 0 0)
      || plotCurve && dle curveStep (dlit 0 0))%bool = false ->
     deq x0 xe = true ->
     dle ye y0 = false ->
     printDField_checks x0 y0 xe ye xstep ystep plotCurve curveStep = None) /\
  ((F64.of_Z 0 <=? F64.of_Z 0)%D = true /\
   field64 100 "1" (F64.of_Z 0) (F64.of_Z 0) (F64.of_Z 0) (F64.of_Z 1)
     (F64.of_Z 1) (F64.of_Z 1) 2 false (F64.of_Z 1) (F64.of_Z 0) (F64.of_Z 0)
   = Returned
       [Preamble;
        Axes (F64.of_Z 0) (F64.of_Z 0) (F64.of_Z 0) (F64.of_Z 0);
        FieldSegment (F64.of_Z (-1)) (F64.of_Z 0) (F64.of_Z 1) (F64.of_Z 0);
        Postamble] /\
   yScale (F64.of_Z 0) (F64.of_Z 0) (F64.of_Z 0) (F64.of_Z 1) = F64.of_Z 0 /\
   ySampleStep (F64.of_Z 0) (F64.of_Z 0) (F64.of_Z 0) (F64.of_Z 1)
     (F64.of_Z 1) = infinity /\
   Text.str 2
     [Preamble;
      Axes (F64.of_Z 0) (F64.of_Z 0) (F64.of_Z 0) (F64.of_Z 0);
      FieldSegment (F64.of_Z (-1)) (F64.of_Z 0) (F64.of_Z 1) (F64.of_Z 0);
      Postamble]
   = concat Text.nl
       ["\begin{center}";
        "\resizebox{\linewidth}{!}{%";
        "\begin{tikzpicture}[scale=0.12]";
        "  \draw[->] (0.00,0.00) -- (0.00,0.00) node[right] {$t$};";
        "  \draw[->] (0.00,0.00) -- (0.00,0.00) node[above] {$y$};";
        "  \draw[blue!70] (-1.00,0.00) -- (1.00,0.00);";
        "\end{tikzpicture}%";
        "}";
        "\end{center}";
        ""]).
Proof.
  split.
  - intros D AD L x0 y0 xe ye xstep ystep plotCurve curveStep.
    exact (@printDField_checks_zero_width D AD x0 y0 xe ye xstep ystep
             curveStep L plotCurve).
  - repeat split; vm_compute; reflexivity.
Qed.

(** C2 on the domain x_min = x_max = 3, y_min = 0, y_max = 1 with the
    steps 1 and 1: the checks throw nothing. *)
Lemma printDField_accepts_zero_width_run :
  printDField_checks (F64.of_Z 3) (F64.of_Z 0) (F64.of_Z 3) (F64.of_Z 1)
    (F64.of_Z 1) (F64.of_Z 1) false (F64.of_Z 1) = None.
Proof.
  apply (proj1 printDField_accepts_zero_width float float_arith float_laws);
    vm_compute; reflexivity.
Defined.

(** [printDField_rejects] on the domain x_min = 1, x_max = 0 and on the
    domain y_min = y_max = 2. *)
Lemma printDField_rejects_run :
  (exists what,
     field64 100 "1" (F64.of_Z 1) (F64.of_Z 0) (F64.of_Z 0) (F64.of_Z 1)
       (F64.of_Z 1) (F64.of_Z 1) 2 false (F64.of_Z 1) (F64.of_Z 0)
       (F64.of_Z 0)
     = Threw (runtime_error what) /\
     what = "direction field range must be increasing") /\
  (exists what,
     field64 100 "1" (F64.of_Z 0) (F64.of_Z 2) (F64.of_Z 1) (F64.of_Z 2)
       (F64.of_Z 1) (F64.of_Z 1) 2 false (F64.of_Z 1) (F64.of_Z 0)
       (F64.of_Z 0)
     = Threw (runtime_error what) /\
     what = "direction field y range must be non-zero").
Proof.
  split.
  - destruct (@printDField_rejects float _ Formula.success Formula.evaluate
                100 "1" (F64.of_Z 1) (F64.of_Z 0) (F64.of_Z 0) (F64.of_Z 1)
                (F64.of_Z 1) (F64.of_Z 1) 2 (F64.of_Z 1) (F64.of_Z 0)
                (F64.of_Z 0) _ false
                ltac:(left; vm_compute; reflexivity))
      as (what & _ & Hrun & _).
    exists what. split; [exact Hrun |].
    vm_compute in Hrun. now injection Hrun as <-.
  - destruct (@printDField_rejects float _ Formula.success Formula.evaluate
                100 "1" (F64.of_Z 0) (F64.of_Z 2) (F64.of_Z 1) (F64.of_Z 2)
                (F64.of_Z 1) (F64.of_Z 1) 2 (F64.of_Z 1) (F64.of_Z 0)
                (F64.of_Z 0) _ false
                ltac:(right; vm_compute; reflexivity))
      as (what & _ & Hrun & _).
    exists what. split; [exact Hrun |].
    vm_compute in Hrun. now injection Hrun as <-.
Defined.

(** C3.  The overlay of printDField is not empty when fewer than two
    points of the curve are kept.  The draw command of the overlay is
    written before the loop; after the checks, on a grid whose walks end
    and where the formula is evaluable, in any arithmetic:
    - a curve whose rounded start fails the test of the loop leaves the
      draw command in the picture, with no path after it;
    - a curve whose rounded start passes the test and whose next state
      does not is written as a path of one point.
    On binary64, on the unit square with the formula 1 at precision 2: the
    curve started at (0, 5), above the y range, gives a picture that ends
    in [\draw[red, thick] \end{tikzpicture}]; the curve started at
    (1, 0.5) with the step 1 gives [plot coordinates { (1.00,0.50) }];
    the curve started at (0, NaN) with the step 0.5 is written in full,
    three points, the comparisons of the test being false of a NaN; and
    at precision 13 a curve started at x = 1.0000000000005, beyond
    x_max = 1, has its start in the picture, the test of x being
    [x <= xe + 1e-12]. *)
Theorem printDField_overlay_unclosed :
  (forall (D : Type) (AD : Arith D) tep_success tep_evaluate fuel expr
          (x0 y0 xe ye xstep ystep : D) precision curveStep curveX0 curveY0
          pts,
     printDField_checks x0 y0 xe ye xstep ystep true curveStep = None ->
     (0 <= precision)%Z ->
     grid fuel x0 y0 xe ye xstep ystep = Some pts ->
     forallb (fun p => tep_success expr (fst p) (snd p)) pts = true ->
     let start :=
       (roundToPrecision curveX0 precision,
        roundToPrecision curveY0 precision) in
     let picture overlay :=
       Returned
         ([Preamble; Axes x0 y0 xe (yTop x0 y0 xe)]
          ++ map (fun p => fieldSegment x0 y0 xe ye (fst p) (snd p)
                             (tep_evaluate expr (fst p) (snd p))) pts
          ++ overlay)%list in
     (~ retained y0 xe ye start ->
      printDField tep_success tep_evaluate fuel expr x0 y0 xe ye xstep ystep
        precision true curveStep curveX0 curveY0
      = picture [CurveDraw; Postamble]) /\
     (retained y0 xe ye start ->
      tep_success expr (fst start) (snd start) = true ->
      ~ retained y0 xe ye
          (euler_next tep_evaluate expr curveStep precision start) ->
      (1 <= fuel)%nat ->
      printDField tep_success tep_evaluate fuel expr x0 y0 xe ye xstep ystep
        precision true curveStep curveX0 curveY0
      = picture
          [CurveDraw; PlotOpen;
           CurvePoint (fst start) (mapY x0 y0 xe ye (snd start));
           PlotClose; Postamble])) /\
  (exists buf,
     field64 100 "1" (F64.of_Z 0) (F64.of_Z 0) (F64.of_Z 1) (F64.of_Z 1)
       (F64.of_Z 1) (F64.of_Z 1) 2 true (F64.of_Z 1) (F64.of_Z 0)
       (F64.of_Z 5)
     = Returned buf /\
     main Conv.stod Conv.stoi Formula.success Formula.evaluate 100
       ["./euler"; "1"; "0"; "0"; "1"; "1"; "1"; "1"; "1"; "0"; "5"; "2";
        "-dfc"]
     = Done (Text.str 2 buf) /\
     skipn 6 buf = [CurveDraw; Postamble] /\
     Text.str 2 (skipn 6 buf)
     = concat Text.nl
         ["  \draw[red, thick] \end{tikzpicture}%"; "}"; "\end{center}"; ""])
  /\
  (exists buf,
     field64 100 "1" (F64.of_Z 0) (F64.of_Z 0) (F64.of_Z 1) (F64.of_Z 1)
       (F64.of_Z 1) (F64.of_Z 1) 2 true (F64.of_Z 1) (F64.of_Z 1)
       (F64.of_dec 5 (-1))
     = Returned buf /\
     skipn 6 buf
     = [CurveDraw; PlotOpen; CurvePoint (F64.of_Z 1) (F64.of_dec 5 (-1));
        PlotClose; Postamble] /\
     Text.str 2 (skipn 6 buf)
     = concat Text.nl
         ["  \draw[red, thick] plot coordinates { (1.00,0.50) };";
          "\end{tikzpicture}%"; "}"; "\end{center}"; ""]) /\
  (exists buf,
     field64 100 "1" (F64.of_Z 0) (F64.of_Z 0) (F64.of_Z 1) (F64.of_Z 1)
       (F64.of_Z 1) (F64.of_Z 1) 2 true (F64.of_dec 5 (-1)) (F64.of_Z 0) nan
     = Returned buf /\
     map fst (curve_points buf)
     = [F64.of_Z 0; F64.of_dec 5 (-1); F64.of_Z 1] /\
     Forall (fun p => (snd p =? snd p)%D = false) (curve_points buf)) /\
  (exists buf y,
     field64 100 "1" (F64.of_Z 0) (F64.of_Z 0) (F64.of_Z 1) (F64.of_Z 1)
       (F64.of_Z 1) (F64.of_Z 1) 13 true (F64.of_Z 1)
       (F64.of_dec 10000000000005 (-13)) (F64.of_Z 0)
     = Returned buf /\
     curve_points buf = [(F64.of_dec 10000000000005 (-13), y)] /\
     (F64.of_Z 1 <? F64.of_dec 10000000000005 (-13))%D = true).
Proof.
  split; [| split; [| split; [| split]]].
  - intros D AD tep_success tep_evaluate fuel expr x0 y0 xe ye xstep ystep
      precision curveStep curveX0 curveY0 pts Hchk Hprec Hgrid Hok start
      picture.
    split.
    + intros Hout. now apply printDField_no_point.
    + intros Hin Hok0 Hout Hfuel. now apply printDField_one_point.
  - eexists. split; [vm_compute; reflexivity |].
    split; [vm_compute; reflexivity |].
    split; vm_compute; reflexivity.
  - eexists. split; [vm_compute; reflexivity |].
    split; vm_compute; reflexivity.
  - eexists. split; [vm_compute; reflexivity |].
    split; [vm_compute; reflexivity |].
    repeat constructor.
  - do 2 eexists. split; [vm_compute; reflexivity |].
    split; vm_compute; reflexivity.
Qed.

(** C3 on the unit square with the formula 1 at precision 2: the curve
    started at (0, 5) and the curve started at (1, 0.5) with the step 1. *)
Lemma printDField_overlay_unclosed_run :
  let pts :=
    [(F64.of_Z 0, F64.of_Z 0); (F64.of_Z 0, F64.of_Z 1);
     (F64.of_Z 1, F64.of_Z 0); (F64.of_Z 1, F64.of_Z 1)] in
  let picture overlay :=
    Returned
      ([Preamble; Axes (F64.of_Z 0) (F64.of_Z 0) (F64.of_Z 1) (F64.of_Z 1)]
       ++ map (fun p => fieldSegment (F64.of_Z 0) (F64.of_Z 0) (F64.of_Z 1)
                          (F64.of_Z 1) (fst p) (snd p) (F64.of_Z 1)) pts
       ++ overlay)%list in
  field64 100 "1" (F64.of_Z 0) (F64.of_Z 0) (F64.of_Z 1) (F64.of_Z 1)
    (F64.of_Z 1) (F64.of_Z 1) 2 true (F64.of_Z 1) (F64.of_Z 0) (F64.of_Z 5)
  = picture [CurveDraw; Postamble] /\
  field64 100 "1" (F64.of_Z 0) (F64.of_Z 0) (F64.of_Z 1) (F64.of_Z 1)
    (F64.of_Z 1) (F64.of_Z 1) 2 true (F64.of_Z 1) (F64.of_Z 1)
    (F64.of_dec 5 (-1))
  = picture
      [CurveDraw; PlotOpen; CurvePoint (F64.of_Z 1) (F64.of_dec 5 (-1));
       PlotClose; Postamble].
Proof.
  cbv zeta. split.
  - refine (proj1 (proj1 printDField_overlay_unclosed float float_arith
                     Formula.success Formula.evaluate 100%nat "1"
                     (F64.of_Z 0) (F64.of_Z 0) (F64.of_Z 1) (F64.of_Z 1)
                     (F64.of_Z 1) (F64.of_Z 1) 2%Z (F64.of_Z 1) (F64.of_Z 0)
                     (F64.of_Z 5) _ _ _ _ _) _).
    + vm_compute. reflexivity.
    + lia.
    + vm_compute. reflexivity.
    + vm_compute. reflexivity.
    + intros (_ & _ & Hhi). vm_compute in Hhi. discriminate.
  - refine (proj2 (proj1 printDField_overlay_unclosed float float_arith
                     Formula.success Formula.evaluate 100%nat "1"
                     (F64.of_Z 0) (F64.of_Z 0) (F64.of_Z 1) (F64.of_Z 1)
                     (F64.of_Z 1) (F64.of_Z 1) 2%Z (F64.of_Z 1) (F64.of_Z 1)
                     (F64.of_dec 5 (-1)) _ _ _ _ _) _ _ _ _).
    + vm_compute. reflexivity.
    + lia.
    + vm_compute. reflexivity.
    + vm_compute. reflexivity.
    + repeat split; vm_compute; reflexivity.
    + reflexivity.
    + intros (Hx & _). vm_compute in Hx. discriminate.
    + lia.
Defined.



(** C8 on the domain 0..1, 0..1 with steps 1 and 1: with a formula that
    does not parse nothing is written, with the formula 1 the four
    segments are. *)
Lemma printDField_all_or_nothing_run :
  field64 10 "0.3x" (F64.of_Z 0) (F64.of_Z 0) (F64.of_Z 1) (F64.of_Z 1)
    (F64.of_Z 1) (F64.of_Z 1) 2 false (F64.of_Z 1) (F64.of_Z 0) (F64.of_Z 0)
  = Threw (runtime_error "error parsing expr0.3x") /\
  exists buf,
    field64 10 "1" (F64.of_Z 0) (F64.of_Z 0) (F64.of_Z 1) (F64.of_Z 1)
      (F64.of_Z 1) (F64.of_Z 1) 2 false (F64.of_Z 1) (F64.of_Z 0)
      (F64.of_Z 0)
    = Returned buf /\
    List.length (field_segments buf) = 4%nat.
Proof.
  assert (G : exists pts,
    grid 10 (F64.of_Z 0) (F64.of_Z 0) (F64.of_Z 1) (F64.of_Z 1) (F64.of_Z 1)
      (F64.of_Z 1) = Some pts /\
    In (F64.of_Z 0, F64.of_Z 0) pts /\ List.length pts = 4%nat).
  { eexists. split; [vm_compute; reflexivity |].
    split; [left; reflexivity | reflexivity]. }
  destruct G as (pts & G & Hin & Hlen). split.
  - apply (proj1 (@printDField_all_or_nothing float float_arith Formula.success
                    Formula.evaluate 10 "0.3x" (F64.of_Z 0) (F64.of_Z 0)
                    (F64.of_Z 1) (F64.of_Z 1) (F64.of_Z 1) (F64.of_Z 1) 2
                    (F64.of_Z 1) (F64.of_Z 0) (F64.of_Z 0) false pts
                    ltac:(vm_compute; reflexivity) ltac:(lia) G)).
    exists (F64.of_Z 0, F64.of_Z 0). split; [exact Hin | reflexivity].
  - assert (E : exists buf,
      field64 10 "1" (F64.of_Z 0) (F64.of_Z 0) (F64.of_Z 1) (F64.of_Z 1)
        (F64.of_Z 1) (F64.of_Z 1) 2 false (F64.of_Z 1) (F64.of_Z 0)
        (F64.of_Z 0) = Returned buf).
    { eexists. vm_compute. reflexivity. }
    destruct E as (buf & E). exists buf. split; [exact E |].
    destruct (proj2 (@printDField_all_or_nothing float float_arith Formula.success
                       Formula.evaluate 10 "1" (F64.of_Z 0) (F64.of_Z 0)
                       (F64.of_Z 1) (F64.of_Z 1) (F64.of_Z 1) (F64.of_Z 1) 2
                       (F64.of_Z 1) (F64.of_Z 0) (F64.of_Z 0) false pts
                       ltac:(vm_compute; reflexivity) ltac:(lia) G) buf E)
      as [Hseg _].
    now rewrite Hseg, length_map.
Defined.

End FieldRuns.

(** ** The table of the stepper *)

Section StepperTable.

Context {D : Type} {AD : Arith D}.

Local Open Scope dbl_scope.

Variable tep_success : string -> D -> D -> bool.
Variable tep_evaluate : string -> D -> D -> D.

Variable fn : string.
Variables step x0 y0 end_ : D.
Variable precision : Z.

Abbreviation h := (roundToPrecision step precision).
Abbreviation next := (euler_next tep_evaluate fn step precision).
Abbreviation emit := (euler_emit tep_evaluate fn step precision).
Abbreviation state := (euler_state tep_evaluate fn step x0 y0 precision).


End StepperTable.

(** ** The rounder and the change of sign *)

Section RounderSign.

Local Open Scope Z_scope.

Lemma binary_round_aux_opp (s : bool) m e l :
  SFopp (binary_round_aux prec emax s m e l)
  = binary_round_aux prec emax (negb s) m e l.
Proof.
  unfold binary_round_aux.
  destruct (shr_fexp prec emax m e l) as [mrs' e'].
  destruct (shr_fexp prec emax _ e' loc_Exact) as [mrs'' e''].
  destruct (shr_m mrs''); [reflexivity | | reflexivity].
  now destruct (e'' <=? emax - prec).
Qed.

Lemma SFmul_opp_l (x y : spec_float) :
  SFmul prec emax (SFopp x) y = SFopp (SFmul prec emax x y).
Proof.
  destruct x as [sx | sx | | sx mx ex], y as [sy | sy | | sy my ey];
    cbn [SFmul SFopp]; rewrite <- ?negb_xorb_l; try reflexivity.
  symmetry. apply binary_round_aux_opp.
Qed.

Lemma SFdiv_opp_l (x y : spec_float) :
  SFdiv prec emax (SFopp x) y = SFopp (SFdiv prec emax x y).
Proof.
  destruct x as [sx | sx | | sx mx ex], y as [sy | sy | | sy my ey];
    cbn [SFdiv SFopp]; rewrite <- ?negb_xorb_l; try reflexivity.
  destruct (SFdiv_core_binary prec emax (Z.pos mx) ex (Z.pos my) ey)
    as [[mz ez] lz].
  symmetry. apply binary_round_aux_opp.
Qed.

Lemma opp_involutive (a : float) : PrimFloat.opp (PrimFloat.opp a) = a.
Proof.
  apply Prim2SF_inj. rewrite !opp_spec.
  destruct (Prim2SF a); cbn; now rewrite ?negb_involutive.
Qed.

Lemma mul_opp_l (a b : float) :
  PrimFloat.mul (PrimFloat.opp a) b = PrimFloat.opp (PrimFloat.mul a b).
Proof.
  apply Prim2SF_inj. rewrite opp_spec, !mul_spec, opp_spec.
  apply SFmul_opp_l.
Qed.

Lemma div_opp_l (a b : float) :
  PrimFloat.div (PrimFloat.opp a) b = PrimFloat.opp (PrimFloat.div a b).
Proof.
  apply Prim2SF_inj. rewrite opp_spec, !div_spec, opp_spec.
  apply SFdiv_opp_l.
Qed.

Lemma round_opp_f64 (w : float) :
  F64.round (PrimFloat.opp w) = PrimFloat.opp (F64.round w).
Proof.
  unfold F64.round. rewrite opp_spec.
  destruct (Prim2SF w) as [s | s | | s m e]; cbn [SFopp]; try reflexivity.
  destruct (0 <=? e); [reflexivity |].
  destruct s; cbn [negb]; [| reflexivity].
  now rewrite opp_involutive.
Qed.

(** On binary64 the rounder commutes with the change of sign, at every
    double (infinities and NaN included) and every precision: halves are
    rounded away from zero on both sides. *)
Theorem roundToPrecision_opp (v : float) (p : Z) :
  roundToPrecision (PrimFloat.opp v) p = PrimFloat.opp (roundToPrecision v p).
Proof.
  unfold roundToPrecision. cbn [dmul ddiv std_round std_pow10 float_arith].
  now rewrite mul_opp_l, round_opp_f64, div_opp_l.
Qed.

End RounderSign.

(** ** A step that rounds to zero, on binary64 *)

Section ZeroStepBinary64.

Local Open Scope Z_scope.

(** Within the bound of the idempotence the rounded value is a zero or a
    finite number. *)
Lemma roundToPrecision_isfinite_f64 (v : float) (p : Z) :
  0 <= p <= 22 ->
  PrimFloat.ltb (PrimFloat.abs (PrimFloat.mul v (F64.of_dec 1 p)))
    (F64.of_Z (2 ^ 50)) = true ->
  F64.isfinite (roundToPrecision v p) = true.
Proof.
  intros Hp Hsmall. unfold roundToPrecision, F64.isfinite.
  cbn [dmul ddiv std_round std_pow10 float_arith].
  destruct (scale_finite Hp) as (mS & eS & Hs & HmS & HeS).
  destruct (round_small Hsmall) as (sg & N & HN & ->).
  rewrite div_spec, Hs.
  destruct (Z.eq_dec N 0) as [-> | Hnz].
  - now rewrite Prim2SF_signed_zero.
  - destruct (@of_Z_finite N) as (mx & ex & Hx & Hnx & Hex & Hvx).
    { change (2 ^ 53) with (8 * 2 ^ 50). lia. }
    rewrite (Prim2SF_signed sg _ Hx).
    destruct (@SFdiv_finite sg mx ex false mS eS Hnx HmS)
      as (mr & er & Hdiv & _); try lia.
    change (SF64div (S754_finite sg mx ex) (S754_finite false mS eS))
      with (SFdiv 53 1024 (S754_finite sg mx ex) (S754_finite false mS eS)).
    now rewrite Hdiv.
Qed.

(** Rounding a zero gives the same zero, at these precisions. *)
Lemma roundToPrecision_zero_f64 (x : float) (s : bool) (p : Z) :
  0 <= p <= 22 ->
  Prim2SF x = S754_zero s -> roundToPrecision x p = x.
Proof.
  intros Hp Hx. destruct (scale_finite Hp) as (mS & eS & Hs & _).
  unfold roundToPrecision.
  cbn [dmul ddiv std_round std_pow10 float_arith].
  assert (Hm : PrimFloat.mul x (F64.of_dec 1 p) = x).
  { apply Prim2SF_inj. rewrite mul_spec, Hx, Hs. cbn.
    now rewrite xorb_false_r. }
  rewrite Hm. unfold F64.round. rewrite Hx.
  apply Prim2SF_inj. rewrite div_spec, Hx, Hs. cbn.
  now rewrite xorb_false_r.
Qed.

Lemma eqb_zero (a : float) :
  PrimFloat.eqb a (F64.of_Z 0) = true -> exists s, Prim2SF a = S754_zero s.
Proof.
  rewrite eqb_spec.
  replace (Prim2SF (F64.of_Z 0)) with (S754_zero false)
    by (vm_compute; reflexivity).
  destruct (Prim2SF a) as [s | s | | s m e]; cbn; try discriminate.
  - now exists s.
  - now destruct s.
  - now destruct s.
Qed.

Lemma add_zero_finite (x h : float) (s sh : bool) m e :
  Prim2SF x = S754_finite s m e -> Prim2SF h = S754_zero sh ->
  PrimFloat.add x h = x.
Proof.
  intros Hx Hh. apply Prim2SF_inj. now rewrite add_spec, Hx, Hh.
Qed.

Lemma add_zero_zero (x h : float) (s sh : bool) :
  Prim2SF x = S754_zero s -> Prim2SF h = S754_zero sh ->
  exists s', Prim2SF (PrimFloat.add x h) = S754_zero s' /\
    PrimFloat.add (PrimFloat.add x h) h = PrimFloat.add x h.
Proof.
  intros Hx Hh.
  assert (E : Prim2SF (PrimFloat.add x h)
              = S754_zero (if Bool.eqb s sh then s else false)).
  { rewrite add_spec, Hx, Hh. now destruct s, sh. }
  eexists. split; [exact E |].
  apply Prim2SF_inj. rewrite (add_spec (PrimFloat.add x h)), E, Hh.
  now destruct s, sh.
Qed.

Lemma ltb_zero_zero (a x x' : float) (s s' : bool) :
  Prim2SF x = S754_zero s -> Prim2SF x' = S754_zero s' ->
  PrimFloat.ltb a x = false -> PrimFloat.ltb a x' = false.
Proof.
  intros Hx Hx'. rewrite !ltb_spec, Hx, Hx'.
  now destruct (Prim2SF a) as [sa | sa | | sa ma ea].
Qed.

Variable tep_success : string -> float -> float -> bool.
Variable tep_evaluate : string -> float -> float -> float.

(** A step that rounds to a zero never moves a start within the bound of
    the idempotence. *)
Lemma euler_zero_step_f64 fuel fn (step x0 y0 end_ : float)
  (precision : Z) :
  0 <= precision <= 22 ->
  PrimFloat.ltb (PrimFloat.abs (PrimFloat.mul x0 (F64.of_dec 1 precision)))
    (F64.of_Z (2 ^ 50)) = true ->
  tep_success fn (roundToPrecision x0 precision)
    (roundToPrecision y0 precision) = true ->
  PrimFloat.eqb (roundToPrecision step precision) (F64.of_Z 0) = true ->
  PrimFloat.ltb end_ (roundToPrecision x0 precision) = false ->
  eulersMethod tep_success tep_evaluate fuel fn step x0 y0 end_ precision
    = Diverged.
Proof.
  intros Hp Hsmall Hok Hstep Hend.
  rewrite eulersMethod_loop by exact Hok.
  destruct (eqb_zero Hstep) as [sh Hh].
  pose proof (roundToPrecision_isfinite_f64 Hp Hsmall) as Hfin.
  destruct (roundToPrecision_idempotent_f64 Hp Hsmall) as [Hidem _].
  unfold F64.isfinite in Hfin.
  destruct (Prim2SF (roundToPrecision x0 precision))
    as [s | s | | s m e] eqn:Hx; try discriminate.
  - (* a zero: after one step at most the zero is kept *)
    destruct (@add_zero_zero _ _ _ _ Hx Hh) as (s' & Hx' & Hstay).
    destruct fuel as [| n]; cbn -[roundToPrecision];
      cbn [dlt float_arith]; rewrite Hend; [reflexivity |].
    cbn [dadd float_arith].
    rewrite (@roundToPrecision_zero_f64 _ _ _ Hp Hx').
    apply euler_loop_stationary.
    + cbn [dlt float_arith]. exact (@ltb_zero_zero _ _ _ _ _ Hx Hx' Hend).
    + cbn [dadd float_arith]. rewrite Hstay.
      exact (@roundToPrecision_zero_f64 _ _ _ Hp Hx').
  - apply euler_loop_stationary; [exact Hend |].
    cbn [dadd float_arith]. rewrite (@add_zero_finite _ _ _ _ _ _ Hx Hh).
    exact Hidem.
Qed.

(** On binary64, whenever the step rounds to zero the stepper never
    leaves its loop: for the precisions 0..22, a start x0 whose scaled
    magnitude is below 2^50 and whose rounding is not beyond the end, and a
    formula that is evaluable there, the call does not return whatever
    number of iterations it may run. *)
Theorem eulersMethod_zero_step_f64 fuel fn (step x0 y0 end_ : float)
  (precision : Z) :
  0 <= precision <= 22 ->
  PrimFloat.ltb (PrimFloat.abs (PrimFloat.mul x0 (F64.of_dec 1 precision)))
    (F64.of_Z (2 ^ 50)) = true ->
  tep_success fn (roundToPrecision x0 precision)
    (roundToPrecision y0 precision) = true ->
  PrimFloat.eqb (roundToPrecision step precision) (F64.of_Z 0) = true ->
  PrimFloat.ltb end_ (roundToPrecision x0 precision) = false ->
  eulersMethod tep_success tep_evaluate fuel fn step x0 y0 end_ precision
    = Diverged.
Proof. apply euler_zero_step_f64. Qed.

End ZeroStepBinary64.

(** ** The stepper at the end of its range *)

Section StepperEdge.

Local Open Scope string_scope.

(** C10.  The stepper started at the end of its range does not always
    emit one record.  The first half holds: with a formula evaluable at
    the start, a rounded start beyond x_end gives no record, in any
    arithmetic.  The second half fails where the stepper lacks the check
    of its step: on binary64, for the precisions 0..22 and a start whose
    scaled magnitude is below 2^50, when round(x0) == x_end and the step
    rounds to zero the call never returns, whatever number of iterations
    it may run, so no record is emitted; so it is with the formula 1, the
    step 0, x0 = 1, y0 = 0, x_end = 1 at precision 2. *)
Theorem eulersMethod_edge :
  (forall (D : Type) (AD : Arith D) tep_success tep_evaluate fuel fn
          (step x0 y0 end_ : D) precision,
     tep_success fn (roundToPrecision x0 precision)
       (roundToPrecision y0 precision) = true ->
     dlt end_ (roundToPrecision x0 precision) = true ->
     eulersMethod tep_success tep_evaluate fuel fn step x0 y0 end_ precision
     = Returned []) /\
  (forall tep_success tep_evaluate fuel fn (step x0 y0 end_ : float)
          precision,
     (0 <= precision <= 22)%Z ->
     PrimFloat.ltb (PrimFloat.abs (PrimFloat.mul x0 (F64.of_dec 1 precision)))
       (F64.of_Z (2 ^ 50)) = true ->
     tep_success fn (roundToPrecision x0 precision)
       (roundToPrecision y0 precision) = true ->
     PrimFloat.eqb (roundToPrecision step precision) (F64.of_Z 0) = true ->
     PrimFloat.eqb (roundToPrecision x0 precision) end_ = true ->
     eulersMethod tep_success tep_evaluate fuel fn step x0 y0 end_ precision
     = Diverged) /\
  ((roundToPrecision (F64.of_Z 1) 2 =? F64.of_Z 1)%D = true /\
   forall fuel,
     eulersMethod Formula.success Formula.evaluate fuel "1" (F64.of_Z 0)
       (F64.of_Z 1) (F64.of_Z 0) (F64.of_Z 1) 2 = Diverged).
Proof.
  split; [| split].
  - intros D AD tep_success tep_evaluate fuel fn step x0 y0 end_ precision.
    apply eulersMethod_beyond.
  - intros tep_success tep_evaluate fuel fn step x0 y0 end_ precision
      Hp Hsmall Hok Hstep Hend.
    apply euler_zero_step_f64; try assumption.
    exact (deq_not_dlt (D := float) _ _ Hend).
  - split; [vm_compute; reflexivity |].
    intros fuel. rewrite eulersMethod_loop by reflexivity.
    apply euler_loop_stationary; vm_compute; reflexivity.
Qed.

(** C10 with the formula 1 at precision 1: the start x0 = 3 beyond
    x_end = 2 gives no record, and the step 0.04, which rounds to zero,
    from x0 = 2 to x_end = 2 never returns. *)
Lemma eulersMethod_edge_run :
  eulersMethod Formula.success Formula.evaluate 5 "1" (F64.of_dec 5 (-1))
    (F64.of_Z 3) (F64.of_Z 0) (F64.of_Z 2) 1 = Returned [] /\
  eulersMethod Formula.success Formula.evaluate 1000 "1" (F64.of_dec 4 (-2))
    (F64.of_Z 2) (F64.of_Z 0) (F64.of_Z 2) 1 = Diverged.
Proof.
  split.
  - apply (proj1 eulersMethod_edge float float_arith);
      vm_compute; reflexivity.
  - apply (proj1 (proj2 eulersMethod_edge));
      [lia | vm_compute; reflexivity ..].
Defined.

End StepperEdge.

(** ** The characters of the cells *)

Section Characters.

Local Open Scope string_scope.

Lemma all_app P s t : all P (s ++ t) = all P s && all P t.
Proof.
  unfold all. induction s as [| c s IH]; cbn; [reflexivity |].
  now rewrite IH, andb_assoc.
Qed.

Lemma all_substring P s : forall n m,
  all P s = true -> all P (substring n m s) = true.
Proof.
  unfold all. induction s as [| c s IH]; intros n m H; cbn in *.
  - now destruct n, m.
  - apply andb_prop in H. destruct H as [Hc Hs].
    destruct n as [| n].
    + destruct m as [| m]; cbn; [reflexivity |].
      rewrite Hc. now apply IH.
    + now apply IH.
Qed.

Lemma all_zeros P n : P "0"%char = true -> all P (Text.zeros n) = true.
Proof.
  intros H. unfold Text.zeros, all.
  induction n as [| [| n] IH]; cbn in *; [reflexivity | now rewrite H |].
  now rewrite H.
Qed.

Lemma all_uint (d : Decimal.uint) :
  all cell_char (NilEmpty.string_of_uint d) = true.
Proof. unfold all. induction d; cbn; auto. Qed.

Lemma all_uint_zero (d : Decimal.uint) :
  all cell_char (NilZero.string_of_uint d) = true.
Proof. destruct d; try apply all_uint. reflexivity. Qed.

Lemma all_decimal p n : all cell_char (Text.decimal p n) = true.
Proof.
  unfold Text.decimal.
  set (ds := Text.zeros _ ++ _).
  assert (H : all cell_char ds = true).
  { unfold ds. rewrite all_app, all_zeros by reflexivity.
    apply all_uint_zero. }
  destruct (Nat.eqb p 0); [exact H |].
  rewrite !all_app, !all_substring by exact H. reflexivity.
Qed.

Lemma all_fixed p v : all cell_char (Text.fixed p v) = true.
Proof.
  unfold Text.fixed.
  destruct (Prim2SF v) as [s | s | | s m e].
  - rewrite all_app, all_decimal. now destruct s.
  - now destruct s.
  - reflexivity.
  - rewrite all_app, all_decimal. now destruct s.
Qed.

Lemma all_stream_fixed p v : all cell_char (Text.stream_fixed p v) = true.
Proof. apply all_fixed. Qed.

Lemma all_count P c s :
  all P s = true -> P c = false -> Fmt.count c s = 0%nat.
Proof.
  unfold all. induction s as [| d s IH]; cbn; [reflexivity |].
  intros H Hc. apply andb_prop in H. destruct H as [Hd Hs].
  rewrite IH by assumption.
  destruct (Ascii.eqb_spec c d) as [-> | _]; [congruence | reflexivity].
Qed.

Lemma count_app c s t :
  Fmt.count c (s ++ t) = (Fmt.count c s + Fmt.count c t)%nat.
Proof. induction s as [| d s IH]; cbn; [reflexivity |]. rewrite IH. lia. Qed.

Lemma width_app s t : Fmt.width (s ++ t) = (Fmt.width s + Fmt.width t)%nat.
Proof.
  induction s as [| c s IH]; cbn; [reflexivity |].
  rewrite IH. now destruct (Fmt.continuation c).
Qed.

Lemma cell_char_ascii c : cell_char c = true -> Fmt.continuation c = false.
Proof.
  unfold cell_char, Fmt.continuation. intros H.
  repeat (apply orb_prop in H; destruct H as [H | H]);
    try (apply Ascii.eqb_eq in H; subst c; reflexivity).
  apply andb_prop in H. destruct H as [_ H]. apply Nat.leb_le in H.
  destruct (Nat.leb_spec 128 (nat_of_ascii c)); [lia | reflexivity].
Qed.

Lemma all_width s :
  all cell_char s = true -> Fmt.width s = String.length s.
Proof.
  unfold all. induction s as [| c s IH]; cbn; [reflexivity |].
  intros H. apply andb_prop in H. destruct H as [Hc Hs].
  now rewrite (cell_char_ascii _ Hc), IH.
Qed.

End Characters.

Section Cells.

Local Open Scope string_scope.

Lemma string_length_app s t :
  String.length (s ++ t) = (String.length s + String.length t)%nat.
Proof. induction s as [| c s IH]; cbn; [reflexivity |]. now rewrite IH. Qed.

Lemma string_app_nil_r s : s ++ "" = s.
Proof. induction s as [| c s IH]; cbn; [reflexivity |]. now rewrite IH. Qed.

Lemma string_app_assoc s t u : (s ++ t) ++ u = s ++ t ++ u.
Proof. induction s as [| c s IH]; cbn; [reflexivity |]. now rewrite IH. Qed.

Lemma string_concat_cons s l : concat "" (s :: l) = s ++ concat "" l.
Proof. destruct l; cbn; [now rewrite string_app_nil_r | reflexivity]. Qed.

Lemma decimal_nonempty p n : (1 <= String.length (Text.decimal p n))%nat.
Proof.
  unfold Text.decimal. set (ds := Text.zeros _ ++ _).
  destruct (Nat.eqb p 0) eqn:E.
  - unfold ds. rewrite string_length_app.
    assert (1 <= String.length
                   (NilZero.string_of_uint (N.to_uint (Z.to_N n))))%nat.
    { destruct (N.to_uint (Z.to_N n)); cbn; lia. }
    lia.
  - rewrite !string_length_app. cbn. lia.
Qed.

Lemma fixed_nonempty p v : (1 <= String.length (Text.fixed p v))%nat.
Proof.
  unfold Text.fixed.
  destruct (Prim2SF v) as [s | s | | s m e]; rewrite ?string_length_app;
    try (pose proof (decimal_nonempty p 0));
    try (destruct s; cbn; lia); try (cbn; lia).
  match goal with
  | |- context [Text.decimal p ?n] => pose proof (decimal_nonempty p n)
  end.
  lia.
Qed.

(** A cell is a number between two spaces: it holds none of the
    separators, no byte beyond ASCII, and three characters at least. *)
Lemma cell_shape (prec : Z) (v : float) (c : ascii) :
  let s := " " ++ Text.stream_fixed prec v ++ " " in
  (separator c -> Fmt.count c s = 0%nat) /\
  Fmt.width s = String.length s /\
  (3 <= String.length s)%nat.
Proof.
  cbv zeta. pose proof (all_stream_fixed prec v) as H.
  split; [| split].
  - intros [Hc Hsp]. cbn [append Fmt.count].
    rewrite count_app, (@all_count _ c _ H Hc). cbn.
    destruct (Ascii.eqb_spec c " "); [contradiction | reflexivity].
  - cbn [append Fmt.width String.length]. cbn [Fmt.continuation].
    rewrite width_app, string_length_app, (@all_width _ H). reflexivity.
  - cbn [append String.length]. rewrite string_length_app.
    pose proof (fixed_nonempty
                  (Z.to_nat (if (prec <? 0)%Z then 6%Z else prec)) v).
    unfold Text.stream_fixed. cbn. lia.
Qed.

Lemma cells_shape (v : stepValues float) (c : ascii) s :
  In s (cells v) ->
  (separator c -> Fmt.count c s = 0%nat) /\
  Fmt.width s = String.length s /\
  (3 <= String.length s)%nat.
Proof.
  intros [<- | [<- | [<- | [<- | []]]]]; apply cell_shape.
Qed.

End Cells.

(** ** printCsv *)

Section PrintersFacts.

Local Open Scope string_scope.

Lemma separator_comma : separator ",".
Proof. split; [reflexivity | discriminate]. Qed.

Lemma separator_nl : separator "010".
Proof. split; [reflexivity | discriminate]. Qed.

Lemma separator_amp : separator "&".
Proof. split; [reflexivity | discriminate]. Qed.

Lemma separator_bar : separator "|".
Proof. split; [reflexivity | discriminate]. Qed.

Lemma count_cell c (v : stepValues float) :
  separator c ->
  Fmt.count c (Text.x v) = 0%nat /\ Fmt.count c (Text.y v) = 0%nat /\
  Fmt.count c (Text.yp v) = 0%nat /\ Fmt.count c (Text.dy v) = 0%nat.
Proof.
  intros Hc.
  repeat split; apply (@cells_shape v c); cbn; auto.
Qed.

(** [printCsv] writes the header and one line for each record, in their
    order; every line holds exactly three commas, that is four fields,
    and the numbers contain neither a comma nor a line break. *)
Theorem printCsv_lines (values : list (stepValues float)) (precision : Z) :
  exists lines,
    printCsv values precision = unlines lines /\
    List.length lines = S (List.length values) /\
    Forall (fun l => Fmt.count "," l = 3%nat /\ Fmt.count "010" l = 0%nat)
      lines /\
    forall k v, nth_error values k = Some v ->
      nth_error lines (S k)
      = Some (Text.x v ++ "," ++ Text.y v ++ "," ++ Text.yp v ++ "," ++
              Text.dy v).
Proof.
  exists (("x,y,y'," ++ Fmt.Delta ++ "y")
          :: map (fun v => Text.x v ++ "," ++ Text.y v ++ "," ++ Text.yp v
                           ++ "," ++ Text.dy v) values).
  split; [| split; [| split]].
  - unfold printCsv, unlines. cbn [map].
    rewrite string_concat_cons, map_map. f_equal.
    f_equal. apply map_ext. intros v. unfold csv_line.
    now rewrite !string_app_assoc.
  - cbn. now rewrite length_map.
  - constructor; [split; reflexivity |].
    apply Forall_forall. intros l Hl. apply in_map_iff in Hl.
    destruct Hl as (v & <- & _).
    destruct (count_cell v separator_comma) as (H1 & H2 & H3 & H4).
    destruct (count_cell v separator_nl) as (N1 & N2 & N3 & N4).
    rewrite !count_app, H1, H2, H3, H4, N1, N2, N3, N4. split; reflexivity.
  - intros k v Hk. cbn [nth_error]. now rewrite nth_error_map, Hk.
Qed.

End PrintersFacts.

(** ** The digits of a counter *)

Section Digits.

Local Open Scope string_scope.

Lemma nb_digits_succ d :
  (Decimal.nb_digits d <= Decimal.nb_digits (Decimal.Little.succ d))%nat.
Proof. induction d; cbn; lia. Qed.

Lemma nb_digits_little k : forall acc,
  (Decimal.nb_digits acc
   <= Decimal.nb_digits (Nat.to_little_uint k acc))%nat.
Proof.
  induction k as [| k IH]; intros acc; cbn; [lia |].
  pose proof (nb_digits_succ acc). pose proof (IH (Decimal.Little.succ acc)).
  lia.
Qed.

Lemma to_little_uint_add n : forall k acc,
  Nat.to_little_uint (n + k) acc
  = Nat.to_little_uint k (Nat.to_little_uint n acc).
Proof. induction n as [| n IH]; intros k acc; cbn; [reflexivity | apply IH]. Qed.

Lemma length_string_of_uint d :
  String.length (NilEmpty.string_of_uint d) = Decimal.nb_digits d.
Proof. induction d; cbn; congruence. Qed.

Lemma length_to_string n :
  String.length (Fmt.to_string n)
  = Decimal.nb_digits (Nat.to_little_uint n Decimal.zero).
Proof.
  unfold Fmt.to_string, Nat.to_uint.
  pose proof (nb_digits_little n Decimal.zero) as H. cbn in H.
  rewrite <- (DecimalFacts.nb_digits_rev (Nat.to_little_uint n Decimal.zero)) in H |- *.
  destruct (Decimal.rev _) eqn:E; cbn in H; try lia;
    cbn [NilZero.string_of_uint]; apply length_string_of_uint.
Qed.

(** A smaller number has no more digits. *)
Lemma length_to_string_le k n :
  (k <= n)%nat ->
  (String.length (Fmt.to_string k) <= String.length (Fmt.to_string n))%nat.
Proof.
  intros H. rewrite !length_to_string.
  replace n with (k + (n - k))%nat by lia.
  rewrite to_little_uint_add. apply nb_digits_little.
Qed.

Lemma all_to_string n : all cell_char (Fmt.to_string n) = true.
Proof. apply all_uint_zero. Qed.

End Digits.

(** ** The widths of the columns *)

Section Widths.

Local Open Scope nat_scope.

Lemma fold_max_ge (l : list nat) : forall a,
  a <= fold_left Nat.max l a /\
  (forall b, In b l -> b <= fold_left Nat.max l a) /\
  (fold_left Nat.max l a = a \/ In (fold_left Nat.max l a) l).
Proof.
  induction l as [| c l IH]; intros a; cbn.
  - split; [lia |]. split; [intros b [] | now left].
  - destruct (IH (Nat.max a c)) as (H1 & H2 & H3). split; [lia |]. split.
    + intros b [<- | Hb]; [lia | now apply H2].
    + destruct H3 as [H3 | H3]; [| now right; right].
      destruct (Nat.max_spec a c) as [[_ E] | [_ E]]; rewrite E in *.
      * right; left. now rewrite H3.
      * now left.
Qed.

Lemma widen_max (w : colwidth) (v : stepValues float) :
  widen w v =
  mkColwidth (Nat.max (col_ind w) (String.length (Text.x v)))
    (Nat.max (col_dep w) (String.length (Text.y v)))
    (Nat.max (col_der w) (String.length (Text.yp v)))
    (Nat.max (col_dy w) (String.length (Text.dy v))).
Proof.
  unfold widen, getCols. cbn [col_ind col_dep col_der col_dy]. f_equal;
    match goal with
    | |- (if ?a <? ?b then _ else _) = _ => destruct (Nat.ltb_spec a b); lia
    end.
Qed.

Lemma fold_widen (values : list (stepValues float)) : forall w,
  fold_left widen values w =
  mkColwidth
    (fold_left Nat.max (map (fun v => String.length (Text.x v)) values)
       (col_ind w))
    (fold_left Nat.max (map (fun v => String.length (Text.y v)) values)
       (col_dep w))
    (fold_left Nat.max (map (fun v => String.length (Text.yp v)) values)
       (col_der w))
    (fold_left Nat.max (map (fun v => String.length (Text.dy v)) values)
       (col_dy w)).
Proof.
  induction values as [| v values IH]; intros w; cbn [fold_left map].
  - now destruct w.
  - rewrite IH, widen_max. reflexivity.
Qed.

Lemma fold_max_attained (A : Type) (f : A -> nat) (l : list A) :
  l <> [] ->
  exists v, In v l /\ f v = fold_left Nat.max (map f l) 0.
Proof.
  intros Hne. destruct (fold_max_ge (map f l) 0) as (_ & H2 & [H3 | H3]).
  - destruct l as [| v l]; [contradiction |]. exists v. split; [now left |].
    specialize (H2 (f v) (or_introl eq_refl)). lia.
  - apply in_map_iff in H3. destruct H3 as (v & E & Hv). now exists v.
Qed.

(** The widths that [eulersMethod] hands to its printers: each is the
    length of the longest string of its column, so that no string of the
    table is longer than its column and, in a table that is not empty,
    one string fills it; the widths of the empty table are 0. *)
Theorem maxwidths_longest (values : list (stepValues float)) :
  (forall v, In v values ->
     String.length (Text.x v) <= col_ind (maxwidths values) /\
     String.length (Text.y v) <= col_dep (maxwidths values) /\
     String.length (Text.yp v) <= col_der (maxwidths values) /\
     String.length (Text.dy v) <= col_dy (maxwidths values)) /\
  (values <> [] ->
     (exists v, In v values /\
        String.length (Text.x v) = col_ind (maxwidths values)) /\
     (exists v, In v values /\
        String.length (Text.y v) = col_dep (maxwidths values)) /\
     (exists v, In v values /\
        String.length (Text.yp v) = col_der (maxwidths values)) /\
     (exists v, In v values /\
        String.length (Text.dy v) = col_dy (maxwidths values))) /\
  (values = [] -> maxwidths values = mkColwidth 0 0 0 0).
Proof.
  unfold maxwidths. rewrite fold_widen. cbn [col_ind col_dep col_der col_dy].
  split; [| split].
  - intros v Hv.
    repeat split;
      match goal with
      | |- _ <= fold_left Nat.max (map ?f values) 0 =>
          apply (proj1 (proj2 (fold_max_ge (map f values) 0)));
          apply (in_map f), Hv
      end.
  - intros Hne. repeat split; apply fold_max_attained, Hne.
  - now intros ->.
Qed.

End Widths.

(** ** printTable *)

Section TableFacts.

Local Open Scope string_scope.

Lemma width_spaces n : Fmt.width (Fmt.spaces n) = n.
Proof.
  unfold Fmt.spaces. induction n as [| n IH]; [reflexivity |].
  cbn [repeat]. rewrite string_concat_cons, width_app, IH. reflexivity.
Qed.

Lemma count_spaces c n : c <> " "%char -> Fmt.count c (Fmt.spaces n) = 0%nat.
Proof.
  intros Hc. unfold Fmt.spaces. induction n as [| n IH]; [reflexivity |].
  cbn [repeat]. rewrite string_concat_cons, count_app, IH. cbn.
  destruct (Ascii.eqb_spec c " "); [contradiction | reflexivity].
Qed.

Lemma width_right w s : Fmt.width (Fmt.right w s) = Nat.max w (Fmt.width s).
Proof. unfold Fmt.right. rewrite width_app, width_spaces. lia. Qed.

Lemma count_right c w s :
  c <> " "%char -> Fmt.count c (Fmt.right w s) = Fmt.count c s.
Proof.
  intros Hc. unfold Fmt.right. now rewrite count_app, count_spaces.
Qed.

Lemma width_table_line nm xm ym yp dy n x y yp' dy' :
  Fmt.width (table_line nm xm ym yp dy n x y yp' dy')
  = (Nat.max nm (Fmt.width n) + Nat.max xm (Fmt.width x)
     + Nat.max ym (Fmt.width y) + Nat.max yp (Fmt.width yp')
     + Nat.max dy (Fmt.width dy') + 4)%nat.
Proof.
  unfold table_line. rewrite !width_app, !width_right.
  change (Fmt.width "|") with 1%nat. lia.
Qed.

Lemma count_table_line c nm xm ym yp dy n x y yp' dy' :
  c <> " "%char ->
  Fmt.count c (table_line nm xm ym yp dy n x y yp' dy')
  = (Fmt.count c n + Fmt.count c x + Fmt.count c y + Fmt.count c yp'
     + Fmt.count c dy' + 4 * Fmt.count c "|")%nat.
Proof.
  intros Hc. unfold table_line.
  rewrite !count_app, !count_right by exact Hc. cbn. lia.
Qed.

(** The rows of the table, as lines. *)
Lemma table_rows_lines nm xm ym yp dy values : forall n,
  table_rows nm xm ym yp dy n values
  = unlines (map (fun kv =>
               table_line nm xm ym yp dy (Fmt.to_string (fst kv))
                 (Text.x (snd kv)) (Text.y (snd kv)) (Text.yp (snd kv))
                 (Text.dy (snd kv)))
             (combine (seq n (List.length values)) values)).
Proof.
  unfold unlines.
  induction values as [| v values IH]; intros n; [reflexivity |].
  cbn [table_rows List.length seq combine map fst snd].
  now rewrite string_concat_cons, IH.
Qed.

Lemma maxwidths_ge (values : list (stepValues float)) v :
  In v values ->
  (String.length (Text.x v) <= col_ind (maxwidths values) /\
   String.length (Text.y v) <= col_dep (maxwidths values) /\
   String.length (Text.yp v) <= col_der (maxwidths values) /\
   String.length (Text.dy v) <= col_dy (maxwidths values))%nat.
Proof.
  intros Hv. unfold maxwidths. rewrite fold_widen.
  cbn [col_ind col_dep col_der col_dy].
  repeat split;
    match goal with
    | |- (_ <= fold_left Nat.max (map ?f values) 0)%nat =>
        apply (proj1 (proj2 (fold_max_ge (map f values) 0)));
        apply (in_map f), Hv
    end.
Qed.

(** [printTable] with the widths of [eulersMethod] writes the line of the
    titles and one line for each record; every line holds exactly four
    bars and no line break of its own, and all lines have the same
    width: the columns are aligned.  In a table that is not empty this
    width is the sum of the five column widths and of the four bars. *)
Theorem printTable_aligned (values : list (stepValues float))
  (precision : Z) :
  let w := maxwidths values in
  let nm :=
    Nat.max (String.length (Fmt.to_string (List.length values))) 2 in
  exists lines,
    printTable values w precision = unlines lines /\
    List.length lines = S (List.length values) /\
    Forall (fun l => Fmt.count "|" l = 4%nat /\ Fmt.count "010" l = 0%nat)
      lines /\
    (forall l l', In l lines -> In l' lines -> Fmt.width l = Fmt.width l') /\
    (values <> [] ->
     forall l, In l lines ->
       Fmt.width l
       = (nm + col_ind w + col_dep w + col_der w + col_dy w + 4)%nat).
Proof.
  intros w nm.
  set (row := fun kv : nat * stepValues float =>
         table_line nm (col_ind w) (col_dep w) (col_der w) (col_dy w)
           (Fmt.to_string (fst kv)) (Text.x (snd kv)) (Text.y (snd kv))
           (Text.yp (snd kv)) (Text.dy (snd kv))).
  set (header := table_line nm (col_ind w) (col_dep w) (col_der w) (col_dy w)
                   "n " "x " "y " "y' " (Fmt.Delta ++ "y ")).
  set (rows := map row (combine (seq 0 (List.length values)) values)).
  assert (Hrow : forall l, In l rows ->
    Fmt.count "|" l = 4%nat /\ Fmt.count "010" l = 0%nat /\
    Fmt.width l
    = (nm + col_ind w + col_dep w + col_der w + col_dy w + 4)%nat).
  { intros l Hl. apply in_map_iff in Hl. destruct Hl as ([k v] & <- & Hkv).
    pose proof (in_combine_l _ _ _ _ Hkv) as Hk.
    pose proof (in_combine_r _ _ _ _ Hkv) as Hv.
    apply in_seq in Hk. unfold row. cbn [fst snd].
    destruct (count_cell v separator_bar) as (B1 & B2 & B3 & B4).
    destruct (count_cell v separator_nl) as (N1 & N2 & N3 & N4).
    pose proof (all_to_string k) as Hd.
    rewrite !count_table_line by discriminate.
    rewrite B1, B2, B3, B4, N1, N2, N3, N4.
    rewrite (@all_count _ "|"%char _ Hd eq_refl),
      (@all_count _ "010"%char _ Hd eq_refl).
    split; [reflexivity |]. split; [reflexivity |].
    rewrite width_table_line, (all_width _ Hd).
    destruct (@cells_shape v " "%char (Text.x v)) as (_ & W1 & _);
      [cbn; auto |].
    destruct (@cells_shape v " "%char (Text.y v)) as (_ & W2 & _);
      [cbn; auto |].
    destruct (@cells_shape v " "%char (Text.yp v)) as (_ & W3 & _);
      [cbn; auto |].
    destruct (@cells_shape v " "%char (Text.dy v)) as (_ & W4 & _);
      [cbn; auto |].
    rewrite W1, W2, W3, W4.
    destruct (maxwidths_ge values v Hv) as (L1 & L2 & L3 & L4). fold w in L1, L2, L3, L4.
    pose proof (@length_to_string_le k (List.length values) ltac:(lia)).
    unfold nm. lia. }
  assert (Hhead :
    Fmt.count "|" header = 4%nat /\ Fmt.count "010" header = 0%nat /\
    (values <> [] ->
     Fmt.width header
     = (nm + col_ind w + col_dep w + col_der w + col_dy w + 4)%nat)).
  { unfold header. rewrite !count_table_line by discriminate.
    split; [reflexivity |]. split; [reflexivity |].
    intros Hne. rewrite width_table_line.
    destruct values as [| v values']; [contradiction |].
    destruct (maxwidths_ge (v :: values') v (or_introl eq_refl))
      as (L1 & L2 & L3 & L4). fold w in L1, L2, L3, L4.
    destruct (@cells_shape v " "%char (Text.x v)) as (_ & _ & W1);
      [cbn; auto |].
    destruct (@cells_shape v " "%char (Text.y v)) as (_ & _ & W2);
      [cbn; auto |].
    destruct (@cells_shape v " "%char (Text.yp v)) as (_ & _ & W3);
      [cbn; auto |].
    destruct (@cells_shape v " "%char (Text.dy v)) as (_ & _ & W4);
      [cbn; auto |].
    change (Fmt.width "n ") with 2%nat. change (Fmt.width "x ") with 2%nat.
    change (Fmt.width "y ") with 2%nat. change (Fmt.width "y' ") with 3%nat.
    change (Fmt.width (Fmt.Delta ++ "y ")) with 3%nat.
    unfold nm. lia. }
  exists (header :: rows). split; [| split; [| split; [| split]]].
  - unfold printTable. cbn zeta.
    change (String.length "n ") with 2%nat. fold w nm.
    rewrite table_rows_lines. unfold unlines. cbn [map].
    now rewrite string_concat_cons.
  - unfold rows. cbn. now rewrite length_map, length_combine, length_seq, Nat.min_id.
  - constructor.
    + destruct Hhead as (H1 & H2 & _). now split.
    + apply Forall_forall. intros l Hl.
      destruct (Hrow l Hl) as (H1 & H2 & _). now split.
  - destruct values as [| v values'].
    + intros l l' [<- | []] [<- | []]. reflexivity.
    + assert (Hne : v :: values' <> []) by discriminate.
      destruct Hhead as (_ & _ & Hw). specialize (Hw Hne).
      intros l l' [<- | Hl] [<- | Hl'];
        rewrite ?Hw, ?(proj2 (proj2 (Hrow _ Hl))),
          ?(proj2 (proj2 (Hrow _ Hl'))); reflexivity.
  - intros Hne l [<- | Hl].
    + now apply Hhead.
    + now apply Hrow.
Qed.

End TableFacts.

(** ** printLatex *)

Section LatexFacts.

Local Open Scope string_scope.

Lemma latex_rows_concat values : forall n,
  latex_rows n values
  = concat "" (map (fun kv => latex_row (fst kv) (snd kv))
                 (combine (seq n (List.length values)) values)).
Proof.
  induction values as [| v values IH]; intros n; [reflexivity |].
  cbn [latex_rows List.length seq combine map fst snd].
  now rewrite string_concat_cons, IH.
Qed.

Lemma nth_error_combine_seq (A : Type) (l : list A) n k v :
  nth_error l k = Some v ->
  nth_error (combine (seq n (List.length l)) l) k = Some ((n + k)%nat, v).
Proof.
  revert n k. induction l as [| a l IH]; intros n k H.
  - now destruct k.
  - destruct k as [| k]; cbn in *.
    + injection H as <-. now rewrite Nat.add_0_r.
    + rewrite (IH (S n) k H). do 2 f_equal. lia.
Qed.

(** [printLatex] writes one row for each record between the head and the
    foot of the document, in their order: row k starts with the number k
    (from 0) and holds exactly four column separators, as many as the five
    columns of the table need. *)
Theorem printLatex_rows (values : list (stepValues float)) (w : colwidth)
  (precision : Z) :
  exists rows,
    printLatex values w precision
    = latex_head ++ concat "" rows ++ latex_foot /\
    List.length rows = List.length values /\
    forall k v, nth_error values k = Some v ->
      exists cellstext,
        nth_error rows k
        = Some ("   " ++ Fmt.to_string k ++ " & " ++ cellstext) /\
        Fmt.count "&" cellstext = 3%nat /\
        Fmt.count "&" ("   " ++ Fmt.to_string k ++ " & " ++ cellstext)
        = 4%nat.
Proof.
  exists (map (fun kv => latex_row (fst kv) (snd kv))
            (combine (seq 0 (List.length values)) values)).
  split; [| split].
  - unfold printLatex. now rewrite latex_rows_concat.
  - now rewrite length_map, length_combine, length_seq, Nat.min_id.
  - intros k v Hk.
    rewrite nth_error_map, (nth_error_combine_seq _ 0 _ Hk).
    cbn [option_map fst snd Nat.add]. unfold latex_row.
    eexists. split; [reflexivity |].
    destruct (count_cell v separator_amp) as (A1 & A2 & A3 & A4).
    pose proof (all_to_string k) as Hd.
    rewrite !count_app, A1, A2, A3, A4,
      (@all_count _ "&"%char _ Hd eq_refl).
    split; reflexivity.
Qed.

End LatexFacts.

(** ** printCsvSegments *)

Section SegmentsFacts.

Local Open Scope string_scope.

Variable stod : string -> run float.

Lemma segment_lines_cons precision a b rest :
  segment_lines stod precision (a :: b :: rest)
  = bind (stod (Text.x a)) (fun x0 =>
    bind (stod (Text.y a)) (fun y0 =>
    bind (stod (Text.x b)) (fun x1 =>
    bind (stod (Text.y b)) (fun y1 =>
    bind (segment_line precision x0 y0 x1 y1) (fun line =>
    bind (segment_lines stod precision (b :: rest)) (fun lines =>
    Done (line ++ lines))))))).
Proof. reflexivity. Qed.

Lemma segment_lines_done (xs ys : stepValues float -> float) precision :
  (0 <= precision)%Z ->
  forall values,
  (forall v, In v values ->
     stod (Text.x v) = Done (xs v) /\ stod (Text.y v) = Done (ys v)) ->
  segment_lines stod precision values
  = Done (unlines
            (map (fun ab =>
                    segment_text (Z.to_nat precision) (xs (fst ab))
                      (ys (fst ab)) (xs (snd ab)) (ys (snd ab)))
               (combine values (tl values)))).
Proof.
  intros Hp. induction values as [| a values IH]; intros Hconv;
    [reflexivity |].
  destruct values as [| b values]; [reflexivity |].
  rewrite segment_lines_cons.
  destruct (Hconv a (or_introl eq_refl)) as [Hxa Hya].
  destruct (Hconv b (or_intror (or_introl eq_refl))) as [Hxb Hyb].
  rewrite Hxa, Hya, Hxb, Hyb. cbn [bind]. unfold segment_line.
  destruct (Z.ltb_spec precision 0); [lia |]. cbn [bind].
  rewrite IH by (intros v Hv; apply Hconv; now right).
  cbn [bind tl combine map fst snd]. unfold unlines. cbn [map].
  rewrite string_concat_cons. unfold segment_text.
  now rewrite !string_app_assoc.
Qed.

(** [printCsvSegments] on a table whose strings [std::stod] converts,
    with a precision that is not negative: after the header it writes one
    line for each pair of consecutive records, n - 1 lines for n records,
    and each segment starts at the point where the one before it ends. *)
Theorem printCsvSegments_lines (xs ys : stepValues float -> float)
  (values : list (stepValues float)) (precision : Z) :
  (0 <= precision)%Z ->
  (forall v, In v values ->
     stod (Text.x v) = Done (xs v) /\ stod (Text.y v) = Done (ys v)) ->
  exists segments : list ((float * float) * (float * float)),
    printCsvSegments stod values precision
    = Done (unlines
              ("x0,y0,x1,y1"
               :: map (fun s =>
                         segment_text (Z.to_nat precision) (fst (fst s))
                           (snd (fst s)) (fst (snd s)) (snd (snd s)))
                    segments)) /\
    List.length segments = (List.length values - 1)%nat /\
    (forall k a b,
       nth_error values k = Some a -> nth_error values (S k) = Some b ->
       nth_error segments k = Some ((xs a, ys a), (xs b, ys b))) /\
    (forall k s s',
       nth_error segments k = Some s -> nth_error segments (S k) = Some s' ->
       snd s = fst s').
Proof.
  intros Hp Hconv.
  set (seg := fun ab : stepValues float * stepValues float =>
                ((xs (fst ab), ys (fst ab)), (xs (snd ab), ys (snd ab)))).
  exists (map seg (combine values (tl values))).
  assert (Hnth : forall k a b,
    nth_error values k = Some a -> nth_error values (S k) = Some b ->
    nth_error (combine values (tl values)) k = Some (a, b)).
  { clear. induction values as [| v values IH]; intros k a b Ha Hb.
    - now destruct k.
    - destruct values as [| v' values]; [now destruct k |].
      destruct k as [| k]; cbn in Ha, Hb |- *.
      + now injection Ha as <-; injection Hb as <-.
      + now apply IH. }
  assert (Hinv : forall k ab,
    nth_error (combine values (tl values)) k = Some ab ->
    nth_error values k = Some (fst ab) /\
    nth_error values (S k) = Some (snd ab)).
  { clear. induction values as [| v values IH]; intros k ab H.
    - now destruct k.
    - destruct values as [| v' values]; [now destruct k |].
      destruct k as [| k]; cbn in H |- *.
      + now injection H as <-.
      + now apply IH. }
  split; [| split; [| split]].
  - unfold printCsvSegments.
    rewrite (segment_lines_done xs ys Hp values Hconv). cbn [bind].
    f_equal. unfold unlines. cbn [map].
    rewrite string_concat_cons, string_app_assoc, !map_map. reflexivity.
  - rewrite length_map, length_combine.
    destruct values as [| v values]; cbn [tl List.length]; lia.
  - intros k a b Ha Hb. rewrite nth_error_map, (Hnth k a b Ha Hb).
    reflexivity.
  - intros k s s' Hs Hs'. rewrite nth_error_map in Hs, Hs'.
    destruct (nth_error (combine values (tl values)) k) as [ab |] eqn:E;
      [| discriminate].
    destruct (nth_error (combine values (tl values)) (S k)) as [ab' |] eqn:E';
      [| discriminate].
    cbn in Hs, Hs'. injection Hs as <-. injection Hs' as <-.
    destruct (Hinv _ _ E) as [_ H1]. destruct (Hinv _ _ E') as [H2 _].
    rewrite H1 in H2. injection H2 as H2. unfold seg. cbn. now rewrite H2.
Qed.

(** [printCsvSegments] at its edges.  A table of fewer than two records
    has no segment: only the header is written, without any conversion and
    whatever the precision.  With two records or more a negative
    precision makes [std::format] throw once the strings of the first pair
    are converted, and nothing is written. *)
Theorem printCsvSegments_edges (values : list (stepValues float))
  (precision : Z) :
  ((List.length values < 2)%nat ->
   printCsvSegments stod values precision
   = Done ("x0,y0,x1,y1" ++ Text.nl)) /\
  (forall a b rest x0 y0 x1 y1,
     values = a :: b :: rest ->
     stod (Text.x a) = Done x0 -> stod (Text.y a) = Done y0 ->
     stod (Text.x b) = Done x1 -> stod (Text.y b) = Done y1 ->
     (precision < 0)%Z ->
     printCsvSegments stod values precision = Raised (uncaught format_error)).
Proof.
  split.
  - intros Hlen. destruct values as [| a [| b rest]]; try reflexivity.
    cbn in Hlen. lia.
  - intros a b rest x0 y0 x1 y1 -> Hx0 Hy0 Hx1 Hy1 Hp.
    unfold printCsvSegments. rewrite segment_lines_cons.
    rewrite Hx0, Hy0, Hx1, Hy1. cbn [bind]. unfold segment_line.
    destruct (Z.ltb_spec precision 0); [reflexivity | lia].
Qed.

End SegmentsFacts.

(** ** main: the command lines it refuses, and the table mode *)

Section MainFacts.

Local Open Scope string_scope.

Variable stod : string -> run float.
Variable stoi : string -> run Z.
Variable tep_success : string -> float -> float -> bool.
Variable tep_evaluate : string -> float -> float -> float.
Variable fuel : nat.

Abbreviation main' := (main stod stoi tep_success tep_evaluate fuel).

(** The command lines that [main] refuses, before it converts an argument
    or evaluates the formula.  With seven arguments after the program name
    the last must be -l, -c or -cr: any other, -df and -dfc included, is an
    unknown output flag.  Apart from the table (six or seven arguments)
    only nine arguments ending in -df and ten or twelve ending in -dfc
    are taken: every other command line has too many or too few
    arguments. *)
Theorem main_refuses (argv : list string) :
  (List.length argv = 8%nat ->
   nth 7 argv "" <> "-l" -> nth 7 argv "" <> "-c" -> nth 7 argv "" <> "-cr" ->
   main stod stoi tep_success tep_evaluate fuel argv
   = Raised (uncaught (runtime_error
       "unknown output flag; use -l, -c, -cr, -df, or -dfc"))) /\
  (List.length argv <> 7%nat -> List.length argv <> 8%nat ->
   ~ (List.length argv = 10%nat /\ nth 9 argv "" = "-df") ->
   ~ ((List.length argv = 11%nat \/ List.length argv = 13%nat) /\
      nth (List.length argv - 1) argv "" = "-dfc") ->
   main stod stoi tep_success tep_evaluate fuel argv
   = Raised (uncaught (runtime_error
       "too many or too few arguments to eulers method"))).
Proof.
  split.
  - intros Hlen Hl Hc Hcr. unfold main, main_flags. rewrite Hlen.
    cbn [Nat.eqb].
    destruct (String.eqb_spec "-l" (nth 7 argv "")); [congruence |].
    destruct (String.eqb_spec "-c" (nth 7 argv "")); [congruence |].
    destruct (String.eqb_spec "-cr" (nth 7 argv "")); [congruence |].
    reflexivity.
  - intros H7 H8 Hdf Hdfc. unfold main, main_flags.
    destruct (Nat.eqb_spec (List.length argv) 8); [contradiction |].
    assert (E1 : ((List.length argv =? 10)%nat
                  && String.eqb "-df" (nth 9 argv "")) = false).
    { destruct (Nat.eqb_spec (List.length argv) 10); [| reflexivity].
      destruct (String.eqb_spec "-df" (nth 9 argv "")); [| reflexivity].
      exfalso. apply Hdf. now split. }
    assert (E2 : (((List.length argv =? 11)%nat
                   || (List.length argv =? 13)%nat)
                  && String.eqb "-dfc"
                       (nth (List.length argv - 1) argv "")) = false).
    { destruct (String.eqb_spec "-dfc" (nth (List.length argv - 1) argv ""));
        [| apply andb_false_r].
      destruct (Nat.eqb_spec (List.length argv) 11);
        [exfalso; apply Hdfc; split; auto |].
      destruct (Nat.eqb_spec (List.length argv) 13);
        [exfalso; apply Hdfc; split; auto |].
      reflexivity. }
    rewrite E1, E2. cbn [bind dfieldout dfieldcurveout orb negb andb].
    destruct (Nat.ltb_spec (List.length argv) 7); [reflexivity |].
    destruct (Nat.ltb_spec 8 (List.length argv)); [reflexivity |]. lia.
Qed.

(** The table mode of [main]: with the formula, five numbers that convert
    and at most one output flag, [main] writes the table that
    [eulersMethod] computes with the printer of the flag (none:
    [printTable], -l: [printLatex], -c: [printCsv], -cr:
    [printCsvSegments]); an exception of the stepper leaves [main] as it
    is and a stepper that does not return writes nothing. *)
Theorem main_table (prog fn a2 a3 a4 a5 a6 : string) (flag : list string)
  (step x y end_ : float) (prec : Z) :
  stod a2 = Done step -> stod a3 = Done x -> stod a4 = Done y ->
  stod a5 = Done end_ -> stoi a6 = Done prec ->
  In flag [[]; ["-l"]; ["-c"]; ["-cr"]] ->
  main' (prog :: fn :: a2 :: a3 :: a4 :: a5 :: a6 :: flag)
  = match eulersMethod tep_success tep_evaluate fuel fn step x y end_ prec
    with
    | Returned values =>
        match flag with
        | [] => Done (printTable values (maxwidths values) prec)
        | f :: _ =>
            if String.eqb f "-l"
            then Done (printLatex values (maxwidths values) prec)
            else if String.eqb f "-c" then Done (printCsv values prec)
            else printCsvSegments stod values prec
        end
    | Threw e => Raised (uncaught e)
    | Diverged => Running
    end.
Proof.
  intros H2 H3 H4 H5 H6 Hflag.
  destruct Hflag as [<- | [<- | [<- | [<- | []]]]];
    unfold main, main_flags; cbn -[eulersMethod_output];
    rewrite H2, H3, H4, H5, H6; cbn [bind];
    unfold eulersMethod_output;
    destruct (eulersMethod _ _ _ _ _ _ _ _ _); reflexivity.
Qed.

End MainFacts.

(** ** The picture of printDField *)

Section Picture.

Context {D : Type} {AD : Arith D}.

Local Open Scope dbl_scope.

Variable tep_success : string -> D -> D -> bool.
Variable tep_evaluate : string -> D -> D -> D.
Variable fuel : nat.

Variable expr : string.
Variables x0 y0 xe ye xstep ystep : D.
Variable precision : Z.
Variables curveStep curveX0 curveY0 : D.

Abbreviation fy := (field_y tep_success tep_evaluate expr x0 y0 xe ye ystep).
Abbreviation fx :=
  (field_x tep_success tep_evaluate fuel expr x0 y0 xe ye xstep ystep).
Abbreviation pdf plotCurve :=
  (printDField tep_success tep_evaluate fuel expr x0 y0 xe ye xstep ystep
     precision plotCurve curveStep curveX0 curveY0).
Abbreviation cstate :=
  (euler_state tep_evaluate expr curveStep curveX0 curveY0 precision).

Lemma field_y_segments : forall n x y buffer b,
  fy n x y buffer = Returned b ->
  exists segs, b = buffer ++ segs /\ Forall is_segment segs.
Proof.
  induction n as [| n IH]; intros x y buffer b; cbn;
    destruct (y <=? ye + dlit 1 (-12)); try discriminate;
    try (intros [= <-]; exists []; split; [now rewrite app_nil_r | constructor]).
  unfold slope. destruct (tep_success expr x y); cbn; [| discriminate].
  intros Hrun. apply IH in Hrun. destruct Hrun as (segs & -> & Hs).
  eexists. rewrite <- app_assoc. split; [reflexivity |].
  constructor; [exact I | exact Hs].
Qed.

Lemma field_x_segments : forall n x buffer b,
  fx n x buffer = Returned b ->
  exists segs, b = buffer ++ segs /\ Forall is_segment segs.
Proof.
  induction n as [| n IH]; intros x buffer b; cbn;
    destruct (x <=? xe + dlit 1 (-12)); try discriminate;
    try (intros [= <-]; exists []; split; [now rewrite app_nil_r | constructor]).
  destruct (fy fuel x y0 buffer) as [b1 | |] eqn:Hy; try discriminate.
  intros Hrun. apply IH in Hrun. destruct Hrun as (segs2 & -> & Hs2).
  apply field_y_segments in Hy. destruct Hy as (segs1 & -> & Hs1).
  exists (segs1 ++ segs2). rewrite app_assoc. split; [reflexivity |].
  now apply Forall_app.
Qed.

(** The form of a picture that is written. *)
Lemma printDField_shape plotCurve buf :
  pdf plotCurve = Returned buf ->
  (0 <= precision)%Z /\
  exists segs pts,
    Forall is_segment segs /\
    (plotCurve = false -> pts = []) /\
    buf = [Preamble; Axes x0 y0 xe (yTop x0 y0 xe)] ++ segs
          ++ (if plotCurve then [CurveDraw] else [])
          ++ match pts with
             | [] => []
             | _ => [PlotOpen]
                    ++ map (fun p => CurvePoint (fst p) (snd p)) pts
                    ++ [PlotClose]
             end
          ++ [Postamble].
Proof.
  intros Hrun. split.
  - unfold printDField in Hrun.
    destruct (printDField_checks _ _ _ _ _ _ _ _); [discriminate |].
    destruct (Z.ltb_spec precision 0); [discriminate | assumption].
  - destruct (printDField_returned _ _ _ _ _ _ _ _ _ _ _ _ _ _ _ Hrun)
      as (b & N & Hb & _ & _ & HN & ->).
    apply field_x_segments in Hb. destruct Hb as (segs & -> & Hs).
    exists segs,
      (map (fun k => (fst (cstate k), mapY x0 y0 xe ye (snd (cstate k))))
         (seq 0 N)).
    split; [exact Hs |]. split.
    + intros Hp. now rewrite (HN Hp).
    + rewrite <- !app_assoc. cbn [app]. do 2 f_equal. f_equal. f_equal.
      destruct N as [| N]; [reflexivity |].
      cbn [Nat.eqb negb seq map]. cbn [app]. do 2 f_equal.
      now rewrite map_map, <- app_assoc.
Qed.

(** Whatever picture [printDField] writes is whole: the preamble and the
    axes, then field segments only, then the overlay, then the end of the
    picture.  With the overlay asked for, its draw command is written
    also when no point follows; the points, if any, stand between
    "plot coordinates {" and its closing brace, which are written
    together or not at all.  Without the overlay nothing of it is
    written.  A picture is written at a precision that is not negative
    only. *)
Theorem printDField_picture plotCurve buf :
  pdf plotCurve = Returned buf ->
  (0 <= precision)%Z /\
  exists segs pts,
    Forall is_segment segs /\
    (plotCurve = false -> pts = []) /\
    buf = [Preamble; Axes x0 y0 xe (yTop x0 y0 xe)] ++ segs
          ++ (if plotCurve then [CurveDraw] else [])
          ++ match pts with
             | [] => []
             | _ => [PlotOpen]
                    ++ map (fun p => CurvePoint (fst p) (snd p)) pts
                    ++ [PlotClose]
             end
          ++ [Postamble].
Proof. apply printDField_shape. Qed.


End Picture.

(** ** main: the direction-field modes *)

Section MainField.

Local Open Scope string_scope.

Variable stod : string -> run float.
Variable stoi : string -> run Z.
Variable tep_success : string -> float -> float -> bool.
Variable tep_evaluate : string -> float -> float -> float.
Variable fuel : nat.

Abbreviation main' := (main stod stoi tep_success tep_evaluate fuel).
Abbreviation pdf_out := (printDField_output tep_success tep_evaluate fuel).



End MainField.

(** ** Runs of the whole program on binary64 *)

Section ProgramRuns.

Local Open Scope string_scope.

Abbreviation euler64 := (eulersMethod Formula.success Formula.evaluate).
Abbreviation field64 := (printDField Formula.success Formula.evaluate).
Abbreviation main64 :=
  (main Conv.stod Conv.stoi Formula.success Formula.evaluate).

Lemma table3_run :
  euler64 10 "x" (F64.of_dec 5 (-1)) (F64.of_Z 0) (F64.of_Z 1) (F64.of_Z 1) 1
  = Returned table3.
Proof. vm_compute. reflexivity. Qed.


(** [eulersMethod_zero_step_f64] on the step 0 from x0 = 0 to 1. *)
Lemma eulersMethod_zero_step_f64_run :
  euler64 1000 "x" (F64.of_Z 0) (F64.of_Z 0) (F64.of_Z 1) (F64.of_Z 1) 3
  = Diverged.
Proof.
  apply (@eulersMethod_zero_step_f64 Formula.success Formula.evaluate 1000
           "x" (F64.of_Z 0) (F64.of_Z 0) (F64.of_Z 1) (F64.of_Z 1) 3);
    [lia | vm_compute; reflexivity ..].
Defined.

(** The texts of the three printers of this table. *)
Lemma printers_run :
  printTable table3 (maxwidths table3) 1
  = concat Text.nl
      ["n |   x |   y |  y' |  " ++ Fmt.Delta ++ "y ";
       " 0| 0.0 | 1.0 | 0.0 | 0.0 ";
       " 1| 0.5 | 1.0 | 0.5 | 0.3 ";
       " 2| 1.0 | 1.3 | 1.0 | 0.5 ";
       ""] /\
  printCsv table3 1
  = concat Text.nl
      ["x,y,y'," ++ Fmt.Delta ++ "y";
       " 0.0 , 1.0 , 0.0 , 0.0 ";
       " 0.5 , 1.0 , 0.5 , 0.3 ";
       " 1.0 , 1.3 , 1.0 , 0.5 ";
       ""] /\
  printCsvSegments Conv.stod table3 1
  = Done (concat Text.nl
            ["x0,y0,x1,y1"; "0.0,1.0,0.5,1.0"; "0.5,1.0,1.0,1.3"; ""]) /\
  maxwidths table3 = mkColwidth 5 5 5 5.
Proof. repeat split; vm_compute; reflexivity. Qed.

Lemma table3_converts :
  forall v, In v table3 ->
    Conv.stod (Text.x v) = Done (x_ v) /\ Conv.stod (Text.y v) = Done (y_ v).
Proof.
  intros v [<- | [<- | [<- | []]]]; split; vm_compute; reflexivity.
Qed.

(** [printCsvSegments_lines] on this table: two segments, the second
    starting where the first ends. *)
Lemma printCsvSegments_lines_run :
  exists segments,
    printCsvSegments Conv.stod table3 1
    = Done (unlines
              ("x0,y0,x1,y1"
               :: map (fun s =>
                         segment_text 1 (fst (fst s)) (snd (fst s))
                           (fst (snd s)) (snd (snd s)))
                    segments)) /\
    List.length segments = 2%nat /\
    (forall k s s',
       nth_error segments k = Some s -> nth_error segments (S k) = Some s' ->
       snd s = fst s').
Proof.
  destruct (@printCsvSegments_lines Conv.stod (@x_ float) (@y_ float) table3 1
              ltac:(lia) table3_converts)
    as (segments & Hrun & Hlen & _ & Hchain).
  exists segments. split; [exact Hrun |]. split; [exact Hlen | exact Hchain].
Defined.

(** [printCsvSegments_edges]: the table of one record, and this table at
    the precision -1. *)
Lemma printCsvSegments_edges_run :
  printCsvSegments Conv.stod [hd (mkStepValues zero zero zero zero 1) table3]
    (-1)
  = Done ("x0,y0,x1,y1" ++ Text.nl) /\
  printCsvSegments Conv.stod table3 (-1) = Raised (uncaught format_error).
Proof.
  split.
  - apply (proj1 (printCsvSegments_edges Conv.stod _ (-1))). cbn. lia.
  - eapply (proj2 (printCsvSegments_edges Conv.stod table3 (-1)));
      [reflexivity | vm_compute; reflexivity .. | lia].
Defined.

(** [main_refuses]: -df as the only flag of a table, and nine arguments
    that do not end in -df. *)
Lemma main_refuses_run :
  (forall fuel,
     main64 fuel ["./euler"; "x"; "0.5"; "0"; "1"; "1"; "1"; "-df"]
     = Raised (uncaught (runtime_error
         "unknown output flag; use -l, -c, -cr, -df, or -dfc"))) /\
  (forall fuel,
     main64 fuel ["./euler"; "1"; "0"; "0"; "1"; "1"; "1"; "1"; "2"; "-dfc"]
     = Raised (uncaught (runtime_error
         "too many or too few arguments to eulers method"))).
Proof.
  split; intros fuel.
  - apply (proj1 (main_refuses Conv.stod Conv.stoi Formula.success
                    Formula.evaluate fuel _)); [reflexivity | discriminate ..].
  - apply (proj2 (main_refuses Conv.stod Conv.stoi Formula.success
                    Formula.evaluate fuel _)); cbn;
      try discriminate; intros [H1 H2]; try discriminate;
      destruct H1; discriminate.
Defined.

(** [main_table]: the command line of this table with -c. *)
Lemma main_table_run :
  main64 10 ["./euler"; "x"; "0.5"; "0"; "1"; "1"; "1"; "-c"]
  = Done (printCsv table3 1).
Proof.
  pose proof (@main_table Conv.stod Conv.stoi Formula.success
                Formula.evaluate 10 "./euler" "x" "0.5" "0" "1" "1" "1" ["-c"]
                (F64.of_dec 5 (-1)) (F64.of_Z 0) (F64.of_Z 1) (F64.of_Z 1) 1
                ltac:(vm_compute; reflexivity) ltac:(vm_compute; reflexivity)
                ltac:(vm_compute; reflexivity) ltac:(vm_compute; reflexivity)
                ltac:(vm_compute; reflexivity) ltac:(cbn; auto)) as H.
  rewrite table3_run in H. exact H.
Defined.


(** [printDField_picture] on the picture with the overlay. *)
Lemma printDField_picture_run :
  exists buf segs pts,
    field64 10 "1" (F64.of_Z 0) (F64.of_Z 0) (F64.of_Z 1) (F64.of_Z 1)
      (F64.of_Z 1) (F64.of_Z 1) 2 true (F64.of_dec 5 (-1)) (F64.of_Z 0)
      (F64.of_Z 0) = Returned buf /\
    Forall is_segment segs /\
    buf = ([Preamble;
            Axes (F64.of_Z 0) (F64.of_Z 0) (F64.of_Z 1)
              (yTop (F64.of_Z 0) (F64.of_Z 0) (F64.of_Z 1))] ++ segs
           ++ [CurveDraw]
           ++ match pts with
              | [] => []
              | _ => [PlotOpen]
                     ++ map (fun p => CurvePoint (fst p) (snd p)) pts
                     ++ [PlotClose]
              end
           ++ [Postamble])%list.
Proof.
  assert (E : exists buf,
    field64 10 "1" (F64.of_Z 0) (F64.of_Z 0) (F64.of_Z 1) (F64.of_Z 1)
      (F64.of_Z 1) (F64.of_Z 1) 2 true (F64.of_dec 5 (-1)) (F64.of_Z 0)
      (F64.of_Z 0) = Returned buf).
  { eexists. vm_compute. reflexivity. }
  destruct E as (buf & E).
  destruct (@printDField_picture float float_arith Formula.success
              Formula.evaluate 10 "1" (F64.of_Z 0) (F64.of_Z 0) (F64.of_Z 1)
              (F64.of_Z 1) (F64.of_Z 1) (F64.of_Z 1) 2 (F64.of_dec 5 (-1))
              (F64.of_Z 0) (F64.of_Z 0) true buf E)
    as (_ & segs & pts & Hsegs & _ & Hbuf).
  exists buf, segs, pts. split; [exact E |]. split; [exact Hsegs | exact Hbuf].
Defined.

End ProgramRuns.

(** ** The loop condition of the stepper and the values that are no numbers *)

Section StepperUnordered.

Variable tep_success : string -> float -> float -> bool.
Variable tep_evaluate : string -> float -> float -> float.
Variable fn : string.
Variables step x0 y0 end_ : float.
Variable precision : Z.

Abbreviation loop :=
  (euler_loop tep_evaluate fn (roundToPrecision step precision) end_
     precision).

Lemma is_nan (v : float) :
  PrimFloat.eqb v v = false -> Prim2SF v = S754_nan.
Proof.
  rewrite eqb_spec. destruct (Prim2SF v) as [s | s | | s m e]; cbn;
    try (now destruct s); try reflexivity.
  rewrite Z.compare_refl, Pos.compare_cont_refl. now destruct s.
Qed.

Lemma ltb_nan_r (a x : float) :
  Prim2SF x = S754_nan -> PrimFloat.ltb a x = false.
Proof.
  intros Hx. rewrite ltb_spec, Hx.
  now destruct (Prim2SF a) as [s | s | | s m e]; try destruct s.
Qed.

Lemma ltb_nan_l (a x : float) :
  Prim2SF a = S754_nan -> PrimFloat.ltb a x = false.
Proof. intros Ha. now rewrite ltb_spec, Ha. Qed.

Lemma ltb_infinity_l (x : float) : PrimFloat.ltb infinity x = false.
Proof.
  rewrite ltb_spec.
  replace (Prim2SF infinity) with (S754_infinity false)
    by (vm_compute; reflexivity).
  now destruct (Prim2SF x) as [s | s | | s m e]; try destruct s.
Qed.

Lemma roundToPrecision_nan (v : float) (p : Z) :
  Prim2SF v = S754_nan -> Prim2SF (roundToPrecision v p) = S754_nan.
Proof.
  intros Hv. unfold roundToPrecision.
  cbn [dmul ddiv std_round std_pow10 float_arith].
  assert (Hm : Prim2SF (PrimFloat.mul v (F64.of_dec 1 p)) = S754_nan)
    by now rewrite mul_spec, Hv.
  assert (Hr : Prim2SF (F64.round (PrimFloat.mul v (F64.of_dec 1 p)))
               = S754_nan)
    by (unfold F64.round; now rewrite Hm).
  now rewrite div_spec, Hr.
Qed.

Lemma add_nan (a b : float) :
  Prim2SF a = S754_nan -> Prim2SF (PrimFloat.add a b) = S754_nan.
Proof. intros Ha. now rewrite add_spec, Ha. Qed.

(** A loop whose condition never fails is never left. *)
Lemma euler_loop_unending (P : float -> Prop) :
  (forall x, P x -> PrimFloat.ltb end_ x = false) ->
  (forall x, P x ->
     P (roundToPrecision (PrimFloat.add x (roundToPrecision step precision))
          precision)) ->
  forall n x y values, P x -> loop n x y values = Diverged.
Proof.
  intros Hcond Hnext.
  induction n as [| n IH]; intros x y values Hx; cbn -[roundToPrecision];
    cbn [dlt dadd float_arith]; rewrite (Hcond x Hx); [reflexivity |].
  apply IH, Hnext, Hx.
Qed.

(** The loop of the stepper is written [while (!(x > end))]: a comparison
    with a NaN is false, and nothing is greater than the infinity.  On
    binary64, with a formula that is evaluable at the start, the stepper
    never returns when [end] is a NaN or the positive infinity, or when
    [x0] is a NaN, whatever the step and the number of iterations it may
    run. *)
Theorem eulersMethod_unordered_f64 fuel :
  tep_success fn (roundToPrecision x0 precision)
    (roundToPrecision y0 precision) = true ->
  PrimFloat.eqb end_ end_ = false \/ end_ = infinity
  \/ PrimFloat.eqb x0 x0 = false ->
  eulersMethod tep_success tep_evaluate fuel fn step x0 y0 end_ precision
  = Diverged.
Proof.
  intros Hok Hcase. rewrite eulersMethod_loop by exact Hok.
  destruct Hcase as [Hnan | [Hinf | Hnan]].
  - apply (@euler_loop_unending (fun _ => True)); auto.
    intros x _. apply ltb_nan_l, is_nan, Hnan.
  - apply (@euler_loop_unending (fun _ => True)); auto.
    intros x _. rewrite Hinf. apply ltb_infinity_l.
  - apply (@euler_loop_unending (fun x => Prim2SF x = S754_nan)).
    + intros x Hx. now apply ltb_nan_r.
    + intros x Hx. now apply roundToPrecision_nan, add_nan.
    + apply roundToPrecision_nan, is_nan, Hnan.
Qed.

End StepperUnordered.

Section StepperUnorderedRuns.

Local Open Scope string_scope.

(** [eulersMethod_unordered_f64] on the command line
    ./euler x 0.1 0 1 nan 3. *)
Lemma eulersMethod_unordered_f64_run :
  main Conv.stod Conv.stoi Formula.success Formula.evaluate 1000
    ["./euler"; "x"; "0.1"; "0"; "1"; "nan"; "3"] = Running /\
  eulersMethod Formula.success Formula.evaluate 1000 "x" (F64.of_dec 1 (-1))
    (F64.of_Z 0) (F64.of_Z 1) nan 3 = Diverged.
Proof.
  assert (H : eulersMethod Formula.success Formula.evaluate 1000 "x"
                (F64.of_dec 1 (-1)) (F64.of_Z 0) (F64.of_Z 1) nan 3
              = Diverged).
  { apply eulersMethod_unordered_f64; [reflexivity |].
    left. vm_compute. reflexivity. }
  split; [| exact H].
  unfold main, main_flags. cbn -[eulersMethod_output].
  change (Conv.stod "0.1") with (Done (F64.of_dec 1 (-1))).
  change (Conv.stod "0") with (Done (F64.of_Z 0)).
  change (Conv.stod "1") with (Done (F64.of_Z 1)).
  change (Conv.stod "nan") with (Done nan).
  change (Conv.stoi "3") with (Done 3%Z). cbn [bind].
  unfold eulersMethod_output. now rewrite H.
Defined.

End StepperUnorderedRuns.

(** ** A curve step that rounds to zero *)

Section OverlayStalls.

Context {D : Type} {AD : Arith D}.

Local Open Scope dbl_scope.

Variable tep_success : string -> D -> D -> bool.
Variable tep_evaluate : string -> D -> D -> D.
Variable expr : string.
Variables x0 y0 xe ye : D.
Variable precision : Z.

Lemma field_y_not_threw :
  (forall x y, tep_success expr x y = true) ->
  forall ystep n x y buffer e,
    field_y tep_success tep_evaluate expr x0 y0 xe ye ystep n x y buffer
    <> Threw e.
Proof.
  intros Hok ystep. induction n as [| n IH]; intros x y buffer e; cbn;
    destruct (y <=? ye + dlit 1 (-12)); try discriminate.
  unfold slope. rewrite Hok. cbn. apply IH.
Qed.

Lemma field_x_not_threw :
  (forall x y, tep_success expr x y = true) ->
  forall fuel xstep ystep n x buffer e,
    field_x tep_success tep_evaluate fuel expr x0 y0 xe ye xstep ystep n x
      buffer <> Threw e.
Proof.
  intros Hok fuel xstep ystep.
  induction n as [| n IH]; intros x buffer e; cbn;
    destruct (x <=? xe + dlit 1 (-12)); try discriminate.
  destruct (field_y _ _ _ _ _ _ _ _ _ _ _ _) as [b | e' |] eqn:Hy;
    try discriminate.
  - apply IH.
  - now apply field_y_not_threw in Hy.
Qed.

(** With the overlay, a curve whose loop is never left: no picture is
    written, whatever the number of iterations. *)
Lemma printDField_unending fuel xstep ystep curveStep curveX0 curveY0 :
  printDField_checks x0 y0 xe ye xstep ystep true curveStep = None ->
  (0 <= precision)%Z ->
  (forall x y, tep_success expr x y = true) ->
  (forall n first buffer,
     curve_loop tep_success tep_evaluate expr x0 y0 xe ye precision n
       (roundToPrecision curveStep precision)
       (roundToPrecision curveX0 precision)
       (roundToPrecision curveY0 precision) first buffer = Diverged) ->
  printDField tep_success tep_evaluate fuel expr x0 y0 xe ye xstep ystep
    precision true curveStep curveX0 curveY0 = Diverged.
Proof.
  intros Hchk Hprec Hok Hloop. unfold printDField.
  rewrite Hchk. destruct (Z.ltb_spec precision 0); [lia |].
  destruct (field_x _ _ _ _ _ _ _ _ _ _ _ _ _) as [b | e |] eqn:Hf.
  - cbv zeta. now rewrite Hloop.
  - now apply field_x_not_threw in Hf.
  - reflexivity.
Qed.

End OverlayStalls.

Section OverlayStallsBinary64.

Local Open Scope Z_scope.

Lemma leb_zero_zero_l (x x' a : float) (s s' : bool) :
  Prim2SF x = S754_zero s -> Prim2SF x' = S754_zero s' ->
  PrimFloat.leb x a = true -> PrimFloat.leb x' a = true.
Proof.
  intros Hx Hx'. rewrite !leb_spec, Hx, Hx'.
  now destruct (Prim2SF a) as [sa | sa | | sa ma ea].
Qed.

Lemma ltb_zero_zero_l (x x' a : float) (s s' : bool) :
  Prim2SF x = S754_zero s -> Prim2SF x' = S754_zero s' ->
  PrimFloat.ltb x a = false -> PrimFloat.ltb x' a = false.
Proof.
  intros Hx Hx'. rewrite !ltb_spec, Hx, Hx'.
  now destruct (Prim2SF a) as [sa | sa | | sa ma ea].
Qed.

Lemma add_nan_r (a b : float) :
  Prim2SF b = S754_nan -> Prim2SF (PrimFloat.add a b) = S754_nan.
Proof.
  intros Hb. rewrite add_spec, Hb.
  now destruct (Prim2SF a) as [s | s | | s m e].
Qed.

(** The product with a zero is a zero or no number. *)
Lemma mul_zero_r (a h : float) (sh : bool) :
  Prim2SF h = S754_zero sh ->
  (exists s, Prim2SF (PrimFloat.mul a h) = S754_zero s) \/
  Prim2SF (PrimFloat.mul a h) = S754_nan.
Proof.
  intros Hh. rewrite mul_spec, Hh.
  destruct (Prim2SF a) as [s | s | | s m e]; cbn; eauto.
Qed.

Variable tep_success : string -> float -> float -> bool.
Variable tep_evaluate : string -> float -> float -> float.
Variable expr : string.
Variables x0 y0 xe ye : float.
Variable precision : Z.
Variable h : float.

Abbreviation cloop :=
  (curve_loop tep_success tep_evaluate expr x0 y0 xe ye precision).

(** A loop of the overlay whose test never fails is never left. *)
Lemma curve_loop_unending (P : float -> float -> Prop) :
  (forall x y, P x y -> retained y0 xe ye (x, y)) ->
  (forall x y, tep_success expr x y = true) ->
  (forall x y, P x y ->
     P (roundToPrecision (x + h)%D precision)
       (roundToPrecision
          (y + roundToPrecision
                 (roundToPrecision (tep_evaluate expr x y) precision * h)%D
                 precision)%D precision)) ->
  forall n x y first buffer, P x y -> cloop n h x y first buffer = Diverged.
Proof.
  intros Htest Hok Hnext.
  induction n as [| n IH]; intros x y first buffer HP;
    destruct (Htest x y HP) as (Hx & Hlo & Hhi); cbn [fst snd] in *;
    cbn [curve_loop]; rewrite Hx, Hlo, Hhi; [reflexivity |].
  unfold slope. rewrite Hok. cbn [negb orb]. cbv zeta.
  apply IH. now apply Hnext.
Qed.

Variables curveX0 curveY0 : float.

Hypothesis Hp : 0 <= precision <= 22.
Hypothesis Hh : exists sh, Prim2SF h = S754_zero sh.
Hypothesis Hok : forall x y, tep_success expr x y = true.
Hypothesis Hsmallx :
  PrimFloat.ltb (PrimFloat.abs (PrimFloat.mul curveX0 (F64.of_dec 1 precision)))
    (F64.of_Z (2 ^ 50)) = true.
Hypothesis Hsmally :
  PrimFloat.ltb (PrimFloat.abs (PrimFloat.mul curveY0 (F64.of_dec 1 precision)))
    (F64.of_Z (2 ^ 50)) = true.

Abbreviation rx := (roundToPrecision curveX0 precision).
Abbreviation ry := (roundToPrecision curveY0 precision).

Hypothesis Hstart : retained y0 xe ye (rx, ry).

Lemma stalled_retained x y : stalled rx ry x y -> retained y0 xe ye (x, y).
Proof.
  destruct Hstart as (Hx & Hlo & Hhi). cbn [fst snd] in Hx, Hlo, Hhi.
  intros [Sx Sy]. unfold retained. cbn [fst snd]. split; [| split].
  - destruct Sx as [-> | (s & s' & Hr & Hz)]; [exact Hx |].
    exact (@leb_zero_zero_l _ _ _ _ _ Hr Hz Hx).
  - destruct Sy as [-> | [(s & s' & Hr & Hz) | Hn]]; [exact Hlo | |].
    + exact (@ltb_zero_zero_l _ _ _ _ _ Hr Hz Hlo).
    + now apply ltb_nan_l.
  - destruct Sy as [-> | [(s & s' & Hr & Hz) | Hn]]; [exact Hhi | |].
    + exact (@ltb_zero_zero _ _ _ _ _ Hr Hz Hhi).
    + now apply ltb_nan_r.
Qed.

(** A zero step leaves a rounded value, and any zero, where it is. *)
Lemma stalled_add (v w d : float) (sd : bool) :
  PrimFloat.ltb (PrimFloat.abs (PrimFloat.mul v (F64.of_dec 1 precision)))
    (F64.of_Z (2 ^ 50)) = true ->
  Prim2SF d = S754_zero sd ->
  w = roundToPrecision v precision \/
  (exists s s', Prim2SF (roundToPrecision v precision) = S754_zero s /\
     Prim2SF w = S754_zero s') ->
  let w' := roundToPrecision (PrimFloat.add w d) precision in
  w' = roundToPrecision v precision \/
  (exists s s', Prim2SF (roundToPrecision v precision) = S754_zero s /\
     Prim2SF w' = S754_zero s').
Proof.
  intros Hsmall Hd Hw w'.
  pose proof (roundToPrecision_isfinite_f64 Hp Hsmall) as Hfin.
  destruct (roundToPrecision_idempotent_f64 Hp Hsmall) as [Hidem _].
  unfold F64.isfinite in Hfin.
  assert (Hzero : forall w0 s',
    Prim2SF w0 = S754_zero s' ->
    exists s2,
      Prim2SF (roundToPrecision (PrimFloat.add w0 d) precision)
      = S754_zero s2).
  { intros w0 s' Hz.
    destruct (@add_zero_zero _ _ _ _ Hz Hd) as (s2 & Hz2 & _).
    exists s2. now rewrite (@roundToPrecision_zero_f64 _ _ _ Hp Hz2). }
  destruct Hw as [Hw | (s & s' & Hr & Hz)].
  - subst w.
    destruct (Prim2SF (roundToPrecision v precision))
      as [s | s | | s m e] eqn:Hr; try discriminate.
    + right. destruct (Hzero _ _ Hr) as [s2 H2]. now exists s, s2.
    + left. unfold w'. rewrite (@add_zero_finite _ _ _ _ _ _ Hr Hd).
      exact Hidem.
  - right. destruct (Hzero _ _ Hz) as [s2 H2]. now exists s, s2.
Qed.

Lemma stalled_next x y :
  stalled rx ry x y ->
  stalled rx ry (roundToPrecision (x + h)%D precision)
    (roundToPrecision
       (y + roundToPrecision
              (roundToPrecision (tep_evaluate expr x y) precision * h)%D
              precision)%D precision).
Proof.
  destruct Hh as [sh Hsh]. intros [Sx Sy]. split.
  - exact (@stalled_add curveX0 x h sh Hsmallx Hsh Sx).
  - cbn [dadd dmul float_arith].
    set (a := roundToPrecision (tep_evaluate expr x y) precision).
    destruct (@mul_zero_r a h sh Hsh) as [[s Hm] | Hm].
    + rewrite (@roundToPrecision_zero_f64 _ _ _ Hp Hm).
      destruct Sy as [Sy | [Sy | Hn]].
      * destruct (@stalled_add curveY0 y _ s Hsmally Hm (or_introl Sy));
          auto.
      * destruct (@stalled_add curveY0 y _ s Hsmally Hm (or_intror Sy));
          auto.
      * right. right. now apply roundToPrecision_nan, add_nan.
    + right. right.
      now apply roundToPrecision_nan, add_nan_r, roundToPrecision_nan.
Qed.

Lemma curve_loop_stalled n first buffer :
  cloop n h rx ry first buffer = Diverged.
Proof.
  apply (@curve_loop_unending (stalled rx ry)).
  - exact stalled_retained.
  - exact Hok.
  - exact stalled_next.
  - split; now left.
Qed.

End OverlayStallsBinary64.

(** [printDField] checks that the curve step is positive, and steps by
    the rounded curve step.  On binary64, for the precisions 0..22: a
    curve step that passes the checks and rounds to zero, with a formula
    that is evaluable everywhere and a start of the curve that the loop
    keeps and whose coordinates have scaled magnitudes below 2^50, makes
    [printDField] with the overlay never return, whatever number of
    iterations it may run. *)
Theorem printDField_overlay_stalls
  (tep_success : string -> float -> float -> bool)
  (tep_evaluate : string -> float -> float -> float) fuel expr
  (x0 y0 xe ye xstep ystep : float) precision
  (curveStep curveX0 curveY0 : float) :
  (0 <= precision <= 22)%Z ->
  printDField_checks x0 y0 xe ye xstep ystep true curveStep = None ->
  (forall x y, tep_success expr x y = true) ->
  PrimFloat.eqb (roundToPrecision curveStep precision) (F64.of_Z 0) = true ->
  PrimFloat.ltb
    (PrimFloat.abs (PrimFloat.mul curveX0 (F64.of_dec 1 precision)))
    (F64.of_Z (2 ^ 50)) = true ->
  PrimFloat.ltb
    (PrimFloat.abs (PrimFloat.mul curveY0 (F64.of_dec 1 precision)))
    (F64.of_Z (2 ^ 50)) = true ->
  retained y0 xe ye
    (roundToPrecision curveX0 precision, roundToPrecision curveY0 precision) ->
  printDField tep_success tep_evaluate fuel expr x0 y0 xe ye xstep ystep
    precision true curveStep curveX0 curveY0 = Diverged.
Proof.
  intros Hp Hchk Hok Hstep Hsx Hsy Hstart.
  apply printDField_unending; [exact Hchk | lia | exact Hok |].
  intros n first buffer.
  apply curve_loop_stalled; try assumption.
  now apply eqb_zero.
Qed.

(** [printDField_overlay_stalls] on the unit square with the formula 1 at
    precision 2: the curve step 0.001 is positive and rounds to zero, the
    curve starts at the corner (0, 0). *)
Lemma printDField_overlay_stalls_run :
  (F64.of_Z 0 <? F64.of_dec 1 (-3))%D = true /\
  roundToPrecision (F64.of_dec 1 (-3)) 2 = F64.of_Z 0 /\
  printDField Formula.success Formula.evaluate 1000 "1" (F64.of_Z 0)
    (F64.of_Z 0) (F64.of_Z 1) (F64.of_Z 1) (F64.of_Z 1) (F64.of_Z 1) 2 true
    (F64.of_dec 1 (-3)) (F64.of_Z 0) (F64.of_Z 0) = Diverged.
Proof.
  split; [vm_compute; reflexivity |]. split; [vm_compute; reflexivity |].
  apply printDField_overlay_stalls;
    [lia | vm_compute; reflexivity | intros x y; reflexivity
     | vm_compute; reflexivity | vm_compute; reflexivity
     | vm_compute; reflexivity |].
  repeat split; vm_compute; reflexivity.
Defined.

(** ** The rounder on the zeros, the infinities and NaN *)

Section RounderSpecials.

Local Open Scope Z_scope.

(** On binary64, for the precisions 0..22, the rounder gives back the
    doubles that are no finite numbers different from zero: a zero with
    its sign, an infinity with its sign, and NaN. *)
Theorem roundToPrecision_specials_f64 (v : float) (p : Z) :
  0 <= p <= 22 ->
  F64.isfinite v = false \/ PrimFloat.eqb v (F64.of_Z 0) = true ->
  roundToPrecision v p = v.
Proof.
  intros Hp Hv. destruct (scale_finite Hp) as (mS & eS & Hs & _).
  assert (Hcase : match Prim2SF v with
                  | S754_finite _ _ _ => False
                  | _ => True
                  end).
  { destruct Hv as [Hv | Hv].
    - unfold F64.isfinite in Hv. now destruct (Prim2SF v).
    - destruct (eqb_zero Hv) as [s ->]. exact I. }
  unfold roundToPrecision.
  cbn [dmul ddiv std_round std_pow10 float_arith].
  assert (Hm : PrimFloat.mul v (F64.of_dec 1 p) = v).
  { apply Prim2SF_inj. rewrite mul_spec, Hs.
    destruct (Prim2SF v) as [s | s | | s m e]; try contradiction; cbn;
      now rewrite ?xorb_false_r. }
  rewrite Hm.
  assert (Hr : F64.round v = v).
  { unfold F64.round.
    now destruct (Prim2SF v) as [s | s | | s m e]; try contradiction. }
  rewrite Hr. apply Prim2SF_inj. rewrite div_spec, Hs.
  destruct (Prim2SF v) as [s | s | | s m e]; try contradiction; cbn;
    now rewrite ?xorb_false_r.
Qed.

(** [roundToPrecision_specials_f64] on the negative zero and on the
    infinity at precision 6. *)
Lemma roundToPrecision_specials_f64_run :
  roundToPrecision neg_zero 6 = neg_zero /\
  roundToPrecision infinity 6 = infinity.
Proof.
  split; apply roundToPrecision_specials_f64; try lia.
  - right. vm_compute. reflexivity.
  - left. vm_compute. reflexivity.
Defined.

End RounderSpecials.
